(** * bun-streaming-exec: the streaming executor, embedded and verified

    A shallow embedding of [ts-parser.ts] (statement completeness and binding
    extraction) and [streaming-executor.ts] (the run loop, the statement
    pipeline, the timeout race and the constructor), with the properties of
    the specification stated over it.

    External collaborators (the TypeScript parser, Bun's transpiler, the
    [node:vm] sandbox with the callbacks executed code leaves pending, the
    host's [String] conversion and property read) are not part of the
    repository: they are taken as parameters, bundled in the record
    [Collaborators], and every theorem holds for all of them.  The
    environment of a run (how long the task waits for each chunk of the
    stream, and how much the consumer of the events has read by then) is
    part of the stream a run is given, and every theorem holds for all of
    it.

    The stream is taken to deliver its chunks and end, without throwing.
    The context object is taken to be an ordinary extensible object whose
    properties are data properties, and reading the [message] of a thrown
    value is taken to run no code; objects held by two names are held by
    value. *)

From Stdlib Require Import ZArith Ascii String.
From stdpp Require Import base option list gmap sorting.

Set Warnings "-register-all".
Open Scope Z_scope.

(** ** JavaScript strings

    A JavaScript string is a sequence of UTF-16 code units.  The scanner
    iterates its chunks by code point ([for (const char of chunk)]) and
    trims its buffer with [String.prototype.trim], so both are modelled on
    code units. *)

Module JsString.

Abbreviation jsstring := (list Z).

(** A string literal of the source, as code units. *)
Definition js (s : string) : jsstring :=
  (fun a => Z.of_nat (nat_of_ascii a)) <$> list_ascii_of_string s.

(** Truthiness of a string: [if (trimmed)]. *)
Definition nonEmpty (s : jsstring) : bool :=
  match s with [] => false | _ :: _ => true end.

(** [Array.prototype.join]. *)
Fixpoint join (sep : jsstring) (parts : list jsstring) : jsstring :=
  match parts with
  | [] => []
  | [p] => p
  | p :: rest => p ++ sep ++ join sep rest
  end.

(** White space and line terminators removed by [trim] (ECMAScript
    WhiteSpace and LineTerminator productions). *)
Definition isWhiteSpace (u : Z) : bool :=
  bool_decide (u = 9) || bool_decide (u = 10) || bool_decide (u = 11)
  || bool_decide (u = 12) || bool_decide (u = 13) || bool_decide (u = 32)
  || bool_decide (u = 160) || bool_decide (u = 5760)
  || (bool_decide (8192 <= u) && bool_decide (u <= 8202))
  || bool_decide (u = 8232) || bool_decide (u = 8233)
  || bool_decide (u = 8239) || bool_decide (u = 8287)
  || bool_decide (u = 12288) || bool_decide (u = 65279).

Fixpoint trimStart (s : jsstring) : jsstring :=
  match s with
  | [] => []
  | u :: rest => if isWhiteSpace u then trimStart rest else s
  end.

Definition trimEnd (s : jsstring) : jsstring :=
  reverse (trimStart (reverse s)).

Definition trim (s : jsstring) : jsstring := trimEnd (trimStart s).

(** Surrogate code units. *)
Definition isHighSurrogate (u : Z) : bool :=
  bool_decide (55296 <= u) && bool_decide (u <= 56319).
Definition isLowSurrogate (u : Z) : bool :=
  bool_decide (56320 <= u) && bool_decide (u <= 57343).

(** The string iterator: one element per code point, a well-formed
    surrogate pair being one element of two code units and any other code
    unit (a lone surrogate too) an element of its own. *)
Fixpoint codePoints (s : jsstring) : list jsstring :=
  match s with
  | [] => []
  | u :: rest =>
      match rest with
      | v :: rest' =>
          if isHighSurrogate u && isLowSurrogate v
          then [u; v] :: codePoints rest'
          else [u] :: codePoints rest
      | [] => [[u]]
      end
  end.

Definition semicolon : jsstring := [59].
Definition newline : jsstring := [10].

End JsString.
Import JsString.

(** ** JavaScript values

    The fragment of values the executor inspects: what it throws, catches,
    stores in the context and reads back from a settled statement. *)

Inductive Realm := Host | Vm.

(** [VObject props] is an object given by the properties it exposes;
    [VError] is an error object of a realm, given by its name and message;
    [VContext] is the context object where the context refers to itself
    ([ctx.globalThis = ctx]); [VConsole] is a console made by
    [createConsoleForBuffer]; [VExtended base extra] is the object [base]
    (an error, a console) after assignments to the properties [extra]. *)
Inductive JsValue :=
| VUndefined
| VNull
| VBoolean (b : bool)
| VNumber (n : Z)
| VString (s : jsstring)
| VFunction (name : jsstring)
| VError (realm : Realm) (name message : jsstring)
| VObject (props : list (jsstring * JsValue))
| VContext
| VConsole
| VExtended (base : JsValue) (extra : list (jsstring * JsValue)).

#[global] Instance Realm_eq_dec : EqDecision Realm.
Proof. solve_decision. Defined.

Inductive TypeOf :=
| TUndefined | TObject | TBoolean | TNumber | TString | TFunction.

#[global] Instance TypeOf_eq_dec : EqDecision TypeOf.
Proof. solve_decision. Defined.

Fixpoint typeof (v : JsValue) : TypeOf :=
  match v with
  | VUndefined => TUndefined
  | VNull => TObject
  | VBoolean _ => TBoolean
  | VNumber _ => TNumber
  | VString _ => TString
  | VFunction _ => TFunction
  | VError _ _ _ | VObject _ | VContext | VConsole => TObject
  | VExtended base _ => typeof base
  end.

(** [v instanceof Error], with [Error] the constructor of the host realm:
    an error object created inside the sandbox has the sandbox's own
    [Error] in its prototype chain and is not an instance of the host's. *)
Fixpoint instanceofError (v : JsValue) : bool :=
  match v with
  | VError Host _ _ => true
  | VExtended base _ => instanceofError base
  | _ => false
  end.

Fixpoint lookupProp (key : jsstring) (props : list (jsstring * JsValue))
  : JsValue :=
  match props with
  | [] => VUndefined
  | (k, v) :: rest => if bool_decide (k = key) then v else lookupProp key rest
  end.

(** The property of a list of assigned properties, if the list has it. *)
Fixpoint assignedProp (key : jsstring) (props : list (jsstring * JsValue))
  : option JsValue :=
  match props with
  | [] => None
  | (k, v) :: rest =>
      if bool_decide (k = key) then Some v else assignedProp key rest
  end.

(** Property read [v.key] on a caught value: the [message] and [name] of an
    error, the properties an object exposes, the properties assigned to an
    extended object. *)
Fixpoint getProp (v : JsValue) (key : jsstring) : JsValue :=
  match v with
  | VError _ name message =>
      if bool_decide (key = js "message") then VString message
      else if bool_decide (key = js "name") then VString name
      else VUndefined
  | VObject props => lookupProp key props
  | VExtended base extra =>
      match assignedProp key extra with
      | Some x => x
      | None => getProp base key
      end
  | _ => VUndefined
  end.

Fixpoint truthy (v : JsValue) : bool :=
  match v with
  | VUndefined | VNull => false
  | VBoolean b => b
  | VNumber n => negb (bool_decide (n = 0))
  | VString s => nonEmpty s
  | VExtended base _ => truthy base
  | _ => true
  end.

(** [v === "literal"]: strict equality with a string. *)
Definition strictEqualsString (v : JsValue) (literal : jsstring) : bool :=
  match v with
  | VString s => bool_decide (s = literal)
  | _ => false
  end.

(** [v !== null] *)
Definition notNull (v : JsValue) : bool :=
  match v with
  | VNull => false
  | _ => true
  end.

(** [new Error(message)] evaluated by the executor itself (host realm). *)
Definition newError (message : jsstring) : JsValue :=
  VError Host (js "Error") message.

(** A call returns a value, or throws. *)
Inductive Outcome (A : Type) :=
| Returned (value : A)
| Thrown (e : JsValue).

Arguments Returned {A} value.
Arguments Thrown {A} e.

(** ** ts-parser.ts *)

Module TsParser.

(** The part of the TypeScript tree that binding extraction walks.  A
    binding element is represented by its [name]; an array pattern's
    [OmittedExpression] is [None]. *)
Inductive BindingName :=
| Identifier (text : jsstring)
| ObjectBindingPattern (elements : list BindingName)
| ArrayBindingPattern (elements : list (option BindingName)).

Inductive Statement :=
| VariableStatement (declarations : list BindingName)
| FunctionDeclaration (name : option jsstring)
| ClassDeclaration (name : option jsstring)
| OtherStatement.

Record SourceFile := {
  statements : list Statement;
  parseDiagnostics : list jsstring;
}.

Inductive ParseResult :=
| Incomplete
| Complete (sourceFile : SourceFile).

Record Bindings := {
  variables : list jsstring;
  functions : list jsstring;
  classes : list jsstring;
}.

Section Parse.
(** [ts.createSourceFile(fileName, source, ESNext, true, kind)], the
    file name and script kind being chosen by the [jsx] flag. *)
Variable createSourceFile : jsstring -> bool -> SourceFile.

Definition parseStatement (source : jsstring) (jsx : bool) : ParseResult :=
  let sourceFile := createSourceFile source jsx in
  let diagnostics := parseDiagnostics sourceFile in
  if bool_decide (0 < length diagnostics)%nat then Incomplete
  else Complete sourceFile.
End Parse.

Fixpoint extractFromBindingName (node : BindingName) : list jsstring :=
  match node with
  | Identifier text => [text]
  | ObjectBindingPattern elements =>
      flat_map extractFromBindingName elements
  | ArrayBindingPattern elements =>
      flat_map (fun el => match el with
                          | None => []
                          | Some name => extractFromBindingName name
                          end) elements
  end.

(** One iteration of the loop over [sourceFile.statements]. *)
Definition extractStatement (acc : Bindings) (statement : Statement)
  : Bindings :=
  match statement with
  | VariableStatement declarations =>
      {| variables :=
           fold_left (fun vars decl => vars ++ extractFromBindingName decl)
                     declarations (variables acc);
         functions := functions acc;
         classes := classes acc |}
  | FunctionDeclaration (Some name) =>
      {| variables := variables acc;
         functions := functions acc ++ [name];
         classes := classes acc |}
  | ClassDeclaration (Some name) =>
      {| variables := variables acc;
         functions := functions acc;
         classes := classes acc ++ [name] |}
  | _ => acc
  end.

Definition extractBindingsFromAST (sourceFile : SourceFile) : Bindings :=
  fold_left extractStatement (statements sourceFile)
            {| variables := []; functions := []; classes := [] |}.

(** [[...variables, ...functions, ...classes]] of [executeStatement]. *)
Definition allNames (b : Bindings) : list jsstring :=
  variables b ++ functions b ++ classes b.

End TsParser.
Import TsParser.

(** ** types.ts *)

Inductive ExecutionErrorType := parse | runtime | timeout.

#[global] Instance ExecutionErrorType_eq_dec : EqDecision ExecutionErrorType.
Proof. solve_decision. Defined.

Record ExecutionError := {
  type : ExecutionErrorType;
  thrown : JsValue;
  message : jsstring;
  line : Z;
}.

Record ExecutionEvent := {
  statement : jsstring;
  ev_line : Z;
  logs : jsstring;
  error : option ExecutionError;
}.

Record ExecutionResult := {
  res_logs : jsstring;
  res_error : option ExecutionError;
}.

Record JsxOptions := {
  jsx_jsx : option jsstring;
  jsxFactory : option jsstring;
  jsxFragmentFactory : option jsstring;
  jsxImportSource : option jsstring;
}.

(** [jsx?: boolean | JsxOptions]. *)
Inductive JsxSetting :=
| JsxFlag (b : bool)
| JsxObject (o : JsxOptions).

Record StreamingExecutorOptions := {
  opt_context : option (gmap jsstring JsValue);
  opt_timeout : option Z;
  opt_jsx : option JsxSetting;
  opt_continueOnError : option bool;
}.

(** ** streaming-executor.ts *)

Definition DEFAULT_TIMEOUT : Z := 30000.

Inductive QueuedEvent :=
| QEvent (event : ExecutionEvent)
| QDone.

Inductive Loader := LoaderTs | LoaderTsx.

(** The options object handed to [new Bun.Transpiler]. *)
Record CompilerOptions := {
  co_jsx : jsstring;
  co_jsxFactory : jsstring;
  co_jsxFragmentFactory : jsstring;
  co_jsxImportSource : option jsstring;
}.

Record TranspilerOptions := {
  loader : Loader;
  tsconfig : option CompilerOptions;
}.

(** How the race of [withTimeout] ends: the statement's promise settles
    first, or the timer does. *)
Inductive Race :=
| Resolves (result : JsValue)
| Rejects (reason : JsValue)
| TimerFires.

(** [new vm.Script(wrapped)] and [script.runInContext] either throw, or
    hand back the promise that is then raced. *)
Inductive Completion :=
| Threw (e : JsValue)
| Raced (race : Race).

(** A callback that code executed in the sandbox has registered and that
    has not run yet (a timer, a promise reaction): the time until it is
    due, and a handle to what it does, which the sandbox alone
    interprets. *)
Record PendingCallback := {
  dueIn : Z;
  handle : jsstring;
}.

(** What the sandbox did from the start of one wrapped statement until the
    race is decided, the statement's own code and the callbacks of earlier
    statements that ran meanwhile: the context and the pending callbacks
    as they are left, the chunks written to the console installed for the
    statement, and the completion. *)
Record ScriptRun := {
  contextAfter : gmap jsstring JsValue;
  pendingAfter : list PendingCallback;
  written : list jsstring;
  completion : Completion;
}.

(** The external collaborators. *)
Record Collaborators := {
  (** [ts.createSourceFile] *)
  createSourceFile : jsstring -> bool -> SourceFile;
  (** [transpiler.transformSync(source, loader)]: the code, or what it
      throws *)
  transformSync : TranspilerOptions -> jsstring -> Loader -> jsstring + JsValue;
  (** [new vm.Script(wrapped).runInContext(context)], raced with a timer of
      the given duration, in a sandbox with the given context and pending
      callbacks *)
  runScript : jsstring -> gmap jsstring JsValue -> list PendingCallback -> Z
              -> ScriptRun;
  (** what the pending callbacks do to the sandbox while the task waits
      the given time for the stream; what they write goes to the console of
      a statement that is over, and is lost *)
  elapse : Z -> gmap jsstring JsValue -> list PendingCallback
           -> gmap jsstring JsValue * list PendingCallback;
  (** the host's [String(value)]: it throws for a value that has no
      primitive conversion *)
  String_ : JsValue -> Outcome jsstring;
  (** the property read [value[key]] of the language, through the
      prototype chain and on primitives *)
  propertyRead : JsValue -> jsstring -> JsValue;
}.

(** The fields of the class, and the callbacks that code executed in its
    context has left pending. *)
Record StreamingExecutor := {
  _context : gmap jsstring JsValue;
  transpiler : TranspilerOptions;
  exec_timeout : Z;
  jsx : bool;
  continueOnError : bool;
  _running : bool;
  _pending : list PendingCallback;
}.

Definition set_context (ctx : gmap jsstring JsValue) (self : StreamingExecutor)
  : StreamingExecutor :=
  {| _context := ctx; transpiler := transpiler self;
     exec_timeout := exec_timeout self; jsx := jsx self;
     continueOnError := continueOnError self; _running := _running self;
     _pending := _pending self |}.

Definition set_running (b : bool) (self : StreamingExecutor)
  : StreamingExecutor :=
  {| _context := _context self; transpiler := transpiler self;
     exec_timeout := exec_timeout self; jsx := jsx self;
     continueOnError := continueOnError self; _running := b;
     _pending := _pending self |}.

Definition set_pending (p : list PendingCallback) (self : StreamingExecutor)
  : StreamingExecutor :=
  {| _context := _context self; transpiler := transpiler self;
     exec_timeout := exec_timeout self; jsx := jsx self;
     continueOnError := continueOnError self; _running := _running self;
     _pending := p |}.

(** [props.key = value] on a list of properties. *)
Fixpoint setProp (key : jsstring) (value : JsValue)
  (props : list (jsstring * JsValue)) : list (jsstring * JsValue) :=
  match props with
  | [] => [(key, value)]
  | (k, v) :: rest =>
      if bool_decide (k = key) then (k, value) :: rest
      else (k, v) :: setProp key value rest
  end.

(** [obj.key = value] on an object: the object afterwards. *)
Definition assignProp (obj : JsValue) (key : jsstring) (value : JsValue)
  : JsValue :=
  match obj with
  | VObject props => VObject (setProp key value props)
  | VExtended base extra => VExtended base (setProp key value extra)
  | _ => VExtended obj [(key, value)]
  end.

(** [ctx[key] = value] on the context object, for a key that is not known
    in advance.  The key [__proto__] reaches the accessor the context
    object inherits from [Object.prototype]: the assignment creates no
    binding (the prototype of the context object is not part of the
    model). *)
Definition assignGlobal (key : jsstring) (value : JsValue)
  (ctx : gmap jsstring JsValue) : gmap jsstring JsValue :=
  if bool_decide (key = js "__proto__") then ctx else <[key := value]> ctx.

(** [createConsoleForBuffer(buffer)]: a console whose output goes to the
    buffer; what is written there is reported by [written]. *)
Definition createConsoleForBuffer : JsValue := VConsole.

(** [setContextConsole]: the console is stored in the context and, when
    [ctx.globalThis] is an object, in that object too.  [globalThis] is the
    context itself (the same assignment again) unless the user replaced
    it. *)
Definition setContextConsole (console : JsValue) (ctx : gmap jsstring JsValue)
  : gmap jsstring JsValue :=
  let ctx := <[js "console" := console]> ctx in
  match ctx !! js "globalThis" with
  | Some VContext => ctx
  | Some g =>
      if truthy g && bool_decide (typeof g = TObject)
      then <[js "globalThis" := assignProp g (js "console") console]> ctx
      else ctx
  | None => ctx
  end.

Definition initializeBuiltins (ctx : gmap jsstring JsValue)
  : gmap jsstring JsValue :=
  let ctx := <[js "globalThis" := VContext]> ctx in
  let ctx := <[js "setTimeout" := VFunction (js "setTimeout")]> ctx in
  let ctx := <[js "clearTimeout" := VFunction (js "clearTimeout")]> ctx in
  let ctx := <[js "setInterval" := VFunction (js "setInterval")]> ctx in
  let ctx := <[js "clearInterval" := VFunction (js "clearInterval")]> ctx in
  let ctx := <[js "queueMicrotask" := VFunction (js "queueMicrotask")]> ctx in
  setContextConsole createConsoleForBuffer ctx.

(** The names installed by [initializeBuiltins]. *)
Definition builtinNames : list jsstring :=
  [js "globalThis"; js "setTimeout"; js "clearTimeout"; js "setInterval";
   js "clearInterval"; js "queueMicrotask"; js "console"].

Definition jsxTranspilerOptions (jsxConfig : JsxOptions) : TranspilerOptions :=
  {| loader := LoaderTsx;
     tsconfig := Some
       {| co_jsx := default (js "react") (jsx_jsx jsxConfig);
          co_jsxFactory :=
            default (js "React.createElement") (jsxFactory jsxConfig);
          co_jsxFragmentFactory :=
            default (js "React.Fragment") (jsxFragmentFactory jsxConfig);
          co_jsxImportSource :=
            match jsxImportSource jsxConfig with
            | Some src => if nonEmpty src then Some src else None
            | None => None
            end |} |}.

(** The loop of the constructor over [Object.entries(options.context)];
    the record's entries are those of a finite map, one per key. *)
Definition applyUserContext (record : gmap jsstring JsValue)
  (ctx : gmap jsstring JsValue) : gmap jsstring JsValue :=
  fold_left (fun ctx kv => assignGlobal kv.1 kv.2 ctx) (map_to_list record) ctx.

Definition constructor (options : option StreamingExecutorOptions)
  : StreamingExecutor :=
  let timeout_ := default DEFAULT_TIMEOUT (options ≫= opt_timeout) in
  let continueOnError_ := default false (options ≫= opt_continueOnError) in
  let jsx_ :=
    match options ≫= opt_jsx with
    | None => false
    | Some (JsxFlag b) => b
    | Some (JsxObject _) => true
    end in
  let transpiler_ :=
    if jsx_ then
      jsxTranspilerOptions
        match options ≫= opt_jsx with
        | Some (JsxObject o) => o
        | _ => {| jsx_jsx := None; jsxFactory := None;
                  jsxFragmentFactory := None; jsxImportSource := None |}
        end
    else {| loader := LoaderTs; tsconfig := None |} in
  let ctx := initializeBuiltins ∅ in
  let ctx :=
    match options ≫= opt_context with
    | Some record => applyUserContext record ctx
    | None => ctx
    end in
  {| _context := ctx; transpiler := transpiler_; exec_timeout := timeout_;
     jsx := jsx_; continueOnError := continueOnError_; _running := false;
     _pending := [] |}.

(** The variables closed over by one call of [run]: the locals of its
    background task ([buffer], [lineNumber], [statementStartLine]), the
    accumulators [allLogs] and [finalError], the event queue, and the
    value the result promise was resolved with, if it was; with them, what
    the event generator has yielded so far and whether it has returned, and
    what the promise of the background task was rejected with, if it was
    (nothing handles that rejection). *)
Record Run := {
  buffer : jsstring;
  lineNumber : Z;
  statementStartLine : Z;
  allLogs : jsstring;
  finalError : option ExecutionError;
  eventQueue : list QueuedEvent;
  resultPromise : option ExecutionResult;
  yielded : list ExecutionEvent;
  generatorDone : bool;
  rejected : option JsValue;
}.

Definition set_buffer (b : jsstring) (r : Run) : Run :=
  {| buffer := b; lineNumber := lineNumber r;
     statementStartLine := statementStartLine r; allLogs := allLogs r;
     finalError := finalError r; eventQueue := eventQueue r;
     resultPromise := resultPromise r; yielded := yielded r;
     generatorDone := generatorDone r; rejected := rejected r |}.

Definition set_lineNumber (n : Z) (r : Run) : Run :=
  {| buffer := buffer r; lineNumber := n;
     statementStartLine := statementStartLine r; allLogs := allLogs r;
     finalError := finalError r; eventQueue := eventQueue r;
     resultPromise := resultPromise r; yielded := yielded r;
     generatorDone := generatorDone r; rejected := rejected r |}.

Definition set_statementStartLine (n : Z) (r : Run) : Run :=
  {| buffer := buffer r; lineNumber := lineNumber r; statementStartLine := n;
     allLogs := allLogs r; finalError := finalError r;
     eventQueue := eventQueue r; resultPromise := resultPromise r;
     yielded := yielded r; generatorDone := generatorDone r;
     rejected := rejected r |}.

Definition set_allLogs (l : jsstring) (r : Run) : Run :=
  {| buffer := buffer r; lineNumber := lineNumber r;
     statementStartLine := statementStartLine r; allLogs := l;
     finalError := finalError r; eventQueue := eventQueue r;
     resultPromise := resultPromise r; yielded := yielded r;
     generatorDone := generatorDone r; rejected := rejected r |}.

Definition set_finalError (e : option ExecutionError) (r : Run) : Run :=
  {| buffer := buffer r; lineNumber := lineNumber r;
     statementStartLine := statementStartLine r; allLogs := allLogs r;
     finalError := e; eventQueue := eventQueue r;
     resultPromise := resultPromise r; yielded := yielded r;
     generatorDone := generatorDone r; rejected := rejected r |}.

Definition set_eventQueue (q : list QueuedEvent) (r : Run) : Run :=
  {| buffer := buffer r; lineNumber := lineNumber r;
     statementStartLine := statementStartLine r; allLogs := allLogs r;
     finalError := finalError r; eventQueue := q;
     resultPromise := resultPromise r; yielded := yielded r;
     generatorDone := generatorDone r; rejected := rejected r |}.

Definition set_yielded (evs : list ExecutionEvent) (r : Run) : Run :=
  {| buffer := buffer r; lineNumber := lineNumber r;
     statementStartLine := statementStartLine r; allLogs := allLogs r;
     finalError := finalError r; eventQueue := eventQueue r;
     resultPromise := resultPromise r; yielded := evs;
     generatorDone := generatorDone r; rejected := rejected r |}.

Definition set_generatorDone (d : bool) (r : Run) : Run :=
  {| buffer := buffer r; lineNumber := lineNumber r;
     statementStartLine := statementStartLine r; allLogs := allLogs r;
     finalError := finalError r; eventQueue := eventQueue r;
     resultPromise := resultPromise r; yielded := yielded r;
     generatorDone := d; rejected := rejected r |}.

Definition set_rejected (e : option JsValue) (r : Run) : Run :=
  {| buffer := buffer r; lineNumber := lineNumber r;
     statementStartLine := statementStartLine r; allLogs := allLogs r;
     finalError := finalError r; eventQueue := eventQueue r;
     resultPromise := resultPromise r; yielded := yielded r;
     generatorDone := generatorDone r; rejected := e |}.

(** [resolveResult(result)]; resolving a promise twice keeps the first
    value. *)
Definition resolveResult (res : ExecutionResult) (r : Run) : Run :=
  {| buffer := buffer r; lineNumber := lineNumber r;
     statementStartLine := statementStartLine r; allLogs := allLogs r;
     finalError := finalError r; eventQueue := eventQueue r;
     resultPromise :=
       match resultPromise r with Some v => Some v | None => Some res end;
     yielded := yielded r; generatorDone := generatorDone r;
     rejected := rejected r |}.

(** The state of a fresh call of [run]. *)
Definition newRun : Run :=
  {| buffer := []; lineNumber := 1; statementStartLine := 1; allLogs := [];
     finalError := None; eventQueue := []; resultPromise := None;
     yielded := []; generatorDone := false; rejected := None |}.

(** [eventQueue.push(item)]; waking the consumer does not change what is
    queued. *)
Definition pushEvent (item : QueuedEvent) (r : Run) : Run :=
  set_eventQueue (eventQueue r ++ [item]) r.

(** [if (!finalError) finalError = error] *)
Definition recordError (e : ExecutionError) (r : Run) : Run :=
  match finalError r with
  | Some _ => r
  | None => set_finalError (Some e) r
  end.

(** One turn of the event generator's loop that finds an item in the
    queue: [eventQueue.shift()], then the event is yielded, or the
    generator returns on [done].  On an empty queue the generator waits,
    and a generator that has returned does nothing more. *)
Definition generatorNext (r : Run) : Run :=
  if generatorDone r then r
  else
    match eventQueue r with
    | [] => r
    | QEvent ev :: rest => set_yielded (yielded r ++ [ev]) (set_eventQueue rest r)
    | QDone :: rest => set_generatorDone true (set_eventQueue rest r)
    end.

(** The consumer calls [next()] on the event generator [n] times. *)
Fixpoint consume (n : nat) (r : Run) : Run :=
  match n with
  | O => r
  | S n => consume n (generatorNext r)
  end.

(** What the event generator yields from a queue before it returns: the
    events up to the first [done] item. *)
Fixpoint eventGenerator (queue : list QueuedEvent) : list ExecutionEvent :=
  match queue with
  | [] => []
  | QDone :: _ => []
  | QEvent ev :: rest => ev :: eventGenerator rest
  end.

(** The events of a run, as its consumer gets them: those the generator
    has yielded and those it will yield from what is queued. *)
Definition eventsOf (r : Run) : list ExecutionEvent :=
  yielded r
  ++ (if generatorDone r then [] else eventGenerator (eventQueue r)).

(** One arrival of the stream: the chunk it delivers, the time the task
    waited for it, and how many times the consumer of the events called
    [next()] meanwhile.  (A stream that ends some time after its last chunk
    is one whose last arrival is an empty chunk.)  The reads of the
    consumer are placed at the arrivals: the task does not touch the queue
    while it awaits a statement, so a read made then takes from the queue
    what a read made at the arrival of the statement's semicolon takes. *)
Record Arrival := {
  waited : Z;
  pulled : nat;
  chunk : jsstring;
}.

(** The text a stream delivers. *)
Definition sourceText (stream : list Arrival) : jsstring :=
  concat (chunk <$> stream).

(** How a statement of the loop body ends: it falls through to the rest of
    the body, executes [continue], executes [return], or throws. *)
Inductive Step :=
| Fall (self : StreamingExecutor) (r : Run)
| Continue (self : StreamingExecutor) (r : Run)
| Ret (self : StreamingExecutor) (r : Run)
| Raise (self : StreamingExecutor) (r : Run) (e : JsValue).

(** How the loop over the stream goes on: to the next character, out of
    the task by [return], or out of the [try] block by an exception. *)
Inductive Flow :=
| Next (self : StreamingExecutor) (r : Run)
| Return (self : StreamingExecutor) (r : Run)
| Throw (self : StreamingExecutor) (r : Run) (e : JsValue).

Section Executor.

Variable C : Collaborators.

Definition errorMessage (e : JsValue) : jsstring :=
  match getProp e (js "message") with
  | VString m => m
  | _ => []
  end.

(** [transpile]: the code, the message of what the transpiler threw, or
    what the [catch] block itself throws. *)
Definition transpile (self : StreamingExecutor) (source : jsstring)
  : Outcome (jsstring + jsstring) :=
  let loader_ := if jsx self then LoaderTsx else LoaderTs in
  match transformSync C (transpiler self) source loader_ with
  | inl code => Returned (inl code)
  | inr e =>
      if instanceofError e then Returned (inr (errorMessage e))
      else
        match String_ C e with
        | Returned s => Returned (inr s)
        | Thrown e' => Thrown e'
        end
  end.

Definition formatErrorMessage (error : JsValue) : Outcome jsstring :=
  if instanceofError error then Returned (errorMessage error)
  else if bool_decide (typeof error = TObject)
          && notNull error then
    match getProp error (js "message") with
    | VString m =>
        if bool_decide (0 < length m)%nat then Returned m
        else String_ C error
    | _ => String_ C error
    end
  else String_ C error.

(** [withTimeout]: the value the race resolves with ([inl]), or what it
    throws ([inr]); when the timer wins, that is the error the timer's
    callback creates. *)
Definition withTimeout (race : Race) : JsValue + JsValue :=
  match race with
  | Resolves result => inl result
  | Rejects e => inr e
  | TimerFires => inr (newError (js "Execution timeout"))
  end.

(** The hoisting loop of [executeStatement]. *)
Definition hoist (names : list jsstring) (result : JsValue)
  (ctx : gmap jsstring JsValue) : gmap jsstring JsValue :=
  fold_left (fun ctx name => assignGlobal name (propertyRead C result name) ctx)
            names ctx.

Definition wrap (transpiled : jsstring) (names : list jsstring) : jsstring :=
  if bool_decide (0 < length names)%nat then
    js "(async () => { " ++ transpiled ++ js "; return { "
       ++ join (js ", ") names ++ js " }; })()"
  else
    js "(async () => { " ++ transpiled ++ js "; })()".

(** [executeStatement]: the executor afterwards, and the logs and error
    the promise resolves with, or what it rejects with (when the [catch]
    block throws). *)
Definition executeStatement (self : StreamingExecutor)
  (transpiled : jsstring) (bindings : Bindings) (line_ : Z)
  : StreamingExecutor * Outcome (jsstring * option ExecutionError) :=
  let self := set_context
                (setContextConsole createConsoleForBuffer (_context self))
                self in
  let names := allNames bindings in
  let wrapped := wrap transpiled names in
  let script := runScript C wrapped (_context self) (_pending self)
                          (exec_timeout self) in
  let self := set_pending (pendingAfter script)
                          (set_context (contextAfter script) self) in
  let statementLogs := concat (written script) in
  let outcome :=
    match completion script with
    | Threw e => inr e
    | Raced race => withTimeout race
    end in
  match outcome with
  | inl result =>
      let self :=
        if bool_decide (0 < length names)%nat && truthy result
        then set_context (hoist names result (_context self)) self
        else self in
      (self, Returned (statementLogs, None))
  | inr e =>
      if instanceofError e
         && strictEqualsString (getProp e (js "message"))
                               (js "Execution timeout")
      then (self, Returned (statementLogs,
                            Some {| type := timeout; thrown := e;
                                    message := js "Execution timeout";
                                    line := line_ |}))
      else
        match formatErrorMessage e with
        | Returned message_ =>
            (self, Returned (statementLogs,
                             Some {| type := runtime; thrown := e;
                                     message := message_;
                                     line := line_ |}))
        | Thrown e' => (self, Thrown e')
        end
  end.

(** The body of [if (char === ";")]. *)
Definition onSemicolon (self : StreamingExecutor) (r : Run) : Step :=
  let trimmed := trim (buffer r) in
  if nonEmpty trimmed then
    match parseStatement (createSourceFile C) trimmed (jsx self) with
    | Complete sourceFile =>
        let bindings := extractBindingsFromAST sourceFile in
        match transpile self trimmed with
        | Thrown e => Raise self r e
        | Returned (inr err) =>
            let error_ := {| type := parse; thrown := newError err;
                             message := err;
                             line := statementStartLine r |} in
            let r := recordError error_ r in
            let r := pushEvent
                       (QEvent {| statement := trimmed;
                                  ev_line := statementStartLine r;
                                  logs := []; error := Some error_ |}) r in
            if negb (continueOnError self) then Ret self r
            else
              let r := set_buffer [] r in
              let r := set_statementStartLine (lineNumber r) r in
              Continue self r
        | Returned (inl code) =>
            match executeStatement self code bindings
                                   (statementStartLine r) with
            | (self, Thrown e) => Raise self r e
            | (self, Returned (logs_, err)) =>
                let r := set_allLogs (allLogs r ++ logs_) r in
                let r := pushEvent
                           (QEvent {| statement := trimmed;
                                      ev_line := statementStartLine r;
                                      logs := logs_; error := err |}) r in
                let next r :=
                  let r := set_buffer [] r in
                  let r := set_statementStartLine (lineNumber r) r in
                  Fall self r in
                match err with
                | Some e =>
                    let r := recordError e r in
                    if negb (continueOnError self) then Ret self r
                    else next r
                | None => next r
                end
            end
        end
    | Incomplete => Fall self r
    end
  else Fall self r.

(** The body of [for (const char of chunk)]. *)
Definition processChar (char : jsstring) (self : StreamingExecutor)
  (r : Run) : Flow :=
  let r := set_buffer (buffer r ++ char) r in
  let step :=
    if bool_decide (char = semicolon) then onSemicolon self r
    else Fall self r in
  match step with
  | Raise self r e => Throw self r e
  | Ret self r => Return self r
  | Continue self r => Next self r
  | Fall self r =>
      if bool_decide (char = newline) then
        let r := set_lineNumber (lineNumber r + 1) r in
        if bool_decide (trim (buffer r) = [])
        then Next self (set_statementStartLine (lineNumber r) r)
        else Next self r
      else Next self r
  end.

Fixpoint forChars (chars : list jsstring) (self : StreamingExecutor)
  (r : Run) : Flow :=
  match chars with
  | [] => Next self r
  | char :: rest =>
      match processChar char self r with
      | Next self r => forChars rest self r
      | stop => stop
      end
  end.

(** The task waits for an arrival of the stream: meanwhile the pending
    callbacks of the sandbox run as they become due, and the consumer
    reads events. *)
Definition await (arrival : Arrival) (self : StreamingExecutor)
  : StreamingExecutor :=
  let '(ctx, pending_) :=
    elapse C (waited arrival) (_context self) (_pending self) in
  set_pending pending_ (set_context ctx self).

(** [for await (const chunk of stream)]: the stream is the list of its
    arrivals; the second component is what was never pulled from it. *)
Fixpoint forAwait (stream : list Arrival) (self : StreamingExecutor)
  (r : Run) : Flow * list Arrival :=
  match stream with
  | [] => (Next self r, [])
  | arrival :: rest =>
      let self := await arrival self in
      let r := consume (pulled arrival) r in
      match forChars (codePoints (chunk arrival)) self r with
      | Next self r => forAwait rest self r
      | stop => (stop, rest)
      end
  end.

(** The handling of the remaining buffer after the stream ended: the
    executor and the closure afterwards, and what was thrown, if the
    handling threw. *)
Definition flush (self : StreamingExecutor) (r : Run)
  : StreamingExecutor * Run * option JsValue :=
  let trimmed := trim (buffer r) in
  if nonEmpty trimmed
     && (continueOnError self || negb (bool_decide (is_Some (finalError r))))
  then
    match parseStatement (createSourceFile C) trimmed (jsx self) with
    | Complete sourceFile =>
        let bindings := extractBindingsFromAST sourceFile in
        match transpile self trimmed with
        | Thrown e => (self, r, Some e)
        | Returned (inr err) =>
            let error_ := {| type := parse; thrown := newError err;
                             message := err;
                             line := statementStartLine r |} in
            let r := recordError error_ r in
            (self,
             pushEvent (QEvent {| statement := trimmed;
                                  ev_line := statementStartLine r;
                                  logs := []; error := Some error_ |}) r,
             None)
        | Returned (inl code) =>
            match executeStatement self code bindings
                                   (statementStartLine r) with
            | (self, Thrown e) => (self, r, Some e)
            | (self, Returned (logs_, err)) =>
                let r := set_allLogs (allLogs r ++ logs_) r in
                let r := pushEvent
                           (QEvent {| statement := trimmed;
                                      ev_line := statementStartLine r;
                                      logs := logs_; error := err |}) r in
                match err with
                | Some e => (self, recordError e r, None)
                | None => (self, r, None)
                end
            end
        end
    | Incomplete =>
        let error_ := {| type := parse;
                         thrown := newError (js "Incomplete statement");
                         message := js "Incomplete statement";
                         line := statementStartLine r |} in
        let r := recordError error_ r in
        (self,
         pushEvent (QEvent {| statement := trimmed;
                              ev_line := statementStartLine r;
                              logs := []; error := Some error_ |}) r,
         None)
    end
  else (self, r, None).

(** The [finally] block of the background task. *)
Definition finally (self : StreamingExecutor) (r : Run)
  : StreamingExecutor * Run :=
  let self := set_running false self in
  let r := pushEvent QDone r in
  (self,
   resolveResult {| res_logs := allLogs r; res_error := finalError r |} r).

(** An exception leaves the [try] block: the [finally] block runs, and
    the promise of the task is rejected. *)
Definition finallyRejected (self : StreamingExecutor) (r : Run) (e : JsValue)
  : StreamingExecutor * Run :=
  let '(self, r) := finally self r in
  (self, set_rejected (Some e) r).

(** The background task of [run] on a stream that delivers the given
    arrivals and ends: the executor and the run's closure when the task is
    over, and the arrivals it never pulled. *)
Definition background (stream : list Arrival) (self : StreamingExecutor)
  (r : Run) : StreamingExecutor * Run * list Arrival :=
  match forAwait stream self r with
  | (Return self r, unread) => (finally self r, unread)
  | (Throw self r e, unread) => (finallyRejected self r e, unread)
  | (Next self r, unread) =>
      match flush self r with
      | (self, r, None) => (finally self r, unread)
      | (self, r, Some e) => (finallyRejected self r e, unread)
      end
  end.

(** The synchronous part of [run]: it throws, or it raises the flag and
    returns the [StreamingRun] whose closure is [r]. *)
Inductive RunCall :=
| RunThrew (e : JsValue)
| RunStarted (self : StreamingExecutor) (r : Run).

Definition run (self : StreamingExecutor) : RunCall :=
  if _running self then
    RunThrew (newError
                (js "Cannot call run() while another run is in progress"))
  else RunStarted (set_running true self) newRun.

(** An executor together with the background task of its latest run:
    the run's closure and the stream it reads. *)
Record World := {
  executor : StreamingExecutor;
  task : option (Run * list Arrival);
}.

(** A caller invokes [executor.run(stream)]: what is thrown to the
    caller, if anything, and the world afterwards. *)
Definition callRun (stream : list Arrival) (w : World)
  : option JsValue * World :=
  match run (executor w) with
  | RunThrew e => (Some e, w)
  | RunStarted self r =>
      (None, {| executor := self; task := Some (r, stream) |})
  end.

(** The background task of the world runs to its end. *)
Definition settle (w : World) : World :=
  match task w with
  | Some (r, stream) =>
      match resultPromise r with
      | Some _ => w
      | None =>
          let '(self, r, unread) := background stream (executor w) r in
          {| executor := self; task := Some (r, unread) |}
      end
  | None => w
  end.

(** A whole run on an idle executor. *)
Definition runToEnd (stream : list Arrival) (self : StreamingExecutor)
  : StreamingExecutor * Run * list Arrival :=
  background stream (set_running true self) newRun.

End Executor.

(** ** Properties of the specification, as predicates *)

(** A pattern binds a name: the name is one of its identifiers, reached
    through elements that are not omitted. *)
Inductive BindsName : BindingName -> jsstring -> Prop :=
| BindsIdentifier text :
    BindsName (Identifier text) text
| BindsObjectElement elements el x :
    In el elements -> BindsName el x ->
    BindsName (ObjectBindingPattern elements) x
| BindsArrayElement elements el x :
    In (Some el) elements -> BindsName el x ->
    BindsName (ArrayBindingPattern elements) x.

(** [BoundNames node names]: [names] are the identifiers of the pattern
    read from left to right, one entry for each occurrence; an omitted
    element of an array pattern contributes none. *)
Inductive BoundNames : BindingName -> list jsstring -> Prop :=
| BoundIdentifier text :
    BoundNames (Identifier text) [text]
| BoundObjectEnd :
    BoundNames (ObjectBindingPattern []) []
| BoundObjectElement el elements first others :
    BoundNames el first ->
    BoundNames (ObjectBindingPattern elements) others ->
    BoundNames (ObjectBindingPattern (el :: elements)) (first ++ others)
| BoundArrayEnd :
    BoundNames (ArrayBindingPattern []) []
| BoundArrayOmitted elements others :
    BoundNames (ArrayBindingPattern elements) others ->
    BoundNames (ArrayBindingPattern (None :: elements)) others
| BoundArrayElement el elements first others :
    BoundNames el first ->
    BoundNames (ArrayBindingPattern elements) others ->
    BoundNames (ArrayBindingPattern (Some el :: elements)) (first ++ others).

(** The bound names of the declarations of a variable statement, one
    declaration after the other. *)
Inductive BoundByAll : list BindingName -> list jsstring -> Prop :=
| BoundByNone : BoundByAll [] []
| BoundByMore decl declarations first others :
    BoundNames decl first ->
    BoundByAll declarations others ->
    BoundByAll (decl :: declarations) (first ++ others).

(** [Declared stmts b]: the three lists of [b] hold the names the
    statements declare at top level, statement after statement: the bound
    names of each declaration of a variable statement, the name of a named
    function declaration, the name of a named class declaration; nothing
    else is listed and nothing listed is dropped. *)
Inductive Declared : list Statement -> Bindings -> Prop :=
| DeclaredNone :
    Declared [] {| variables := []; functions := []; classes := [] |}
| DeclaredVariables declarations names rest b :
    BoundByAll declarations names ->
    Declared rest b ->
    Declared (VariableStatement declarations :: rest)
             {| variables := names ++ variables b;
                functions := functions b; classes := classes b |}
| DeclaredFunction name rest b :
    Declared rest b ->
    Declared (FunctionDeclaration (Some name) :: rest)
             {| variables := variables b;
                functions := name :: functions b; classes := classes b |}
| DeclaredClass name rest b :
    Declared rest b ->
    Declared (ClassDeclaration (Some name) :: rest)
             {| variables := variables b;
                functions := functions b; classes := name :: classes b |}
| DeclaredNothing st rest b :
    st = FunctionDeclaration None \/ st = ClassDeclaration None
    \/ st = OtherStatement ->
    Declared rest b ->
    Declared (st :: rest) b.

(** The names one statement contributes to each list. *)
Definition declaredVariables (st : Statement) : list jsstring :=
  match st with
  | VariableStatement declarations =>
      flat_map extractFromBindingName declarations
  | _ => []
  end.

Definition declaredFunctions (st : Statement) : list jsstring :=
  match st with
  | FunctionDeclaration (Some name) => [name]
  | _ => []
  end.

Definition declaredClasses (st : Statement) : list jsstring :=
  match st with
  | ClassDeclaration (Some name) => [name]
  | _ => []
  end.



(** White space only. *)
Definition blank (s : jsstring) : Prop := forallb isWhiteSpace s = true.

(** [Woven stmts text]: [text] is the statements of [stmts], in that
    order, each with white space around it and nothing else between. *)
Inductive Woven : list jsstring -> jsstring -> Prop :=
| WovenNil : Woven [] []
| WovenSnoc stmts text l s r :
    Woven stmts text -> blank l -> blank r ->
    Woven (stmts ++ [s]) (text ++ l ++ s ++ r).

(** The statements occur in the source in the order of the list, and the
    source holds nothing but them and white space. *)
Definition InSourceOrder (stmts : list jsstring) (source : jsstring) : Prop :=
  exists text tail, Woven stmts text /\ blank tail /\ source = text ++ tail.

(** The errors carried by a sequence of events, in order. *)
Definition errorsOf (events : list ExecutionEvent) : list ExecutionError :=
  omap error events.

(** One statement through the pipeline, as [run] drives it in the loop and
    in the flush: lowering, then execution; the executor afterwards and the
    event of the statement, or what was thrown on the way. *)
Definition statementEvent (C : Collaborators) (self : StreamingExecutor)
  (trimmed : jsstring) (sourceFile : SourceFile) (line_ : Z)
  : StreamingExecutor * Outcome ExecutionEvent :=
  match transpile C self trimmed with
  | Thrown e => (self, Thrown e)
  | Returned (inr err) =>
      (self,
       Returned {| statement := trimmed; ev_line := line_; logs := [];
                   error := Some {| type := parse; thrown := newError err;
                                    message := err; line := line_ |} |})
  | Returned (inl code) =>
      match executeStatement C self code (extractBindingsFromAST sourceFile)
                             line_ with
      | (self', Returned (logs_, err)) =>
          (self', Returned {| statement := trimmed; ev_line := line_;
                              logs := logs_; error := err |})
      | (self', Thrown e) => (self', Thrown e)
      end
  end.

(** The bookkeeping of [run] for one event: logs appended, event queued,
    error recorded if it is the first. *)
Definition emit (ev : ExecutionEvent) (r : Run) : Run :=
  let r := set_allLogs (allLogs r ++ logs ev) r in
  let r := pushEvent (QEvent ev) r in
  match error ev with
  | Some e => recordError e r
  | None => r
  end.

(** The event of an incomplete residual buffer. *)
Definition incompleteEvent (trimmed : jsstring) (line_ : Z) : ExecutionEvent :=
  {| statement := trimmed; ev_line := line_; logs := [];
     error := Some {| type := parse;
                      thrown := newError (js "Incomplete statement");
                      message := js "Incomplete statement";
                      line := line_ |} |}.

(** Two executors with the same settings: they differ at most in the
    context, the pending callbacks and the running flag. *)
Definition sameSettings (s1 s2 : StreamingExecutor) : Prop :=
  transpiler s1 = transpiler s2 /\ exec_timeout s1 = exec_timeout s2
  /\ jsx s1 = jsx s2 /\ continueOnError s1 = continueOnError s2.

(** An event carries the error of its own statement: the error has the
    event's line and is what lowering or executing the event's statement
    produced (in some state of the executor), or the incomplete-statement
    error of that text. *)
Definition OwnError (C : Collaborators) (self : StreamingExecutor)
  (ev : ExecutionEvent) : Prop :=
  match error ev with
  | None => True
  | Some e =>
      line e = ev_line ev /\
      (ev = incompleteEvent (statement ev) (ev_line ev)
       \/ exists s sourceFile,
            sameSettings self s /\
            (statementEvent C s (statement ev) sourceFile (ev_line ev)).2
            = Returned ev)
  end.

(** The scanner fed one code unit at a time, with no wait between. *)
Fixpoint forUnits (C : Collaborators) (text : jsstring)
  (self : StreamingExecutor) (r : Run) : Flow :=
  match text with
  | [] => Next self r
  | u :: rest =>
      match processChar C [u] self r with
      | Next self r => forUnits C rest self r
      | stop => stop
      end
  end.

(** The executor and the run's closure when the loop is left. *)
Definition flowState (f : Flow) : StreamingExecutor * Run :=
  match f with
  | Next self r => (self, r)
  | Return self r => (self, r)
  | Throw self r _ => (self, r)
  end.

(** What the background task makes of the way its loop ended. *)
Definition outcomeOfFlow (C : Collaborators) (f : Flow)
  : StreamingExecutor * Run :=
  match f with
  | Return self r => finally self r
  | Throw self r e => finallyRejected self r e
  | Next self r =>
      match flush C self r with
      | (self, r, None) => finally self r
      | (self, r, Some e) => finallyRejected self r e
      end
  end.

(** The pieces of one step of the scanner: the code unit is buffered; a
    newline is counted; the buffer is emptied for the next statement. *)
Definition buffered (u : Z) (r : Run) : Run :=
  set_buffer (buffer r ++ [u]) r.

Definition countLine (u : Z) (r : Run) : Run :=
  if bool_decide (u = 10) then
    let r := set_lineNumber (lineNumber r + 1) r in
    if bool_decide (trim (buffer r) = [])
    then set_statementStartLine (lineNumber r) r
    else r
  else r.

Definition nextStatement (r : Run) : Run :=
  set_statementStartLine (lineNumber r) (set_buffer [] r).

(** What one code unit does to the run: nothing but buffering and line
    counting (a semicolon does nothing more when the text it ends is
    incomplete); or one event for the statement it completes, after which
    the task goes on with an empty buffer or returns; or the statement's
    pipeline throws, and nothing is recorded. *)
Inductive CharStep (C : Collaborators) (u : Z) (self : StreamingExecutor)
  (r : Run) : Flow -> Prop :=
| StepQuiet :
    (u = 59 ->
     parseStatement (createSourceFile C) (trim (buffer r ++ [u])) (jsx self)
     = Incomplete) ->
    CharStep C u self r (Next self (countLine u (buffered u r)))
| StepEmit sourceFile self' ev :
    u = 59 ->
    parseStatement (createSourceFile C) (trim (buffer r ++ [u])) (jsx self)
    = Complete sourceFile ->
    statementEvent C self (trim (buffer r ++ [u])) sourceFile
                   (statementStartLine r) = (self', Returned ev) ->
    (error ev = None \/ continueOnError self = true) ->
    CharStep C u self r
             (Next self' (nextStatement (emit ev (buffered u r))))
| StepHalt sourceFile self' ev :
    u = 59 ->
    parseStatement (createSourceFile C) (trim (buffer r ++ [u])) (jsx self)
    = Complete sourceFile ->
    statementEvent C self (trim (buffer r ++ [u])) sourceFile
                   (statementStartLine r) = (self', Returned ev) ->
    is_Some (error ev) -> continueOnError self = false ->
    CharStep C u self r (Return self' (emit ev (buffered u r)))
| StepThrow sourceFile self' e :
    u = 59 ->
    parseStatement (createSourceFile C) (trim (buffer r ++ [u])) (jsx self)
    = Complete sourceFile ->
    statementEvent C self (trim (buffer r ++ [u])) sourceFile
                   (statementStartLine r) = (self', Thrown e) ->
    CharStep C u self r (Throw self' (buffered u r) e).

(** The accumulators of a run agree with its events: the generator has
    not returned, nothing is queued after [done], the aggregate log is the
    events' logs in order, and the governing error is the first error of
    the events. *)
Definition Consistent (r : Run) : Prop :=
  generatorDone r = false
  /\ Forall (fun q => q <> QDone) (eventQueue r)
  /\ allLogs r = concat (logs <$> eventsOf r)
  /\ finalError r = head (errorsOf (eventsOf r)).

(** What holds of the task from its start to its [finally] block: the
    executor has the settings it started with and its running flag is
    raised, the accumulators agree with the events, the result is not
    resolved, the task's promise is not rejected, and every event carries its
    own error. *)
Definition Working (C : Collaborators) (self0 : StreamingExecutor)
  (s : StreamingExecutor) (r : Run) : Prop :=
  sameSettings self0 s
  /\ _running s = true
  /\ Consistent r
  /\ resultPromise r = None
  /\ rejected r = None
  /\ Forall (OwnError C self0) (eventsOf r).

(** What holds of the task while it scans, after it consumed the text
    [consumed]: an error has been recorded only if the run continues on
    errors, and the text consumed is the statements of the events, in
    order, with white space around them, followed by the buffer. *)
Definition ScanInv (C : Collaborators) (self0 : StreamingExecutor)
  (consumed : jsstring) (s : StreamingExecutor) (r : Run) : Prop :=
  Working C self0 s r
  /\ (continueOnError self0 = true \/ finalError r = None)
  /\ exists text,
       Woven (statement <$> eventsOf r) text
       /\ consumed = text ++ buffer r.

(** What holds of the task when it returns from its loop: the run stops
    on errors, the last event, and no other, carries an error, and the
    buffer still holds the statement of that event, which is complete. *)
Definition HaltInv (C : Collaborators) (self0 : StreamingExecutor)
  (s : StreamingExecutor) (r : Run) : Prop :=
  Working C self0 s r
  /\ continueOnError self0 = false
  /\ (exists init last_,
         eventsOf r = init ++ [last_]
         /\ errorsOf init = [] /\ is_Some (error last_))
  /\ exists sourceFile,
       parseStatement (createSourceFile C) (trim (buffer r)) (jsx s)
       = Complete sourceFile.

(** What holds of the task when an exception leaves its loop: what holds
    while it scans, with a buffer that holds a complete statement (the one
    whose pipeline threw), of which there is no event. *)
Definition ThrowInv (C : Collaborators) (self0 : StreamingExecutor)
  (consumed : jsstring) (s : StreamingExecutor) (r : Run) : Prop :=
  ScanInv C self0 consumed s r
  /\ exists sourceFile,
       parseStatement (createSourceFile C) (trim (buffer r)) (jsx s)
       = Complete sourceFile.

(** What holds of the task when it has left its loop other than by
    falling out of it. *)
Definition ExitInv (C : Collaborators) (self0 : StreamingExecutor)
  (consumed : jsstring) (f : Flow) : Prop :=
  match f with
  | Next _ _ => False
  | Return s r => HaltInv C self0 s r
  | Throw s r _ => ThrowInv C self0 consumed s r
  end.

(** What holds of the task after the flush of a scan that went through
    the whole source, when the flush did not throw. *)
Definition EndInv (C : Collaborators) (self0 : StreamingExecutor)
  (source : jsstring) (s : StreamingExecutor) (r : Run) : Prop :=
  Working C self0 s r
  /\ (continueOnError self0 = false ->
      exists init tail,
        eventsOf r = init ++ tail
        /\ errorsOf init = [] /\ (length tail <= 1)%nat)
  /\ InSourceOrder (statement <$> eventsOf r) source.

(** What the [catch] block of [executeStatement] receives, if the
    statement fails. *)
Definition failureOf (C : Collaborators) (c : Completion) : option JsValue :=
  match c with
  | Threw e => Some e
  | Raced race =>
      match withTimeout race with
      | inr e => Some e
      | inl _ => None
      end
  end.

(** The test of the [catch] block for a timeout. *)
Definition looksLikeTimeout (e : JsValue) : bool :=
  instanceofError e
  && strictEqualsString (getProp e (js "message")) (js "Execution timeout").

(** The script [executeStatement] runs for a lowered statement. *)
Definition scriptOf (C : Collaborators) (self : StreamingExecutor)
  (transpiled : jsstring) (bindings : Bindings) : ScriptRun :=
  runScript C (wrap transpiled (allNames bindings))
            (setContextConsole createConsoleForBuffer (_context self))
            (_pending self) (exec_timeout self).

(** Waiting for the stream changes nothing in the sandbox: after a wait,
    the context and the callbacks that executed statements left pending,
    with the times until they are due, are what they were before (as when
    no statement leaves a callback pending). *)
Definition Quiescent (C : Collaborators) : Prop :=
  forall ms ctx pending_, elapse C ms ctx pending_ = (ctx, pending_).



(** The executor after the waits of a stream alone. *)
Definition awaitAll (C : Collaborators) (stream : list Arrival)
  (self : StreamingExecutor) : StreamingExecutor :=
  fold_left (fun s arrival => await C arrival s) stream self.

(** [Unfinished C jsx b]: no semicolon of the text [b] completes a
    statement: the text up to each of its semicolons is judged
    incomplete. *)
Definition Unfinished (C : Collaborators) (jsx_ : bool) (b : jsstring)
  : Prop :=
  forall before after_,
    b = before ++ 59 :: after_ ->
    parseStatement (createSourceFile C) (trim (before ++ [59])) jsx_
    = Incomplete.

(** [Segmented C jsx stmts text]: [text] is cut into the statements
    [stmts] at its semicolons, each statement ending at the first semicolon
    at which the text since the previous statement is judged complete; a
    statement is that text, trimmed. *)
Inductive Segmented (C : Collaborators) (jsx_ : bool)
  : list jsstring -> jsstring -> Prop :=
| SegmentedNil : Segmented C jsx_ [] []
| SegmentedSnoc stmts text before sourceFile :
    Segmented C jsx_ stmts text ->
    Unfinished C jsx_ before ->
    parseStatement (createSourceFile C) (trim (before ++ [59])) jsx_
    = Complete sourceFile ->
    Segmented C jsx_ (stmts ++ [trim (before ++ [59])])
              (text ++ before ++ [59]).

(** The statements of a whole source: those its semicolons complete, and
    the text left after the last of them if it is not blank. *)
Definition StatementsOf (C : Collaborators) (jsx_ : bool)
  (stmts : list jsstring) (source : jsstring) : Prop :=
  exists cut text tail,
    source = text ++ tail
    /\ Segmented C jsx_ cut text
    /\ Unfinished C jsx_ tail
    /\ stmts = cut ++ (if nonEmpty (trim tail) then [trim tail] else []).

(** ** Sample collaborators

    A small analyzer, lowerer and sandbox on which the definitions can be
    evaluated. *)

Module Sample.

Fixpoint startsWith (prefix_ text : jsstring) : bool :=
  match prefix_, text with
  | [], _ => true
  | p :: ps, t :: ts => bool_decide (p = t) && startsWith ps ts
  | _ :: _, [] => false
  end.

Fixpoint includes (needle text : jsstring) : bool :=
  startsWith needle text
  || match text with
     | [] => false
     | _ :: rest => includes needle rest
     end.

Fixpoint countUnit (u : Z) (text : jsstring) : nat :=
  match text with
  | [] => 0%nat
  | v :: rest => ((if bool_decide (u = v) then 1 else 0) + countUnit u rest)%nat
  end.

Definition isLetter (u : Z) : bool :=
  bool_decide (97 <= u) && bool_decide (u <= 122).

Fixpoint takeLetters (text : jsstring) : jsstring :=
  match text with
  | [] => []
  | u :: rest => if isLetter u then u :: takeLetters rest else []
  end.

(** Complete when the text ends with a semicolon outside a
    double-quoted string; after [var] every letter is a declared name,
    and [function f] declares [f]. *)
Fixpoint declared (text : jsstring) : list BindingName :=
  match text with
  | [] => []
  | u :: rest =>
      if isLetter u then Identifier [u] :: declared rest else declared rest
  end.

Definition sampleCreateSourceFile (text : jsstring) (jsx_ : bool)
  : SourceFile :=
  {| statements :=
       if startsWith (js "var ") text
       then [VariableStatement (declared (drop 4 text))]
       else if startsWith (js "function ") text
       then [FunctionDeclaration (Some (takeLetters (drop 9 text)))]
       else [OtherStatement];
     parseDiagnostics :=
       if Nat.even (countUnit 34 text)
          && bool_decide (last text = Some 59)
       then []
       else [js "unterminated"] |}.

(** Lowering is the identity, and fails on a decorator sign. *)
Definition sampleTransformSync (options : TranspilerOptions)
  (source : jsstring) (l : Loader) : jsstring + JsValue :=
  if includes [64] source
  then inr (VError Host (js "Error") (js "Unexpected @"))
  else inl source.

(** A value that has no primitive conversion: an object whose [toString]
    is not callable; and the error the host throws when asked to convert
    it. *)
Definition unprintable : JsValue := VObject [(js "toString", VNull)].

Definition conversionError : JsValue :=
  VError Host (js "TypeError") (js "No default value").

(** Time in the sandbox: a statement that calls [sleep] outlasts the
    timer, one that calls [pause] takes 50 ms, any other statement takes no
    time.  A pending callback runs when it is due; all it does is write its
    handle, as a line, to the console that is installed at that time. *)
Definition duration (wrapped : jsstring) (ms : Z) : Z :=
  if includes (js "sleep") wrapped then ms
  else if includes (js "pause") wrapped then 50
  else 0.

Definition dueWithin (ms : Z) (pending_ : list PendingCallback)
  : list PendingCallback :=
  filter (fun cb => dueIn cb <= ms) pending_.

Definition stillPending (ms : Z) (pending_ : list PendingCallback)
  : list PendingCallback :=
  (fun cb => {| dueIn := dueIn cb - ms; handle := handle cb |})
    <$> filter (fun cb => ms < dueIn cb) pending_.

(** The sandbox: [throw] rejects with an error of the sandbox's realm, or
    with the unprintable object; [hostFail()] and [hostEmpty()] call
    functions of the context that throw host errors; [sleep] outlasts the
    timer; [log] writes a line; [later()] calls a function of the context
    that registers a callback due in 10 ms, which writes a line to the
    console the context has when it runs; a wrapped declaration resolves
    with a record of [x] and [y]. *)
Definition sampleRunScript (wrapped : jsstring)
  (ctx : gmap jsstring JsValue) (pending_ : list PendingCallback) (ms : Z)
  : ScriptRun :=
  {| contextAfter := ctx;
     pendingAfter :=
       stillPending (duration wrapped ms) pending_
       ++ (if includes (js "later()") wrapped
           then [{| dueIn := 10; handle := js "late" |}] else []);
     written :=
       (if includes (js "log") wrapped then [js "1" ++ [10]] else [])
       ++ ((fun cb => handle cb ++ [10])
             <$> dueWithin (duration wrapped ms) pending_);
     completion :=
       if includes (js "syntax!") wrapped
       then Threw (VError Vm (js "SyntaxError") (js "Unexpected token"))
       else if includes (js "toString: null") wrapped
       then Raced (Rejects unprintable)
       else if includes (js "throw") wrapped
       then Raced (Rejects (VError Vm (js "Error") (js "e")))
       else if includes (js "hostFail()") wrapped
       then Raced (Rejects (VError Host (js "Error")
                                   (js "Execution timeout")))
       else if includes (js "hostEmpty()") wrapped
       then Raced (Rejects (VError Host (js "Error") []))
       else if includes (js "sleep") wrapped
       then Raced TimerFires
       else if includes (js "return {") wrapped
       then Raced (Resolves (VObject [(js "x", VNumber 1);
                                      (js "y", VNumber 2)]))
       else Raced (Resolves VUndefined) |}.

(** While the task waits, the callbacks that become due run; what they
    write is lost. *)
Definition sampleElapse (ms : Z) (ctx : gmap jsstring JsValue)
  (pending_ : list PendingCallback)
  : gmap jsstring JsValue * list PendingCallback :=
  (ctx, stillPending ms pending_).

(** [String(value)] on the values of the samples: an error prints as
    [Error.prototype.toString] does, and the unprintable object makes the
    conversion throw. *)
Definition sampleString (v : JsValue) : Outcome jsstring :=
  match v with
  | VUndefined => Returned (js "undefined")
  | VNull => Returned (js "null")
  | VBoolean b => Returned (if b then js "true" else js "false")
  | VString s => Returned s
  | VError _ name_ message_ =>
      Returned (if nonEmpty name_ then
                  if nonEmpty message_ then name_ ++ js ": " ++ message_
                  else name_
                else message_)
  | VObject props =>
      match lookupProp (js "toString") props with
      | VNull => Thrown conversionError
      | _ => Returned (js "[object Object]")
      end
  | _ => Returned (js "[object Object]")
  end.

(** Property reads on the values of the samples. *)
Definition samplePropertyRead (v : JsValue) (key : jsstring) : JsValue :=
  match v with
  | VString s =>
      if bool_decide (key = js "length") then VNumber (Z.of_nat (length s))
      else VUndefined
  | _ => getProp v key
  end.

Definition collaborators : Collaborators :=
  {| createSourceFile := sampleCreateSourceFile;
     transformSync := sampleTransformSync;
     runScript := sampleRunScript;
     elapse := sampleElapse;
     String_ := sampleString;
     propertyRead := samplePropertyRead |}.


(** A stream whose chunks arrive at once, with a consumer that reads
    nothing before the run is over. *)
Definition promptly (chunks : list jsstring) : list Arrival :=
  (fun c => {| waited := 0; pulled := 0; chunk := c |}) <$> chunks.

(** A stream whose chunks arrive every [ms] milliseconds, with a consumer
    that calls [next()] twice between two chunks. *)
Definition every (ms : Z) (chunks : list jsstring) : list Arrival :=
  (fun c => {| waited := ms; pulled := 2; chunk := c |}) <$> chunks.

Definition options (coe : bool) : StreamingExecutorOptions :=
  {| opt_context :=
       Some {[ js "hostFail" := VFunction (js "hostFail");
               js "hostEmpty" := VFunction (js "hostEmpty");
               js "log" := VFunction (js "log");
               js "later" := VFunction (js "later");
               js "pause" := VFunction (js "pause");
               js "sleep" := VFunction (js "sleep") ]};
     opt_timeout := Some 100;
     opt_jsx := None;
     opt_continueOnError := Some coe |}.

(** Options whose context replaces two built-in globals. *)
Definition overriding : StreamingExecutorOptions :=
  {| opt_context :=
       Some {[ js "console" := VString (js "mine");
               js "setTimeout" := VNumber 7 ]};
     opt_timeout := None;
     opt_jsx := Some (JsxFlag true);
     opt_continueOnError := None |}.

(** The events a consumer reads from a whole run, and the result. *)
Definition eventsOfRun (coe : bool) (stream : list Arrival)
  : list ExecutionEvent :=
  eventsOf (runToEnd collaborators stream
                     (constructor (Some (options coe)))).1.2.

Definition resultOfRun (coe : bool) (stream : list Arrival)
  : option ExecutionResult :=
  resultPromise (runToEnd collaborators stream
                          (constructor (Some (options coe)))).1.2.

(** A summary of an event: statement, line, logs, error type and
    message. *)
Definition summary (ev : ExecutionEvent)
  : jsstring * Z * jsstring * option (ExecutionErrorType * jsstring) :=
  (statement ev, ev_line ev, logs ev,
   (fun e => (type e, message e)) <$> error ev).

End Sample.

(** ** Further properties, as predicates *)

(** The number of newline code units of a text. *)
Fixpoint countNewlines (s : jsstring) : Z :=
  match s with
  | [] => 0
  | u :: rest => (if bool_decide (u = 10) then 1 else 0) + countNewlines rest
  end.

(** The number of semicolons of a text. *)
Fixpoint countSemicolons (s : jsstring) : nat :=
  match s with
  | [] => 0%nat
  | u :: rest =>
      ((if bool_decide (u = 59%Z) then 1 else 0) + countSemicolons rest)%nat
  end.

(** The white space a text begins with. *)
Fixpoint leadingBlank (s : jsstring) : jsstring :=
  match s with
  | [] => []
  | u :: rest => if isWhiteSpace u then u :: leadingBlank rest else []
  end.

(** [Located items text]: [text] is the statements of [items], in order,
    with white space around them; each statement begins with a code unit
    that is not white space, and the line that goes with it is one more than
    the number of newlines of the text before that code unit. *)
Inductive Located : list (jsstring * Z) -> jsstring -> Prop :=
| LocatedNil : Located [] []
| LocatedSnoc items text l s r :
    Located items text -> blank l -> blank r ->
    s <> [] -> trimStart s = s ->
    Located (items ++ [(s, 1 + countNewlines (text ++ l))])
            (text ++ l ++ s ++ r).

(** The statement and the line of each event. *)
Definition located (events : list ExecutionEvent) : list (jsstring * Z) :=
  (fun ev => (statement ev, ev_line ev)) <$> events.

(** The line counters of the task after it consumed [consumed]: the
    current line is one more than the newlines consumed, and the start line
    is that of the first code unit of the buffer that is not white space
    (the current line, while the buffer is blank). *)
Definition LineInv (consumed : jsstring) (r : Run) : Prop :=
  exists text,
    consumed = text ++ buffer r
    /\ lineNumber r = 1 + countNewlines consumed
    /\ statementStartLine r
       = 1 + countNewlines (text ++ leadingBlank (buffer r))
    /\ Located (located (eventsOf r)) text.

(** The statements cut so far, after the task consumed [consumed]: the
    text before the buffer is cut into the statements of the events, and no
    semicolon of the buffer completes a statement. *)
Definition CutInv (C : Collaborators) (jsx_ : bool) (consumed : jsstring)
  (r : Run) : Prop :=
  exists text,
    consumed = text ++ buffer r
    /\ Segmented C jsx_ (statement <$> eventsOf r) text
    /\ Unfinished C jsx_ (buffer r).

(** The statements of a source, computed: the source is read from left
    to right, and a statement ends at each semicolon at which the text since
    the previous statement is judged complete.  [segments] gives the
    statements that end at a semicolon, and the text left after the last of
    them. *)
Fixpoint segments (C : Collaborators) (jsx_ : bool) (text : jsstring)
  (pending_ : jsstring) : list jsstring * jsstring :=
  match text with
  | [] => ([], pending_)
  | u :: rest =>
      if bool_decide (u = 59) then
        match parseStatement (createSourceFile C) (trim (pending_ ++ [u]))
                             jsx_ with
        | Complete _ =>
            (trim (pending_ ++ [u]) :: (segments C jsx_ rest []).1,
             (segments C jsx_ rest []).2)
        | Incomplete => segments C jsx_ rest (pending_ ++ [u])
        end
      else segments C jsx_ rest (pending_ ++ [u])
  end.

Definition statementsOf (C : Collaborators) (jsx_ : bool)
  (source : jsstring) : list jsstring :=
  let cut := segments C jsx_ source [] in
  cut.1 ++ (if nonEmpty (trim cut.2) then [trim cut.2] else []).

(** * Proofs *)

(** ** Strings *)

Section StringFacts.

Lemma blank_Forall (s : jsstring) :
  blank s <-> Forall (fun u => isWhiteSpace u = true) s.
Proof.
  unfold blank. induction s as [|u s IH]; cbn [forallb].
  - split; [constructor | reflexivity].
  - rewrite andb_true_iff, IH. split.
    + intros [Hu Hs]. constructor; assumption.
    + intros H. inversion H; subst. split; assumption.
Qed.

Lemma blank_nil : blank [].
Proof. reflexivity. Qed.

Lemma blank_app (a b : jsstring) : blank a -> blank b -> blank (a ++ b).
Proof. rewrite !blank_Forall. apply Forall_app_2. Qed.

Lemma blank_reverse (a : jsstring) : blank a -> blank (reverse a).
Proof. rewrite !blank_Forall. apply Forall_reverse. Qed.

Lemma trimStart_decompose (s : jsstring) :
  exists l, blank l /\ s = l ++ trimStart s.
Proof.
  induction s as [|u s [l [Hl Hs]]]; cbn [trimStart].
  - exists []. split; [apply blank_nil | reflexivity].
  - destruct (isWhiteSpace u) eqn:Hu.
    + exists (u :: l). split.
      * unfold blank in *. cbn [forallb]. rewrite Hu, Hl. reflexivity.
      * cbn [app]. congruence.
    + exists []. split; [apply blank_nil | reflexivity].
Qed.

Lemma trimEnd_decompose (s : jsstring) :
  exists r, blank r /\ s = trimEnd s ++ r.
Proof.
  destruct (trimStart_decompose (reverse s)) as [l [Hl Hs]].
  exists (reverse l). split; [apply blank_reverse; exact Hl |].
  unfold trimEnd. rewrite <- reverse_app, <- Hs, reverse_involutive.
  reflexivity.
Qed.

Lemma trim_decompose (s : jsstring) :
  exists l r, blank l /\ blank r /\ s = l ++ trim s ++ r.
Proof.
  destruct (trimStart_decompose s) as [l [Hl Hs]].
  destruct (trimEnd_decompose (trimStart s)) as [r [Hr Ht]].
  exists l, r. repeat split; try assumption.
  unfold trim. rewrite <- Ht. exact Hs.
Qed.

Lemma trim_nil_blank (s : jsstring) : trim s = [] -> blank s.
Proof.
  intros H. destruct (trim_decompose s) as [l [r [Hl [Hr Hs]]]].
  rewrite H in Hs. rewrite Hs. apply blank_app; assumption.
Qed.

Lemma nonEmpty_false (s : jsstring) : nonEmpty s = false -> s = [].
Proof. destruct s; [reflexivity | discriminate]. Qed.

Lemma codePoints_cons2 (u v : Z) (t : jsstring) :
  codePoints (u :: v :: t)
  = if isHighSurrogate u && isLowSurrogate v
    then [u; v] :: codePoints t
    else [u] :: codePoints (v :: t).
Proof. reflexivity. Qed.

Lemma concat_codePoints (s : jsstring) : concat (codePoints s) = s.
Proof.
  assert (H : forall n (t : jsstring),
             (length t <= n)%nat -> concat (codePoints t) = t).
  { induction n as [|n IH]; intros t Hlen.
    - destruct t; [reflexivity | simpl in Hlen; lia].
    - destruct t as [|u [|v t]]; [reflexivity | reflexivity |].
      simpl in Hlen. rewrite codePoints_cons2.
      destruct (isHighSurrogate u && isLowSurrogate v).
      + cbn [concat app]. rewrite IH by lia. reflexivity.
      + cbn [concat app]. f_equal. apply IH. simpl. lia. }
  apply (H (length s)). lia.
Qed.

End StringFacts.

(** ** More on strings *)

Section MoreStringFacts.

Lemma blank_cons (u : Z) (s : jsstring) :
  blank (u :: s) <-> isWhiteSpace u = true /\ blank s.
Proof. unfold blank. cbn [forallb]. apply andb_true_iff. Qed.

Lemma blank_app_inv (a b : jsstring) : blank (a ++ b) -> blank a /\ blank b.
Proof. rewrite !blank_Forall. apply Forall_app. Qed.

Lemma trimStart_blank (s : jsstring) : blank s -> trimStart s = [].
Proof.
  induction s as [|u s IH]; [reflexivity |].
  intros [Hu Hs]%blank_cons. cbn [trimStart]. rewrite Hu. apply IH, Hs.
Qed.

Lemma blank_trim_nil (s : jsstring) : blank s -> trim s = [].
Proof. intros H. unfold trim. rewrite trimStart_blank by exact H. reflexivity. Qed.

Lemma leadingBlank_blank (s : jsstring) : blank (leadingBlank s).
Proof.
  induction s as [|u s IH]; [reflexivity |]. cbn [leadingBlank].
  destruct (isWhiteSpace u) eqn:Hu; [| reflexivity].
  apply blank_cons. split; assumption.
Qed.

Lemma leadingBlank_trimStart (s : jsstring) :
  s = leadingBlank s ++ trimStart s.
Proof.
  induction s as [|u s IH]; [reflexivity |].
  cbn [leadingBlank trimStart]. destruct (isWhiteSpace u); [| reflexivity].
  cbn [app]. f_equal. exact IH.
Qed.

Lemma leadingBlank_of_blank (s : jsstring) : blank s -> leadingBlank s = s.
Proof.
  induction s as [|u s IH]; [reflexivity |].
  intros [Hu Hs]%blank_cons. cbn [leadingBlank]. rewrite Hu, IH by exact Hs.
  reflexivity.
Qed.

(** What is appended after a code unit that is not white space does not
    change the leading white space. *)
Lemma leadingBlank_app (b x : jsstring) :
  leadingBlank (b ++ x)
  = if bool_decide (trimStart b = []) then b ++ leadingBlank x
    else leadingBlank b.
Proof.
  induction b as [|u b IH]; [reflexivity |].
  cbn [app leadingBlank trimStart]. destruct (isWhiteSpace u).
  - rewrite IH. destruct (bool_decide (trimStart b = [])); reflexivity.
  - reflexivity.
Qed.

Lemma trimStart_nil_blank (s : jsstring) : trimStart s = [] -> blank s.
Proof.
  intros H. rewrite (leadingBlank_trimStart s), H, app_nil_r.
  apply leadingBlank_blank.
Qed.

Lemma trimStart_length (s : jsstring) :
  (length (trimStart s) <= length s)%nat.
Proof.
  induction s as [|u s IH]; [reflexivity |]. cbn [trimStart].
  destruct (isWhiteSpace u); simpl; lia.
Qed.

(** A text is its own [trimStart] exactly when it does not begin with
    white space. *)
Lemma trimStart_fixed (u : Z) (s : jsstring) :
  trimStart (u :: s) = u :: s <-> isWhiteSpace u = false.
Proof.
  cbn [trimStart]. destruct (isWhiteSpace u); split; try reflexivity;
    try discriminate.
  intros H. pose proof (trimStart_length s) as Hlen. rewrite H in Hlen.
  simpl in Hlen. lia.
Qed.

Lemma trimStart_idempotent (s : jsstring) :
  trimStart (trimStart s) = trimStart s.
Proof.
  induction s as [|u s IH]; [reflexivity |]. cbn [trimStart].
  destruct (isWhiteSpace u) eqn:Hu; [exact IH |].
  apply trimStart_fixed, Hu.
Qed.

Lemma trimStart_prefix (p r : jsstring) :
  trimStart (p ++ r) = p ++ r -> trimStart p = p.
Proof.
  destruct p as [|u p]; [reflexivity |]. cbn [app].
  rewrite !trimStart_fixed. auto.
Qed.

(** The trimmed text does not begin with white space. *)
Lemma trimStart_trim (s : jsstring) : trimStart (trim s) = trim s.
Proof.
  unfold trim. destruct (trimEnd_decompose (trimStart s)) as (r & _ & Hdec).
  apply (trimStart_prefix _ r). rewrite <- Hdec. apply trimStart_idempotent.
Qed.

(** A text is its leading white space, its trimmed text and trailing
    white space. *)
Lemma trim_decompose_leading (s : jsstring) :
  exists r, blank r /\ s = leadingBlank s ++ trim s ++ r.
Proof.
  destruct (trimEnd_decompose (trimStart s)) as (r & Hr & Hdec).
  exists r. split; [exact Hr |]. unfold trim. rewrite <- Hdec.
  apply leadingBlank_trimStart.
Qed.

Lemma countNewlines_app (a b : jsstring) :
  countNewlines (a ++ b) = countNewlines a + countNewlines b.
Proof.
  induction a as [|u a IH]; [reflexivity |]. cbn [app countNewlines].
  rewrite IH. lia.
Qed.

Lemma countNewlines_nonneg (s : jsstring) : 0 <= countNewlines s.
Proof.
  induction s as [|u s IH]; [reflexivity |]. cbn [countNewlines].
  destruct (bool_decide (u = 10)); lia.
Qed.

Lemma countSemicolons_app (a b : jsstring) :
  countSemicolons (a ++ b) = (countSemicolons a + countSemicolons b)%nat.
Proof.
  induction a as [|u a IH]; [reflexivity |]. cbn [app countSemicolons].
  rewrite IH. lia.
Qed.

Lemma semicolon_not_blank : isWhiteSpace 59 = false.
Proof. reflexivity. Qed.

End MoreStringFacts.

Section SemicolonFacts.

(** A text that ends with a semicolon has a trimmed text that is not
    empty: the test [if (trimmed)] holds at every semicolon. *)
Lemma trim_semicolon_nonEmpty (b : jsstring) :
  nonEmpty (trim (b ++ [59])) = true.
Proof.
  destruct (trim (b ++ [59])) eqn:Htrim; [| reflexivity].
  apply trim_nil_blank, blank_app_inv in Htrim as [_ H]. discriminate.
Qed.

Lemma trimEnd_idempotent (s : jsstring) : trimEnd (trimEnd s) = trimEnd s.
Proof.
  unfold trimEnd. rewrite reverse_involutive, trimStart_idempotent.
  reflexivity.
Qed.

Lemma trim_idempotent (s : jsstring) : trim (trim s) = trim s.
Proof.
  unfold trim at 1. rewrite trimStart_trim. unfold trim.
  apply trimEnd_idempotent.
Qed.

End SemicolonFacts.

(** ** Binding extraction *)

Section BindingFacts.

(** Induction over patterns, with the hypothesis available for every
    element of a nested pattern. *)
Lemma BindingName_nested_ind (P : BindingName -> Prop) :
  (forall text, P (Identifier text)) ->
  (forall elements, Forall P elements ->
                    P (ObjectBindingPattern elements)) ->
  (forall elements,
      Forall (fun el => match el with Some n => P n | None => True end)
             elements ->
      P (ArrayBindingPattern elements)) ->
  forall node, P node.
Proof.
  intros Hid Hobj Harr.
  fix IH 1. intros [text | elements | elements].
  - apply Hid.
  - apply Hobj. induction elements as [|el els IHels]; constructor.
    + apply IH.
    + exact IHels.
  - apply Harr. induction elements as [|el els IHels]; constructor.
    + destruct el as [n|]; [apply IH | exact I].
    + exact IHels.
Qed.

Lemma extractFromBindingName_binds (node : BindingName) (x : jsstring) :
  In x (extractFromBindingName node) <-> BindsName node x.
Proof.
  revert x. induction node as [text | elements IH | elements IH]
    using BindingName_nested_ind; intros x; simpl.
  - split.
    + intros [<- | []]. constructor.
    + intros H. inversion H; subst. left; reflexivity.
  - rewrite in_flat_map. rewrite Forall_forall in IH. split.
    + intros [el [Hel Hx]]. apply BindsObjectElement with el; [exact Hel |].
      apply IH; [apply list_elem_of_In; exact Hel | exact Hx].
    + intros H. inversion H; subst. exists el. split; [assumption |].
      apply IH; [apply list_elem_of_In; assumption | assumption].
  - rewrite in_flat_map. rewrite Forall_forall in IH. split.
    + intros [[el|] [Hel Hx]]; [| destruct Hx].
      apply BindsArrayElement with el; [exact Hel |].
      apply (IH (Some el)); [apply list_elem_of_In; exact Hel | exact Hx].
    + intros H. inversion H; subst. exists (Some el). split; [assumption |].
      apply (IH (Some el)); [apply list_elem_of_In; assumption | assumption].
Qed.

(** The extracted names of a pattern are its bound names, read from left
    to right. *)
Lemma extractFromBindingName_bound (node : BindingName) :
  BoundNames node (extractFromBindingName node).
Proof.
  induction node as [text | elements IH | elements IH]
    using BindingName_nested_ind.
  - constructor.
  - induction IH as [|el els Hel _ IHels]; [constructor |].
    change (extractFromBindingName (ObjectBindingPattern (el :: els)))
      with (extractFromBindingName el
            ++ extractFromBindingName (ObjectBindingPattern els)).
    constructor; assumption.
  - induction IH as [|el els Hel _ IHels]; [constructor |].
    destruct el as [n|].
    + change (extractFromBindingName (ArrayBindingPattern (Some n :: els)))
        with (extractFromBindingName n
              ++ extractFromBindingName (ArrayBindingPattern els)).
      constructor; assumption.
    + change (extractFromBindingName (ArrayBindingPattern (None :: els)))
        with (extractFromBindingName (ArrayBindingPattern els)).
      constructor; assumption.
Qed.

(** A pattern has one list of bound names. *)
Lemma BoundNames_extracted (node : BindingName) (names : list jsstring) :
  BoundNames node names -> names = extractFromBindingName node.
Proof.
  induction 1 as [ text | | el els first others _ IH1 _ IH2 |
                 | els others _ IH | el els first others _ IH1 _ IH2 ];
    try reflexivity.
  - rewrite IH1, IH2. reflexivity.
  - exact IH.
  - rewrite IH1, IH2. reflexivity.
Qed.

Lemma BoundByAll_extracted (declarations : list BindingName)
  (names : list jsstring) :
  BoundByAll declarations names
  <-> names = flat_map extractFromBindingName declarations.
Proof.
  split.
  - induction 1 as [| d ds first others Hd _ IH]; [reflexivity |].
    rewrite (BoundNames_extracted _ _ Hd), IH. reflexivity.
  - intros ->. induction declarations as [|d ds IH]; [constructor |].
    cbn [flat_map]. constructor; [apply extractFromBindingName_bound | exact IH].
Qed.

Lemma fold_declarations (declarations : list BindingName)
  (vars : list jsstring) :
  fold_left (fun vars decl => vars ++ extractFromBindingName decl)
            declarations vars
  = vars ++ flat_map extractFromBindingName declarations.
Proof.
  revert vars. induction declarations as [|d ds IH]; intros vars; simpl.
  - rewrite app_nil_r. reflexivity.
  - rewrite IH, <- app_assoc. reflexivity.
Qed.

Lemma fold_extractStatement (stmts : list Statement) (acc : Bindings) :
  fold_left extractStatement stmts acc
  = {| variables := variables acc ++ flat_map declaredVariables stmts;
       functions := functions acc ++ flat_map declaredFunctions stmts;
       classes := classes acc ++ flat_map declaredClasses stmts |}.
Proof.
  revert acc. induction stmts as [|st stmts IH]; intros acc; simpl.
  - rewrite !app_nil_r. destruct acc; reflexivity.
  - rewrite IH. destruct st as [ds | [name|] | [name|] |]; simpl;
      rewrite ?fold_declarations, ?app_nil_r, <- ?app_assoc; reflexivity.
Qed.

Lemma extractBindingsFromAST_flat (sf : SourceFile) :
  extractBindingsFromAST sf
  = {| variables := flat_map declaredVariables (statements sf);
       functions := flat_map declaredFunctions (statements sf);
       classes := flat_map declaredClasses (statements sf) |}.
Proof. unfold extractBindingsFromAST. apply fold_extractStatement. Qed.

(** The lists of a sequence of statements are determined by it. *)
Lemma Declared_flat (stmts : list Statement) (b : Bindings) :
  Declared stmts b ->
  b = {| variables := flat_map declaredVariables stmts;
         functions := flat_map declaredFunctions stmts;
         classes := flat_map declaredClasses stmts |}.
Proof.
  induction 1 as [ | ds names rest b Hds _ IH | name rest b _ IH
                 | name rest b _ IH | st rest b Hst _ IH ].
  - reflexivity.
  - apply BoundByAll_extracted in Hds. subst names. rewrite IH at 1 2 3.
    reflexivity.
  - rewrite IH at 1 2 3. reflexivity.
  - rewrite IH at 1 2 3. reflexivity.
  - destruct Hst as [-> | [-> | ->]]; rewrite IH at 1; reflexivity.
Qed.

Lemma flat_Declared (stmts : list Statement) :
  Declared stmts
           {| variables := flat_map declaredVariables stmts;
              functions := flat_map declaredFunctions stmts;
              classes := flat_map declaredClasses stmts |}.
Proof.
  induction stmts as [|st stmts IH]; [constructor |].
  destruct st as [ds | [name|] | [name|] |]; cbn [flat_map declaredVariables
    declaredFunctions declaredClasses app].
  - exact (DeclaredVariables ds _ stmts _
             (proj2 (BoundByAll_extracted ds _) eq_refl) IH).
  - exact (DeclaredFunction name stmts _ IH).
  - exact (DeclaredNothing _ stmts _ (or_introl eq_refl) IH).
  - exact (DeclaredClass name stmts _ IH).
  - exact (DeclaredNothing _ stmts _ (or_intror (or_introl eq_refl)) IH).
  - exact (DeclaredNothing _ stmts _ (or_intror (or_intror eq_refl)) IH).
Qed.

End BindingFacts.

(** C3, as the specification states it, fails: a [var] list that binds
    [x] twice (as [var x = 1, x = 2;] does) parses without diagnostics and
    yields the variables [x, x]; a function and a [var] of one name yield
    that name twice among the hoisted names. *)
Lemma C3_duplicate_names_extracted :
  let x := js "x" in
  let varList :=
    {| statements := [VariableStatement [Identifier x; Identifier x]];
       parseDiagnostics := [] |} in
  let pair :=
    {| statements := [FunctionDeclaration (Some x);
                      VariableStatement [Identifier x]];
       parseDiagnostics := [] |} in
  parseStatement (fun _ _ => varList) (js "var x = 1, x = 2;") false
  = Complete varList
  /\ variables (extractBindingsFromAST varList) = [x; x]
  /\ ~ NoDup (variables (extractBindingsFromAST varList))
  /\ ~ NoDup (allNames (extractBindingsFromAST pair)).
Proof.
  cbv zeta. repeat split.
  - intros H. apply NoDup_cons in H as [Hin _]. apply Hin. left.
  - intros H. apply NoDup_cons in H as [Hin _]. apply Hin. left.
Qed.

(** C3, amended: the three lists are exactly the names the statements
    declare at top level, in declaration order and with one entry for each
    binding occurrence.  [Declared] and [BoundNames] say which lists these
    are without reference to the extraction: the bound names of each
    declaration of each variable statement, read from left to right through
    nested patterns (omitted elements skipped); the name of each named
    function declaration; the name of each named class declaration.  The
    lists of the extraction are these lists, and there are no other lists
    with that property, so no name is dropped, added, moved or merged with
    an equal one.  In particular the names listed are the names bound, and
    the lists of a sequence of statements are those of its parts,
    appended. *)
Theorem C3_bindings_are_declared_names_in_order :
  (forall sf : SourceFile,
      Declared (statements sf) (extractBindingsFromAST sf))
  /\ (forall (stmts : list Statement) (b1 b2 : Bindings),
         Declared stmts b1 -> Declared stmts b2 -> b1 = b2)
  /\ (forall (node : BindingName) (names : list jsstring),
         BoundNames node names <-> extractFromBindingName node = names)
  /\ (forall (sf : SourceFile) (x : jsstring),
         (In x (variables (extractBindingsFromAST sf)) <->
          exists declarations decl,
            In (VariableStatement declarations) (statements sf)
            /\ In decl declarations /\ BindsName decl x)
         /\ (In x (functions (extractBindingsFromAST sf)) <->
             In (FunctionDeclaration (Some x)) (statements sf))
         /\ (In x (classes (extractBindingsFromAST sf)) <->
             In (ClassDeclaration (Some x)) (statements sf)))
  /\ (forall (first second : list Statement) (d : list jsstring),
         let whole := extractBindingsFromAST
                        {| statements := first ++ second;
                           parseDiagnostics := d |} in
         let b1 := extractBindingsFromAST
                     {| statements := first; parseDiagnostics := d |} in
         let b2 := extractBindingsFromAST
                     {| statements := second; parseDiagnostics := d |} in
         variables whole = variables b1 ++ variables b2
         /\ functions whole = functions b1 ++ functions b2
         /\ classes whole = classes b1 ++ classes b2).
Proof.
  split; [| split; [| split; [| split]]].
  - intros sf. rewrite extractBindingsFromAST_flat. apply flat_Declared.
  - intros stmts b1 b2 H1 H2.
    rewrite (Declared_flat _ _ H1), (Declared_flat _ _ H2). reflexivity.
  - intros node names. split.
    + intros H. symmetry. apply BoundNames_extracted, H.
    + intros <-. apply extractFromBindingName_bound.
  - intros sf x. rewrite extractBindingsFromAST_flat. simpl.
    rewrite !in_flat_map. repeat split.
    + intros [st [Hst Hx]]. destruct st as [ds | | |]; simpl in Hx;
        try contradiction.
      apply in_flat_map in Hx as [d [Hd Hx]].
      exists ds, d. repeat split; try assumption.
      apply extractFromBindingName_binds. exact Hx.
    + intros [ds [d [Hst [Hd Hx]]]]. exists (VariableStatement ds).
      split; [exact Hst |]. simpl. apply in_flat_map. exists d.
      split; [exact Hd |]. apply extractFromBindingName_binds. exact Hx.
    + intros [st [Hst Hx]]. destruct st as [ | [name|] | |]; simpl in Hx;
        try contradiction.
      destruct Hx as [<- | []]. exact Hst.
    + intros Hst. exists (FunctionDeclaration (Some x)).
      split; [exact Hst | left; reflexivity].
    + intros [st [Hst Hx]]. destruct st as [ | | [name|] |]; simpl in Hx;
        try contradiction.
      destruct Hx as [<- | []]. exact Hst.
    + intros Hst. exists (ClassDeclaration (Some x)).
      split; [exact Hst | left; reflexivity].
  - intros first second d. cbv zeta.
    rewrite !extractBindingsFromAST_flat. simpl.
    rewrite !flat_map_app. repeat split.
Qed.

(** ** The statement pipeline *)

Section PipelineFacts.

Variable C : Collaborators.


Lemma looksLikeTimeout_sentinel :
  looksLikeTimeout (newError (js "Execution timeout")) = true.
Proof. vm_compute. reflexivity. Qed.

Lemma looksLikeTimeout_host (name_ message_ : jsstring) :
  looksLikeTimeout (VError Host name_ message_)
  = bool_decide (message_ = js "Execution timeout").
Proof. reflexivity. Qed.

(** The [catch] block of [executeStatement], by the shape of what it
    caught. *)
Lemma catch_block (e : JsValue) (s : StreamingExecutor)
  (lg : jsstring) (ln : Z) :
  (if instanceofError e
      && strictEqualsString (getProp e (js "message"))
                            (js "Execution timeout")
   then (s, Returned (lg, Some {| type := timeout; thrown := e;
                                  message := js "Execution timeout";
                                  line := ln |}))
   else
     match formatErrorMessage C e with
     | Returned message_ =>
         (s, Returned (lg, Some {| type := runtime; thrown := e;
                                   message := message_; line := ln |}))
     | Thrown e' => (s, Thrown e')
     end)
  = (s,
     if looksLikeTimeout e
     then Returned (lg, Some {| type := timeout; thrown := e;
                                message := js "Execution timeout";
                                line := ln |})
     else
       match formatErrorMessage C e with
       | Returned message_ =>
           Returned (lg, Some {| type := runtime; thrown := e;
                                 message := message_; line := ln |})
       | Thrown e' => Thrown e'
       end).
Proof.
  fold (looksLikeTimeout e). destruct (looksLikeTimeout e); [reflexivity |].
  destruct (formatErrorMessage C e); reflexivity.
Qed.

(** [executeStatement], by the way the script ends. *)
Lemma executeStatement_cases (self : StreamingExecutor) (code : jsstring)
  (b : Bindings) (ln : Z) :
  let script := scriptOf C self code b in
  match failureOf C (completion script) with
  | None =>
      (executeStatement C self code b ln).2
      = Returned (concat (written script), None)
  | Some e =>
      (executeStatement C self code b ln).1
      = set_pending (pendingAfter script)
          (set_context (contextAfter script) self)
      /\ (executeStatement C self code b ln).2
         = if looksLikeTimeout e
           then Returned (concat (written script),
                          Some {| type := timeout; thrown := e;
                                  message := js "Execution timeout";
                                  line := ln |})
           else
             match formatErrorMessage C e with
             | Returned message_ =>
                 Returned (concat (written script),
                           Some {| type := runtime; thrown := e;
                                   message := message_; line := ln |})
             | Thrown e' => Thrown e'
             end
  end.
Proof.
  cbv zeta. unfold executeStatement, scriptOf, failureOf.
  cbn [_context _pending exec_timeout set_context set_pending].
  destruct (completion _) as [e | [v | e |]]; cbn [withTimeout];
    rewrite ?catch_block; cbn [fst snd];
    first [split; reflexivity | reflexivity].
Qed.

(** Every failure that [executeStatement] reports: the error holds the
    value the [catch] block received, the line it was given, and a type and
    message chosen by the shape of that value alone. *)
Lemma executeStatement_failure (self s' : StreamingExecutor)
  (code : jsstring) (b : Bindings) (ln : Z) (lg : jsstring)
  (err : ExecutionError) :
  executeStatement C self code b ln = (s', Returned (lg, Some err)) ->
  failureOf C (completion (scriptOf C self code b)) = Some (thrown err)
  /\ line err = ln
  /\ (if looksLikeTimeout (thrown err)
      then type err = timeout /\ message err = js "Execution timeout"
      else type err = runtime
           /\ formatErrorMessage C (thrown err) = Returned (message err)).
Proof.
  intros Hexec. pose proof (executeStatement_cases self code b ln) as Hc.
  cbv zeta in Hc. rewrite Hexec in Hc. cbn [fst snd] in Hc.
  destruct (failureOf C _) as [e|]; [| discriminate].
  destruct Hc as [_ Hc].
  destruct (looksLikeTimeout e) eqn:Hshape.
  - injection Hc as _ ->. cbn. rewrite Hshape. auto.
  - destruct (formatErrorMessage C e) as [m | e'] eqn:Hm; [| discriminate].
    injection Hc as _ ->. cbn. rewrite Hshape. auto.
Qed.

(** [executeStatement] rejects only when the statement failed with a
    value that is not reported as a timeout and whose message cannot be
    derived: the conversion to a string threw. *)
Lemma executeStatement_thrown (self s' : StreamingExecutor)
  (code : jsstring) (b : Bindings) (ln : Z) (e' : JsValue) :
  executeStatement C self code b ln = (s', Thrown e') ->
  exists e,
    failureOf C (completion (scriptOf C self code b)) = Some e
    /\ looksLikeTimeout e = false
    /\ instanceofError e = false
    /\ String_ C e = Thrown e'.
Proof.
  intros Hexec. pose proof (executeStatement_cases self code b ln) as Hc.
  cbv zeta in Hc. rewrite Hexec in Hc. cbn [fst snd] in Hc.
  destruct (failureOf C _) as [e|]; [| discriminate].
  destruct Hc as [_ Hc]. exists e. split; [reflexivity |].
  destruct (looksLikeTimeout e); [discriminate |]. split; [reflexivity |].
  destruct (formatErrorMessage C e) as [m | e''] eqn:Hm; [discriminate |].
  injection Hc as ->. unfold formatErrorMessage in Hm.
  destruct (instanceofError e); [discriminate |]. split; [reflexivity |].
  destruct (_ && _); [| exact Hm].
  destruct (getProp e (js "message")); try exact Hm.
  destruct (bool_decide _); [discriminate | exact Hm].
Qed.

Lemma executeStatement_success (self s' : StreamingExecutor)
  (code : jsstring) (b : Bindings) (ln : Z) (lg : jsstring) :
  executeStatement C self code b ln = (s', Returned (lg, None)) ->
  failureOf C (completion (scriptOf C self code b)) = None.
Proof.
  intros Hexec. pose proof (executeStatement_cases self code b ln) as Hc.
  cbv zeta in Hc. rewrite Hexec in Hc. cbn [fst snd] in Hc.
  destruct (failureOf C _) as [e|]; [| reflexivity].
  destruct Hc as [_ Hc]. destruct (looksLikeTimeout e); [discriminate |].
  destruct (formatErrorMessage C e); discriminate.
Qed.

(** The timer winning the race is reported as a timeout, with the error
    the timer created. *)
Lemma executeStatement_timer (self : StreamingExecutor) (code : jsstring)
  (b : Bindings) (ln : Z) :
  completion (scriptOf C self code b) = Raced TimerFires ->
  (executeStatement C self code b ln).2
  = Returned (concat (written (scriptOf C self code b)),
              Some {| type := timeout;
                      thrown := newError (js "Execution timeout");
                      message := js "Execution timeout"; line := ln |}).
Proof.
  intros Hdone. pose proof (executeStatement_cases self code b ln) as Hc.
  cbv zeta in Hc. rewrite Hdone in Hc. cbn [failureOf withTimeout] in Hc.
  rewrite looksLikeTimeout_sentinel in Hc. apply Hc.
Qed.

(** The type of a reported failure is decided by the shape of the thrown
    value: [timeout] exactly for an instance of the host's [Error] with the
    timeout message, whoever created it. *)
Lemma executeStatement_timeout_iff (self s' : StreamingExecutor)
  (code : jsstring) (b : Bindings) (ln : Z) (lg : jsstring)
  (err : ExecutionError) :
  executeStatement C self code b ln = (s', Returned (lg, Some err)) ->
  (type err = timeout <-> looksLikeTimeout (thrown err) = true).
Proof.
  intros Hexec.
  destruct (executeStatement_failure _ _ _ _ _ _ _ Hexec) as (_ & _ & Hs).
  destruct (looksLikeTimeout (thrown err)); destruct Hs as [-> _];
    split; congruence.
Qed.

(** The settings of the executor are read-only for a statement. *)
Lemma executeStatement_settings (self : StreamingExecutor)
  (code : jsstring) (b : Bindings) (ln : Z) :
  sameSettings self (executeStatement C self code b ln).1
  /\ _running (executeStatement C self code b ln).1 = _running self.
Proof.
  unfold executeStatement, sameSettings.
  destruct (match completion _ with Threw e => _ | Raced r => _ end)
    as [v | e].
  - destruct (_ && truthy v); cbn; auto.
  - destruct (_ && _); [cbn; auto |].
    destruct (formatErrorMessage C e); cbn; auto.
Qed.

End PipelineFacts.

(** C1: the code departs from the claim at a host error whose message is
    the timeout text. A statement calls a function of the user's context
    that throws [new Error("Execution timeout")]; the statement's promise
    rejects with that error (the timer never fires), and the event still
    reports the type [timeout]. *)
Theorem C1_host_error_reported_as_timeout :
  let self := constructor (Some (Sample.options false)) in
  let code := js "hostFail();" in
  let none := {| variables := []; functions := []; classes := [] |} in
  let userError := VError Host (js "Error") (js "Execution timeout") in
  completion (scriptOf Sample.collaborators self code none)
  = Raced (Rejects userError)
  /\ (executeStatement Sample.collaborators self code none 1).2
     = Returned ([], Some {| type := timeout; thrown := userError;
                             message := js "Execution timeout"; line := 1 |})
  /\ Sample.summary
       <$> Sample.eventsOfRun false (Sample.promptly [js "hostFail();"])
     = [(js "hostFail();", 1, [],
         Some (timeout, js "Execution timeout"))].
Proof. cbv zeta. repeat split; vm_compute; reflexivity. Qed.




(** ** The constructor *)

Section ConstructorFacts.

Lemma assignGlobal_lookup (key k : jsstring) (value : JsValue)
  (ctx : gmap jsstring JsValue) :
  assignGlobal key value ctx !! k
  = if bool_decide (key = k) && negb (bool_decide (k = js "__proto__"))
    then Some value else ctx !! k.
Proof.
  unfold assignGlobal.
  destruct (decide (key = k)) as [-> | Hne].
  - rewrite (bool_decide_eq_true_2 (k = k)) by reflexivity. cbn [andb].
    destruct (bool_decide (k = js "__proto__")); cbn [negb];
      [reflexivity | apply lookup_insert_eq].
  - rewrite (bool_decide_eq_false_2 (key = k)) by exact Hne. cbn [andb].
    destruct (bool_decide (key = js "__proto__")); [reflexivity |].
    apply lookup_insert_ne, Hne.
Qed.

Lemma fold_assign_other (l : list (jsstring * JsValue))
  (ctx : gmap jsstring JsValue) (k : jsstring) :
  k ∉ l.*1 \/ k = js "__proto__" ->
  fold_left (fun ctx kv => assignGlobal kv.1 kv.2 ctx) l ctx !! k = ctx !! k.
Proof.
  revert ctx. induction l as [|[k' v'] l IH]; intros ctx Hk; simpl.
  - reflexivity.
  - rewrite IH.
    + rewrite assignGlobal_lookup.
      destruct Hk as [Hk | ->].
      * rewrite fmap_cons, not_elem_of_cons in Hk. destruct Hk as [Hne _].
        simpl in Hne. rewrite bool_decide_eq_false_2 by congruence.
        reflexivity.
      * rewrite (bool_decide_eq_true_2 (js "__proto__" = js "__proto__"))
          by reflexivity.
        cbn [negb]. rewrite andb_false_r. reflexivity.
    + destruct Hk as [Hk | ->]; [left | right; reflexivity].
      rewrite fmap_cons, not_elem_of_cons in Hk. apply Hk.
Qed.

Lemma fold_assign_member (l : list (jsstring * JsValue))
  (ctx : gmap jsstring JsValue) (k : jsstring) (v : JsValue) :
  NoDup l.*1 -> (k, v) ∈ l -> k <> js "__proto__" ->
  fold_left (fun ctx kv => assignGlobal kv.1 kv.2 ctx) l ctx !! k = Some v.
Proof.
  revert ctx. induction l as [|[k' v'] l IH]; intros ctx Hnd Hin Hk; simpl.
  - inversion Hin.
  - rewrite fmap_cons in Hnd. apply NoDup_cons in Hnd as [Hfresh Hnd].
    apply elem_of_cons in Hin as [[= -> ->] | Hin].
    + rewrite fold_assign_other by (left; exact Hfresh).
      rewrite assignGlobal_lookup.
      rewrite (bool_decide_eq_true_2 (k' = k')) by reflexivity.
      rewrite (bool_decide_eq_false_2 _ Hk). reflexivity.
    + apply IH; assumption.
Qed.

(** The context after the loop over the user's record: each key of the
    record other than [__proto__] holds the user's value, and every other
    name holds what it held. *)
Lemma applyUserContext_lookup (record ctx : gmap jsstring JsValue)
  (k : jsstring) :
  applyUserContext record ctx !! k
  = if bool_decide (k = js "__proto__") then ctx !! k
    else match record !! k with
         | Some v => Some v
         | None => ctx !! k
         end.
Proof.
  unfold applyUserContext.
  destruct (bool_decide (k = js "__proto__")) eqn:Hp.
  { apply bool_decide_eq_true in Hp. apply fold_assign_other. right.
    exact Hp. }
  apply bool_decide_eq_false in Hp.
  destruct (record !! k) as [v|] eqn:Hk.
  - apply fold_assign_member.
    + apply NoDup_fst_map_to_list.
    + apply elem_of_map_to_list. exact Hk.
    + exact Hp.
  - apply fold_assign_other. left. intros Hin.
    apply list_elem_of_fmap in Hin as [[k' v'] [-> Hin]].
    apply elem_of_map_to_list in Hin. simpl in Hk. congruence.
Qed.

Lemma builtins_installed (key : jsstring) :
  In key builtinNames -> is_Some (initializeBuiltins ∅ !! key).
Proof.
  intros Hin. simpl in Hin.
  repeat (destruct Hin as [<- | Hin]; [vm_compute; eauto |]).
  destruct Hin.
Qed.

Lemma builtins_not_proto (key : jsstring) :
  In key builtinNames -> key <> js "__proto__".
Proof.
  intros Hin. simpl in Hin.
  repeat (destruct Hin as [<- | Hin]; [vm_compute; discriminate |]).
  destruct Hin.
Qed.

End ConstructorFacts.

(** C10: the constructor installs the built-in globals first, so each of
    their names is bound before the user's context is applied; afterwards
    every key of [options.context] that is the name of a built-in holds the
    user's value, and so does every other key of [options.context] except
    [__proto__], for which the assignment creates no binding; a name that
    is not a key of [options.context] holds the built-in, if it is the name
    of one. *)
Theorem C10_user_context_overrides_builtins
  (options : StreamingExecutorOptions) (record : gmap jsstring JsValue) :
  opt_context options = Some record ->
  (forall key, In key builtinNames ->
               is_Some (initializeBuiltins ∅ !! key))
  /\ (forall key value,
         In key builtinNames ->
         record !! key = Some value ->
         _context (constructor (Some options)) !! key = Some value)
  /\ (forall key value,
         key <> js "__proto__" ->
         record !! key = Some value ->
         _context (constructor (Some options)) !! key = Some value)
  /\ (forall key,
         record !! key = None ->
         _context (constructor (Some options)) !! key
         = initializeBuiltins ∅ !! key)
  /\ _context (constructor (Some options)) !! js "__proto__" = None.
Proof.
  intros Hctx. split; [apply builtins_installed |].
  unfold constructor. cbn [mbind option_bind _context]. rewrite Hctx.
  assert (Hother : forall key value,
             key <> js "__proto__" -> record !! key = Some value ->
             applyUserContext record (initializeBuiltins ∅) !! key
             = Some value).
  { intros key value Hp Hk. rewrite applyUserContext_lookup, Hk.
    rewrite bool_decide_eq_false_2 by exact Hp. reflexivity. }
  split; [| split; [exact Hother | split]].
  - intros key value Hin Hk. apply Hother; [| exact Hk].
    apply builtins_not_proto, Hin.
  - intros key Hk. rewrite applyUserContext_lookup, Hk.
    destruct (bool_decide _); reflexivity.
  - rewrite applyUserContext_lookup.
    rewrite bool_decide_eq_true_2 by reflexivity. vm_compute. reflexivity.
Qed.

Lemma C10_user_context_overrides_builtins_witness :
  _context (constructor (Some Sample.overriding)) !! js "console"
  = Some (VString (js "mine")).
Proof.
  apply (C10_user_context_overrides_builtins Sample.overriding
           {[ js "console" := VString (js "mine");
              js "setTimeout" := VNumber 7 ]}).
  - reflexivity.
  - simpl. auto 10.
  - vm_compute. reflexivity.
Defined.

(** ** The single-flight guard *)

(** C9: while the running flag is set, a call of [run] throws to its
    caller; the world is the one before the call, so the queue of the run in
    flight holds no new item, no second task exists, and the task in flight
    goes on to the same end. *)
Theorem C9_run_while_running_throws (C : Collaborators) (w : World)
  (stream : list Arrival) :
  _running (executor w) = true ->
  callRun stream w
  = (Some (newError
             (js "Cannot call run() while another run is in progress")), w)
  /\ settle C (callRun stream w).2 = settle C w.
Proof.
  intros Hrun. unfold callRun, run. rewrite Hrun. split; reflexivity.
Qed.

Lemma C9_run_while_running_throws_witness :
  let idle := {| executor := constructor None; task := None |} in
  let busy := (callRun (Sample.promptly [js "var x = 1;"]) idle).2 in
  callRun (Sample.promptly [js "log(x);"]) busy
  = (Some (newError
             (js "Cannot call run() while another run is in progress")),
     busy)
  /\ settle Sample.collaborators
            (callRun (Sample.promptly [js "log(x);"]) busy).2
     = settle Sample.collaborators busy.
Proof.
  cbv zeta.
  apply (C9_run_while_running_throws Sample.collaborators).
  vm_compute. reflexivity.
Defined.

(** ** The fields of a run *)

Section FieldFacts.

Lemma recordError_finalError (e : ExecutionError) (r : Run) :
  finalError (recordError e r)
  = match finalError r with
    | Some e' => Some e'
    | None => Some e
    end.
Proof.
  unfold recordError. destruct (finalError r) eqn:H; cbn; rewrite ?H;
    reflexivity.
Qed.

Lemma recordError_others (e : ExecutionError) (r : Run) :
  buffer (recordError e r) = buffer r
  /\ lineNumber (recordError e r) = lineNumber r
  /\ statementStartLine (recordError e r) = statementStartLine r
  /\ allLogs (recordError e r) = allLogs r
  /\ eventQueue (recordError e r) = eventQueue r
  /\ resultPromise (recordError e r) = resultPromise r
  /\ yielded (recordError e r) = yielded r
  /\ generatorDone (recordError e r) = generatorDone r
  /\ rejected (recordError e r) = rejected r.
Proof. unfold recordError. destruct (finalError r); cbn; auto 12. Qed.

Lemma recordError_buffer (e : ExecutionError) (r : Run) :
  buffer (recordError e r) = buffer r.
Proof. apply recordError_others. Qed.

Lemma recordError_lineNumber (e : ExecutionError) (r : Run) :
  lineNumber (recordError e r) = lineNumber r.
Proof. apply recordError_others. Qed.

Lemma recordError_statementStartLine (e : ExecutionError) (r : Run) :
  statementStartLine (recordError e r) = statementStartLine r.
Proof. apply recordError_others. Qed.

Lemma recordError_allLogs (e : ExecutionError) (r : Run) :
  allLogs (recordError e r) = allLogs r.
Proof. apply recordError_others. Qed.

Lemma recordError_eventQueue (e : ExecutionError) (r : Run) :
  eventQueue (recordError e r) = eventQueue r.
Proof. apply recordError_others. Qed.

Lemma recordError_resultPromise (e : ExecutionError) (r : Run) :
  resultPromise (recordError e r) = resultPromise r.
Proof. apply recordError_others. Qed.

Lemma recordError_yielded (e : ExecutionError) (r : Run) :
  yielded (recordError e r) = yielded r.
Proof. apply recordError_others. Qed.

Lemma recordError_generatorDone (e : ExecutionError) (r : Run) :
  generatorDone (recordError e r) = generatorDone r.
Proof. apply recordError_others. Qed.

Lemma recordError_rejected (e : ExecutionError) (r : Run) :
  rejected (recordError e r) = rejected r.
Proof. apply recordError_others. Qed.

Lemma emit_allLogs (ev : ExecutionEvent) (r : Run) :
  allLogs (emit ev r) = allLogs r ++ logs ev.
Proof.
  unfold emit. destruct (error ev); rewrite ?recordError_allLogs; reflexivity.
Qed.

Lemma emit_eventQueue (ev : ExecutionEvent) (r : Run) :
  eventQueue (emit ev r) = eventQueue r ++ [QEvent ev].
Proof.
  unfold emit. destruct (error ev); rewrite ?recordError_eventQueue;
    reflexivity.
Qed.

Lemma emit_finalError (ev : ExecutionEvent) (r : Run) :
  finalError (emit ev r)
  = match finalError r with
    | Some e => Some e
    | None => error ev
    end.
Proof.
  unfold emit. destruct (error ev); rewrite ?recordError_finalError; cbn;
    destruct (finalError r); reflexivity.
Qed.

Lemma emit_others (ev : ExecutionEvent) (r : Run) :
  buffer (emit ev r) = buffer r
  /\ lineNumber (emit ev r) = lineNumber r
  /\ statementStartLine (emit ev r) = statementStartLine r
  /\ resultPromise (emit ev r) = resultPromise r
  /\ yielded (emit ev r) = yielded r
  /\ generatorDone (emit ev r) = generatorDone r
  /\ rejected (emit ev r) = rejected r.
Proof.
  unfold emit.
  destruct (error ev) as [e|];
    [destruct (recordError_others e
                 (pushEvent (QEvent ev)
                            (set_allLogs (allLogs r ++ logs ev) r)))
       as (-> & -> & -> & _ & _ & -> & -> & -> & ->) |];
    cbn; auto 12.
Qed.

Lemma emit_buffer (ev : ExecutionEvent) (r : Run) :
  buffer (emit ev r) = buffer r.
Proof. apply emit_others. Qed.

Lemma emit_lineNumber (ev : ExecutionEvent) (r : Run) :
  lineNumber (emit ev r) = lineNumber r.
Proof. apply emit_others. Qed.

Lemma emit_statementStartLine (ev : ExecutionEvent) (r : Run) :
  statementStartLine (emit ev r) = statementStartLine r.
Proof. apply emit_others. Qed.

Lemma emit_resultPromise (ev : ExecutionEvent) (r : Run) :
  resultPromise (emit ev r) = resultPromise r.
Proof. apply emit_others. Qed.

Lemma emit_yielded (ev : ExecutionEvent) (r : Run) :
  yielded (emit ev r) = yielded r.
Proof. apply emit_others. Qed.

Lemma emit_generatorDone (ev : ExecutionEvent) (r : Run) :
  generatorDone (emit ev r) = generatorDone r.
Proof. apply emit_others. Qed.

Lemma emit_rejected (ev : ExecutionEvent) (r : Run) :
  rejected (emit ev r) = rejected r.
Proof. apply emit_others. Qed.

(** Counting a line touches the line counters only. *)
Lemma countLine_others (u : Z) (r : Run) :
  buffer (countLine u r) = buffer r
  /\ allLogs (countLine u r) = allLogs r
  /\ finalError (countLine u r) = finalError r
  /\ eventQueue (countLine u r) = eventQueue r
  /\ resultPromise (countLine u r) = resultPromise r
  /\ yielded (countLine u r) = yielded r
  /\ generatorDone (countLine u r) = generatorDone r
  /\ rejected (countLine u r) = rejected r.
Proof.
  unfold countLine. destruct (bool_decide (u = 10)); [| auto 12].
  cbn. destruct (bool_decide _); cbn; auto 12.
Qed.

Lemma countLine_buffer (u : Z) (r : Run) :
  buffer (countLine u r) = buffer r.
Proof. apply countLine_others. Qed.

Lemma countLine_allLogs (u : Z) (r : Run) :
  allLogs (countLine u r) = allLogs r.
Proof. apply countLine_others. Qed.

Lemma countLine_finalError (u : Z) (r : Run) :
  finalError (countLine u r) = finalError r.
Proof. apply countLine_others. Qed.

Lemma countLine_eventQueue (u : Z) (r : Run) :
  eventQueue (countLine u r) = eventQueue r.
Proof. apply countLine_others. Qed.

Lemma countLine_resultPromise (u : Z) (r : Run) :
  resultPromise (countLine u r) = resultPromise r.
Proof. apply countLine_others. Qed.

Lemma countLine_yielded (u : Z) (r : Run) :
  yielded (countLine u r) = yielded r.
Proof. apply countLine_others. Qed.

Lemma countLine_generatorDone (u : Z) (r : Run) :
  generatorDone (countLine u r) = generatorDone r.
Proof. apply countLine_others. Qed.

Lemma countLine_rejected (u : Z) (r : Run) :
  rejected (countLine u r) = rejected r.
Proof. apply countLine_others. Qed.

Lemma countLine_lineNumber (u : Z) (r : Run) :
  lineNumber (countLine u r)
  = lineNumber r + (if bool_decide (u = 10) then 1 else 0).
Proof.
  unfold countLine. destruct (bool_decide (u = 10)); [| cbn; lia].
  cbn. destruct (bool_decide _); reflexivity.
Qed.

Lemma countLine_statementStartLine (u : Z) (r : Run) :
  statementStartLine (countLine u r)
  = if bool_decide (u = 10) && bool_decide (trim (buffer r) = [])
    then lineNumber r + 1
    else statementStartLine r.
Proof.
  unfold countLine. destruct (bool_decide (u = 10)); [| reflexivity].
  cbn. destruct (bool_decide _); reflexivity.
Qed.

(** An event queued with its error recorded first, as the parse-error
    branches do, is the bookkeeping of [emit]. *)
Lemma pushEvent_recordError (ev : ExecutionEvent) (e : ExecutionError)
  (r : Run) :
  logs ev = [] -> error ev = Some e ->
  pushEvent (QEvent ev) (recordError e r) = emit ev r.
Proof.
  intros Hl He. unfold emit. rewrite Hl, He, app_nil_r.
  unfold recordError, pushEvent, set_allLogs, set_eventQueue, set_finalError.
  destruct r as [b ln ssl al [fe|] q rp y d rj]; reflexivity.
Qed.

End FieldFacts.

Create Rewrite HintDb run_fields.

#[global] Hint Rewrite emit_allLogs emit_eventQueue emit_finalError
  emit_resultPromise emit_buffer emit_lineNumber emit_statementStartLine
  emit_yielded emit_generatorDone emit_rejected
  recordError_finalError recordError_buffer
  recordError_lineNumber recordError_statementStartLine recordError_allLogs
  recordError_eventQueue recordError_resultPromise recordError_yielded
  recordError_generatorDone recordError_rejected
  countLine_buffer countLine_allLogs countLine_finalError
  countLine_eventQueue countLine_resultPromise countLine_yielded
  countLine_generatorDone countLine_rejected countLine_lineNumber
  countLine_statementStartLine : run_fields.

(** Reads the fields of a run through the updates made to it. *)
Ltac run_fields :=
  repeat (unfold pushEvent, set_eventQueue, set_allLogs, set_buffer,
            set_statementStartLine, set_lineNumber, set_finalError,
            set_yielded, set_generatorDone, set_rejected,
            buffered, nextStatement, incompleteEvent;
          cbn [buffer lineNumber statementStartLine allLogs finalError
               eventQueue resultPromise yielded generatorDone rejected
               logs error statement ev_line];
          autorewrite with run_fields);
  rewrite ?app_nil_r.

(** ** The consumer *)

Section ConsumerFacts.

Lemma eventGenerator_all (q : list QueuedEvent) (ev : ExecutionEvent) :
  Forall (fun item => item <> QDone) q ->
  eventGenerator (q ++ [QEvent ev]) = eventGenerator q ++ [ev]
  /\ eventGenerator (q ++ [QDone]) = eventGenerator q.
Proof.
  induction q as [|[e|] q IH]; intros Hq.
  - split; reflexivity.
  - inversion Hq; subst. destruct (IH ltac:(assumption)) as [IH1 IH2].
    simpl. rewrite IH1, IH2. split; reflexivity.
  - inversion Hq; subst. congruence.
Qed.

(** The events of a run depend on the queue, on what was yielded and on
    whether the generator has returned, and on nothing else. *)
Lemma eventsOf_same (r r' : Run) :
  eventQueue r' = eventQueue r -> yielded r' = yielded r ->
  generatorDone r' = generatorDone r ->
  eventsOf r' = eventsOf r.
Proof. unfold eventsOf. intros -> -> ->. reflexivity. Qed.

Lemma eventsOf_countLine (u : Z) (r : Run) :
  eventsOf (countLine u r) = eventsOf r.
Proof. apply eventsOf_same; apply countLine_others. Qed.

Lemma eventsOf_buffered (u : Z) (r : Run) :
  eventsOf (buffered u r) = eventsOf r.
Proof. reflexivity. Qed.

Lemma eventsOf_nextStatement (r : Run) :
  eventsOf (nextStatement r) = eventsOf r.
Proof. reflexivity. Qed.

(** Reading from the queue changes neither the events of the run nor any
    variable of the task. *)
Lemma generatorNext_facts (r : Run) :
  generatorDone r = false ->
  Forall (fun item => item <> QDone) (eventQueue r) ->
  generatorDone (generatorNext r) = false
  /\ Forall (fun item => item <> QDone) (eventQueue (generatorNext r))
  /\ eventsOf (generatorNext r) = eventsOf r
  /\ buffer (generatorNext r) = buffer r
  /\ lineNumber (generatorNext r) = lineNumber r
  /\ statementStartLine (generatorNext r) = statementStartLine r
  /\ allLogs (generatorNext r) = allLogs r
  /\ finalError (generatorNext r) = finalError r
  /\ resultPromise (generatorNext r) = resultPromise r
  /\ rejected (generatorNext r) = rejected r.
Proof.
  intros Hd Hq. unfold generatorNext, eventsOf. rewrite Hd.
  destruct (eventQueue r) as [|[ev|] q] eqn:Hqueue.
  - rewrite Hd, Hqueue. auto 12.
  - inversion Hq; subst. cbn. rewrite Hd, <- app_assoc. auto 12.
  - inversion Hq; subst. congruence.
Qed.

Lemma consume_facts (n : nat) (r : Run) :
  generatorDone r = false ->
  Forall (fun item => item <> QDone) (eventQueue r) ->
  generatorDone (consume n r) = false
  /\ Forall (fun item => item <> QDone) (eventQueue (consume n r))
  /\ eventsOf (consume n r) = eventsOf r
  /\ buffer (consume n r) = buffer r
  /\ lineNumber (consume n r) = lineNumber r
  /\ statementStartLine (consume n r) = statementStartLine r
  /\ allLogs (consume n r) = allLogs r
  /\ finalError (consume n r) = finalError r
  /\ resultPromise (consume n r) = resultPromise r
  /\ rejected (consume n r) = rejected r.
Proof.
  revert r. induction n as [|n IH]; intros r Hd Hq; cbn [consume].
  - auto 12.
  - destruct (generatorNext_facts r Hd Hq)
      as (Hd' & Hq' & <- & <- & <- & <- & <- & <- & <- & <-).
    apply IH; assumption.
Qed.

Lemma Consistent_consume (n : nat) (r : Run) :
  Consistent r -> Consistent (consume n r).
Proof.
  intros (Hd & Hq & Hl & He).
  destruct (consume_facts n r Hd Hq)
    as (Hd' & Hq' & Hev & _ & _ & _ & Hl' & He' & _).
  unfold Consistent. rewrite Hev, Hl', He'. auto.
Qed.

End ConsumerFacts.

(** ** The scanner: code points and code units *)

Section ScanUnits.

Variable C : Collaborators.

Lemma surrogate_not_delimiter (u : Z) :
  isHighSurrogate u || isLowSurrogate u = true -> u <> 59 /\ u <> 10.
Proof.
  unfold isHighSurrogate, isLowSurrogate.
  rewrite orb_true_iff, !andb_true_iff, !bool_decide_eq_true. lia.
Qed.

(** A character that is neither the semicolon nor the newline is only
    buffered. *)
Lemma processChar_plain (char : jsstring) (self : StreamingExecutor)
  (r : Run) :
  char <> semicolon -> char <> newline ->
  processChar C char self r = Next self (set_buffer (buffer r ++ char) r).
Proof.
  intros Hs Hn. unfold processChar.
  rewrite (bool_decide_eq_false_2 _ Hs), (bool_decide_eq_false_2 _ Hn).
  reflexivity.
Qed.

(** A surrogate pair taken as one character does what its two code
    units do one after the other. *)
Lemma processChar_pair (u v : Z) (self : StreamingExecutor) (r : Run) :
  isHighSurrogate u && isLowSurrogate v = true ->
  processChar C [u; v] self r
  = match processChar C [u] self r with
    | Next self r => processChar C [v] self r
    | stop => stop
    end.
Proof.
  intros Hp. apply andb_true_iff in Hp as [Hu Hv].
  destruct (surrogate_not_delimiter u) as [Hu1 Hu2];
    [rewrite Hu; reflexivity |].
  destruct (surrogate_not_delimiter v) as [Hv1 Hv2];
    [rewrite Hv; apply orb_true_r |].
  rewrite (processChar_plain [u; v]) by (unfold semicolon, newline; congruence).
  rewrite (processChar_plain [u]) by (unfold semicolon, newline; congruence).
  rewrite (processChar_plain [v]) by (unfold semicolon, newline; congruence).
  unfold set_buffer. cbn. rewrite <- app_assoc. reflexivity.
Qed.

(** The loop over the characters of a chunk is the scan of its code
    units. *)
Lemma forChars_codePoints (text : jsstring) (self : StreamingExecutor)
  (r : Run) :
  forChars C (codePoints text) self r = forUnits C text self r.
Proof.
  assert (H : forall n (t : jsstring) self r,
             (length t <= n)%nat ->
             forChars C (codePoints t) self r = forUnits C t self r).
  { clear. induction n as [|n IH]; intros t self r Hlen.
    - destruct t; [reflexivity | simpl in Hlen; lia].
    - destruct t as [|u [|v t]].
      + reflexivity.
      + simpl. destruct (processChar C [u] self r); reflexivity.
      + simpl in Hlen. rewrite codePoints_cons2.
        destruct (isHighSurrogate u && isLowSurrogate v) eqn:Hp.
        * cbn [forChars forUnits]. rewrite (processChar_pair u v) by exact Hp.
          destruct (processChar C [u] self r) as [s1 r1 | s1 r1 | s1 r1 e1];
            try reflexivity.
          destruct (processChar C [v] s1 r1) as [s2 r2 | s2 r2 | s2 r2 e2];
            try reflexivity.
          apply IH. lia.
        * cbn [forChars]. cbn [forUnits].
          destruct (processChar C [u] self r) as [s1 r1 | s1 r1 | s1 r1 e1];
            try reflexivity.
          rewrite IH by (simpl; lia). reflexivity. }
  apply (H (length text)). lia.
Qed.


(** The background task, by the way its loop over the stream ends. *)
Lemma background_outcome (stream : list Arrival)
  (self : StreamingExecutor) (r : Run) :
  (background C stream self r).1
  = outcomeOfFlow C (forAwait C stream self r).1.
Proof.
  unfold background.
  destruct (forAwait C stream self r) as [[s1 r1 | s1 r1 | s1 r1 e1] unread];
    cbn [fst outcomeOfFlow]; try reflexivity.
  destruct (flush C s1 r1) as [[s2 r2] [e|]]; reflexivity.
Qed.

Lemma background_unread (stream : list Arrival)
  (self : StreamingExecutor) (r : Run) :
  (background C stream self r).2 = (forAwait C stream self r).2.
Proof.
  unfold background.
  destruct (forAwait C stream self r) as [[s1 r1 | s1 r1 | s1 r1 e1] unread];
    cbn [snd]; try reflexivity.
  destruct (flush C s1 r1) as [[s2 r2] [e|]]; reflexivity.
Qed.

(** The wait for a chunk leaves the settings and the running flag as
    they are. *)
Lemma await_settings (arrival : Arrival) (self : StreamingExecutor) :
  sameSettings self (await C arrival self)
  /\ _running (await C arrival self) = _running self.
Proof.
  unfold await, sameSettings. destruct (elapse C _ _ _). cbn. auto.
Qed.

Lemma await_quiescent (arrival : Arrival) (self : StreamingExecutor) :
  Quiescent C -> await C arrival self = self.
Proof.
  intros Hq. unfold await. rewrite Hq. destruct self; reflexivity.
Qed.

End ScanUnits.

(** ** One step of the scanner *)

Section StepFacts.

Variable C : Collaborators.

(** Every step of the scanner is one of the four of [CharStep]. *)
Lemma processChar_step (u : Z) (self : StreamingExecutor) (r : Run) :
  CharStep C u self r (processChar C [u] self r).
Proof.
  unfold processChar. fold (buffered u r).
  destruct (bool_decide ([u] = semicolon)) eqn:Hsemi.
  - apply bool_decide_eq_true in Hsemi. injection Hsemi as ->.
    rewrite (bool_decide_eq_false_2 ([59] = newline))
      by (unfold newline; congruence).
    unfold onSemicolon.
    change (buffer (buffered 59 r)) with (buffer r ++ [59]).
    change (statementStartLine (buffered 59 r)) with (statementStartLine r).
    rewrite trim_semicolon_nonEmpty.
    destruct (parseStatement _ _ _) as [| sf] eqn:Hparse.
    { apply (StepQuiet C 59 self r). intros _. exact Hparse. }
    destruct (transpile C self (trim (buffer r ++ [59])))
      as [[code | msg] | e] eqn:Htr.
    + destruct (executeStatement C self code (extractBindingsFromAST sf)
                  (statementStartLine r)) as [s' [[lg err] | e]] eqn:Hexec.
      2:{ apply (StepThrow C 59 self r sf s' e eq_refl Hparse).
          unfold statementEvent. rewrite Htr, Hexec. reflexivity. }
      assert (Hev : statementEvent C self (trim (buffer r ++ [59])) sf
                      (statementStartLine r)
                    = (s', Returned {| statement := trim (buffer r ++ [59]);
                                       ev_line := statementStartLine r;
                                       logs := lg; error := err |})).
      { unfold statementEvent. rewrite Htr, Hexec. reflexivity. }
      assert (Hc : continueOnError self = continueOnError s').
      { pose proof (executeStatement_settings C self code
                      (extractBindingsFromAST sf) (statementStartLine r))
          as [(_ & _ & _ & Hc) _].
        rewrite Hexec in Hc. exact Hc. }
      destruct err as [e|].
      * destruct (continueOnError s') eqn:Hcoe; cbn [negb].
        -- apply (StepEmit C 59 self r sf s' _ eq_refl Hparse Hev).
           right. exact Hc.
        -- apply (StepHalt C 59 self r sf s' _ eq_refl Hparse Hev);
             [cbn; eauto | exact Hc].
      * apply (StepEmit C 59 self r sf s' _ eq_refl Hparse Hev).
        left. reflexivity.
    + assert (Hev : statementEvent C self (trim (buffer r ++ [59])) sf
                      (statementStartLine r)
                    = (self,
                       Returned
                         {| statement := trim (buffer r ++ [59]);
                            ev_line := statementStartLine r;
                            logs := [];
                            error := Some {| type := parse;
                                             thrown := newError msg;
                                             message := msg;
                                             line := statementStartLine r |}
                         |})).
      { unfold statementEvent. rewrite Htr. reflexivity. }
      rewrite recordError_statementStartLine.
      change (statementStartLine (buffered 59 r))
        with (statementStartLine r).
      match type of Hev with
      | _ = (_, Returned ?ev) =>
          rewrite (pushEvent_recordError ev _ (buffered 59 r)
                     eq_refl eq_refl)
      end.
      destruct (continueOnError self) eqn:Hcoe; cbn [negb].
      * apply (StepEmit C 59 self r sf self _ eq_refl Hparse Hev).
        right. exact Hcoe.
      * apply (StepHalt C 59 self r sf self _ eq_refl Hparse Hev);
          [cbn; eauto | exact Hcoe].
    + apply (StepThrow C 59 self r sf self e eq_refl Hparse).
      unfold statementEvent. rewrite Htr. reflexivity.
  - apply bool_decide_eq_false in Hsemi.
    assert (Hquiet : CharStep C u self r
                       (Next self (countLine u (buffered u r)))).
    { apply StepQuiet. intros ->. exfalso. apply Hsemi. reflexivity. }
    unfold countLine in *.
    destruct (decide (u = 10)) as [-> | Hnl].
    + rewrite (bool_decide_eq_true_2 ([10] = newline)) by reflexivity.
      rewrite (bool_decide_eq_true_2 (10 = 10)) in Hquiet by reflexivity.
      cbv zeta in *. destruct (bool_decide (trim _ = [])); exact Hquiet.
    + rewrite (bool_decide_eq_false_2 ([u] = newline))
        by (unfold newline; congruence).
      rewrite (bool_decide_eq_false_2 (u = 10)) in Hquiet by exact Hnl.
      exact Hquiet.
Qed.

End StepFacts.

(** ** Invariants of the run *)

Section RunFacts.

Variable C : Collaborators.

Lemma errorsOf_app (a b : list ExecutionEvent) :
  errorsOf (a ++ b) = errorsOf a ++ errorsOf b.
Proof. apply omap_app. Qed.

Lemma errorsOf_single (ev : ExecutionEvent) :
  errorsOf [ev] = match error ev with Some e => [e] | None => [] end.
Proof. unfold errorsOf. simpl. destruct (error ev); reflexivity. Qed.

Lemma head_errors_nil (events : list ExecutionEvent) :
  head (errorsOf events) = None -> errorsOf events = [].
Proof. destruct (errorsOf events); [reflexivity | discriminate]. Qed.


(** Accumulators and events that are left as they are stay in
    agreement. *)
Lemma Consistent_same (r r' : Run) :
  eventQueue r' = eventQueue r -> yielded r' = yielded r ->
  generatorDone r' = generatorDone r ->
  allLogs r' = allLogs r -> finalError r' = finalError r ->
  Consistent r -> Consistent r'.
Proof.
  intros Hq Hy Hd Hl He (H1 & H2 & H3 & H4). unfold Consistent.
  rewrite (eventsOf_same r r' Hq Hy Hd), Hq, Hd, Hl, He. auto.
Qed.


Lemma Consistent_buffered (u : Z) (r : Run) :
  Consistent r -> Consistent (buffered u r).
Proof. apply Consistent_same; reflexivity. Qed.


(** The bookkeeping of one event keeps the accumulators and the events
    in agreement. *)
Lemma Consistent_emit (r : Run) (ev : ExecutionEvent) :
  Consistent r ->
  Consistent (emit ev r) /\ eventsOf (emit ev r) = eventsOf r ++ [ev].
Proof.
  intros (Hd & Hq & Hl & He).
  destruct (eventGenerator_all (eventQueue r) ev Hq) as [Hgen _].
  assert (Hevents : eventsOf (emit ev r) = eventsOf r ++ [ev]).
  { unfold eventsOf. run_fields. rewrite Hd, Hgen, app_assoc. reflexivity. }
  split; [| exact Hevents].
  unfold Consistent. rewrite Hevents. run_fields.
  split; [exact Hd |]. split.
  { apply Forall_app. split; [exact Hq |].
    constructor; [discriminate | constructor]. }
  split.
  - rewrite Hl, fmap_app, concat_app. simpl. rewrite app_nil_r. reflexivity.
  - rewrite He, errorsOf_app, errorsOf_single.
    destruct (errorsOf (eventsOf r)) as [|e es];
      simpl; [destruct (error ev) |]; reflexivity.
Qed.

Lemma sameSettings_trans (a b c : StreamingExecutor) :
  sameSettings a b -> sameSettings b c -> sameSettings a c.
Proof.
  unfold sameSettings. intros (?&?&?&?) (?&?&?&?).
  repeat split; congruence.
Qed.

Lemma sameSettings_refl (a : StreamingExecutor) : sameSettings a a.
Proof. unfold sameSettings. auto. Qed.

(** The pipeline of a statement leaves the settings and the running flag
    as they are, whether it gives an event or throws. *)
Lemma statementEvent_settings (self : StreamingExecutor)
  (trimmed : jsstring) (sf : SourceFile) (ln : Z) :
  sameSettings self (statementEvent C self trimmed sf ln).1
  /\ _running (statementEvent C self trimmed sf ln).1 = _running self.
Proof.
  unfold statementEvent.
  destruct (transpile C self trimmed) as [[code | msg] | e]; cbn [fst];
    try (split; [apply sameSettings_refl | reflexivity]).
  pose proof (executeStatement_settings C self code
                (extractBindingsFromAST sf) ln) as H.
  destruct (executeStatement C self code (extractBindingsFromAST sf) ln)
    as [s1 [[lg err] | e]]; exact H.
Qed.

(** The event of a statement: its fields, and the executor afterwards. *)
Lemma statementEvent_fields (self s' : StreamingExecutor)
  (trimmed : jsstring) (sf : SourceFile) (ln : Z) (ev : ExecutionEvent) :
  statementEvent C self trimmed sf ln = (s', Returned ev) ->
  statement ev = trimmed /\ ev_line ev = ln
  /\ (forall e, error ev = Some e -> line e = ln)
  /\ sameSettings self s' /\ _running s' = _running self.
Proof.
  intros Hev.
  pose proof (statementEvent_settings self trimmed sf ln) as [Hs Hr].
  rewrite Hev in Hs, Hr. cbn [fst] in Hs, Hr.
  unfold statementEvent in Hev.
  destruct (transpile C self trimmed) as [[code | msg] | e];
    [| | discriminate].
  - destruct (executeStatement C self code (extractBindingsFromAST sf) ln)
      as [s1 [[lg err] | e]] eqn:Hexec; [| discriminate].
    injection Hev as <- <-. cbn. repeat split; try assumption;
      try apply Hs.
    intros e ->.
    destruct (executeStatement_failure C _ _ _ _ _ _ _ Hexec)
      as (_ & Hline & _). exact Hline.
  - injection Hev as <- <-. cbn. repeat split; try assumption;
      try apply Hs.
    intros e [= <-]. reflexivity.
Qed.

Lemma statementEvent_own (self0 self s' : StreamingExecutor)
  (trimmed : jsstring) (sf : SourceFile) (ln : Z) (ev : ExecutionEvent) :
  sameSettings self0 self ->
  statementEvent C self trimmed sf ln = (s', Returned ev) ->
  OwnError C self0 ev.
Proof.
  intros Hsame Hev.
  destruct (statementEvent_fields _ _ _ _ _ _ Hev) as (Hst & Hln & He & _).
  unfold OwnError. destruct (error ev) as [e|] eqn:Herr; [| exact I].
  split; [rewrite Hln; apply He; reflexivity |].
  right. exists self, sf. split; [exact Hsame |].
  rewrite Hst, Hln, Hev. reflexivity.
Qed.

Lemma incompleteEvent_own (self0 : StreamingExecutor) (trimmed : jsstring)
  (ln : Z) :
  OwnError C self0 (incompleteEvent trimmed ln).
Proof. unfold OwnError. cbn. split; [reflexivity | left; reflexivity]. Qed.

(** What stays true of the task over a step that records nothing. *)
Lemma Working_same (self0 s s' : StreamingExecutor) (r r' : Run) :
  sameSettings s s' -> _running s' = _running s ->
  eventQueue r' = eventQueue r -> yielded r' = yielded r ->
  generatorDone r' = generatorDone r ->
  allLogs r' = allLogs r -> finalError r' = finalError r ->
  resultPromise r' = resultPromise r -> rejected r' = rejected r ->
  Working C self0 s r -> Working C self0 s' r'.
Proof.
  intros Hs Hr Hq Hy Hd Hl He Hp Hj (Hsame & Hrun & Hcons & Hres & Hrej & Hown).
  unfold Working. rewrite (eventsOf_same r r' Hq Hy Hd), Hr, Hp, Hj.
  split; [eapply sameSettings_trans; eassumption |].
  split; [exact Hrun |].
  split; [eapply Consistent_same; eassumption |]. auto.
Qed.

(** What stays true of the task over the record of one event. *)
Lemma Working_emit (self0 s s' : StreamingExecutor) (r : Run)
  (ev : ExecutionEvent) :
  sameSettings s s' -> _running s' = _running s ->
  OwnError C self0 ev ->
  Working C self0 s r ->
  Working C self0 s' (emit ev r) /\ eventsOf (emit ev r) = eventsOf r ++ [ev].
Proof.
  intros Hs Hr Hev (Hsame & Hrun & Hcons & Hres & Hrej & Hown).
  destruct (Consistent_emit r ev Hcons) as [Hcons' Hevents].
  split; [| exact Hevents]. unfold Working. rewrite Hevents. run_fields.
  split; [eapply sameSettings_trans; eassumption |].
  split; [congruence |]. split; [exact Hcons' |].
  split; [exact Hres |]. split; [exact Hrej |].
  apply Forall_app. split; [exact Hown |]. constructor; [exact Hev |].
  constructor.
Qed.

(** The wait for a chunk, and what the consumer reads meanwhile, leave
    what is true of the task as it is. *)
Lemma Working_await (self0 s : StreamingExecutor) (r : Run)
  (arrival : Arrival) :
  Working C self0 s r ->
  Working C self0 (await C arrival s) (consume (pulled arrival) r)
  /\ eventsOf (consume (pulled arrival) r) = eventsOf r.
Proof.
  intros (Hsame & Hrun & Hcons & Hres & Hrej & Hown).
  destruct (await_settings C arrival s) as [Hs Hr].
  pose proof Hcons as (Hd & Hq & _).
  destruct (consume_facts (pulled arrival) r Hd Hq)
    as (_ & _ & Hev & _ & _ & _ & _ & _ & Hp & Hj).
  split; [| exact Hev]. unfold Working. rewrite Hev, Hr, Hp, Hj.
  split; [eapply sameSettings_trans; eassumption |].
  split; [exact Hrun |].
  split; [apply Consistent_consume; exact Hcons |]. auto.
Qed.

(** One step keeps the invariant of the scan, or ends it. *)
Lemma step_invariant (self0 s : StreamingExecutor) (consumed : jsstring)
  (u : Z) (r : Run) (f : Flow) :
  ScanInv C self0 consumed s r ->
  CharStep C u s r f ->
  match f with
  | Next s' r' => ScanInv C self0 (consumed ++ [u]) s' r'
  | stop => ExitInv C self0 (consumed ++ [u]) stop
  end.
Proof.
  intros (Hwork & Hpol & text & Hwoven & Htext) Hstep.
  destruct Hstep as
    [ Hquiet
    | sf s' ev Hu Hparse Hev Herr
    | sf s' ev Hu Hparse Hev Herr Hcoe
    | sf s' e Hu Hparse Hev ].
  - split; [| split].
    + revert Hwork. apply Working_same; run_fields;
        auto using sameSettings_refl.
    + run_fields. exact Hpol.
    + exists text. rewrite eventsOf_countLine, eventsOf_buffered.
      split; [exact Hwoven |]. run_fields.
      rewrite Htext, app_assoc. reflexivity.
  - destruct (statementEvent_fields _ _ _ _ _ _ Hev)
      as (Hst & Hln & _ & Hsame' & Hrun').
    assert (Hown : OwnError C self0 ev).
    { eapply statementEvent_own; [| exact Hev]. apply Hwork. }
    destruct (Working_emit self0 s s' (buffered u r) ev Hsame' Hrun' Hown)
      as [Hwork' Hevents].
    { revert Hwork. apply Working_same; auto using sameSettings_refl. }
    rewrite eventsOf_buffered in Hevents.
    split; [| split].
    + revert Hwork'. apply Working_same; auto using sameSettings_refl.
    + run_fields.
      destruct Hpol as [Hpol | Hpol]; [left; exact Hpol |].
      destruct Herr as [Herr | Herr].
      * right. rewrite Hpol. exact Herr.
      * left. destruct Hwork as ((_ & _ & _ & Hc) & _). congruence.
    + rewrite eventsOf_nextStatement, Hevents.
      destruct (trim_decompose (buffer r ++ [u])) as (l & rr & Hl1 & Hr1 & Hdec).
      exists (text ++ l ++ trim (buffer r ++ [u]) ++ rr). split.
      * rewrite fmap_app. simpl. rewrite Hst. constructor; assumption.
      * run_fields. rewrite Htext, <- Hdec, app_assoc. reflexivity.
  - destruct (statementEvent_fields _ _ _ _ _ _ Hev)
      as (Hst & Hln & _ & Hsame' & Hrun').
    assert (Hown : OwnError C self0 ev).
    { eapply statementEvent_own; [| exact Hev]. apply Hwork. }
    destruct (Working_emit self0 s s' (buffered u r) ev Hsame' Hrun' Hown)
      as [Hwork' Hevents].
    { revert Hwork. apply Working_same; auto using sameSettings_refl. }
    rewrite eventsOf_buffered in Hevents.
    assert (Hcoe0 : continueOnError self0 = false)
      by (destruct Hwork as ((_ & _ & _ & Hc) & _); congruence).
    split; [exact Hwork' |]. split; [exact Hcoe0 |]. split.
    + exists (eventsOf r), ev.
      split; [exact Hevents |]. split; [| exact Herr].
      apply head_errors_nil.
      destruct Hwork as (_ & _ & (_ & _ & _ & <-) & _).
      destruct Hpol as [Hpol | Hpol]; [congruence | exact Hpol].
    + exists sf. run_fields.
      destruct Hsame' as (_ & _ & <- & _). exact Hparse.
  - pose proof (statementEvent_settings s (trim (buffer r ++ [u])) sf
                  (statementStartLine r)) as [Hsame' Hrun'].
    rewrite Hev in Hsame', Hrun'. cbn [fst] in Hsame', Hrun'.
    split.
    + split; [| split].
      * revert Hwork. apply Working_same; auto.
      * exact Hpol.
      * exists text. split; [exact Hwoven |]. run_fields.
        rewrite Htext, app_assoc. reflexivity.
    + exists sf. run_fields.
      destruct Hsame' as (_ & _ & <- & _). exact Hparse.
Qed.

Lemma scan_step (self0 s : StreamingExecutor) (consumed : jsstring)
  (u : Z) (r : Run) :
  ScanInv C self0 consumed s r ->
  match processChar C [u] s r with
  | Next s' r' => ScanInv C self0 (consumed ++ [u]) s' r'
  | stop => ExitInv C self0 (consumed ++ [u]) stop
  end.
Proof.
  intros Hinv.
  pose proof (step_invariant _ _ _ u _ _ Hinv (processChar_step C u s r))
    as H.
  destruct (processChar C [u] s r); exact H.
Qed.

Lemma ScanInv_await (self0 s : StreamingExecutor) (consumed : jsstring)
  (r : Run) (arrival : Arrival) :
  ScanInv C self0 consumed s r ->
  ScanInv C self0 consumed (await C arrival s) (consume (pulled arrival) r).
Proof.
  intros (Hwork & Hpol & text & Hwoven & Htext).
  destruct (Working_await self0 s r arrival Hwork) as [Hwork' Hev].
  pose proof Hwork as (_ & _ & (Hd & Hq & _) & _).
  destruct (consume_facts (pulled arrival) r Hd Hq)
    as (_ & _ & _ & Hb & _ & _ & _ & He & _).
  split; [exact Hwork' |]. rewrite He, Hev, Hb. split; [exact Hpol |].
  exists text. auto.
Qed.

Lemma newRun_invariant (self : StreamingExecutor) :
  ScanInv C self [] (set_running true self) newRun.
Proof.
  unfold ScanInv, Working, Consistent, sameSettings. cbn.
  repeat split; auto. exists []. split; [constructor | reflexivity].
Qed.

(** An invariant of the scan of a text, proved one code unit at a time;
    when the task leaves the loop early, it is at the end of a prefix of the
    text. *)
Lemma forUnits_scan
  (P : jsstring -> StreamingExecutor -> Run -> Prop)
  (R : jsstring -> Flow -> Prop) :
  (forall consumed u s r,
      P consumed s r ->
      match processChar C [u] s r with
      | Next s' r' => P (consumed ++ [u]) s' r'
      | stop => R (consumed ++ [u]) stop
      end) ->
  forall text consumed s r,
    P consumed s r ->
    match forUnits C text s r with
    | Next s' r' => P (consumed ++ text) s' r'
    | stop => exists pre post, text = pre ++ post /\ R (consumed ++ pre) stop
    end.
Proof.
  intros Hstep. induction text as [|u text IH]; intros consumed s r HP.
  - simpl. rewrite app_nil_r. exact HP.
  - cbn [forUnits]. specialize (Hstep consumed u s r HP).
    destruct (processChar C [u] s r) as [s1 r1 | s1 r1 | s1 r1 e1];
      try (exists [u], text; split; [reflexivity | exact Hstep]).
    specialize (IH _ _ _ Hstep).
    destruct (forUnits C text s1 r1) as [s2 r2 | s2 r2 | s2 r2 e2].
    + rewrite <- app_assoc in IH. exact IH.
    + destruct IH as (pre & post & -> & HQ).
      exists (u :: pre), post. split; [reflexivity |].
      rewrite <- app_assoc in HQ. exact HQ.
    + destruct IH as (pre & post & -> & HQ).
      exists (u :: pre), post. split; [reflexivity |].
      rewrite <- app_assoc in HQ. exact HQ.
Qed.

(** The same, for the loop over the arrivals of a stream: the invariant
    is also kept by the wait for a chunk. When the task goes through the
    whole stream, nothing is left unread. *)
Lemma forAwait_scan
  (P : jsstring -> StreamingExecutor -> Run -> Prop)
  (R : jsstring -> Flow -> Prop) :
  (forall consumed u s r,
      P consumed s r ->
      match processChar C [u] s r with
      | Next s' r' => P (consumed ++ [u]) s' r'
      | stop => R (consumed ++ [u]) stop
      end) ->
  (forall consumed arrival s r,
      P consumed s r ->
      P consumed (await C arrival s) (consume (pulled arrival) r)) ->
  forall stream consumed s r,
    P consumed s r ->
    match (forAwait C stream s r).1 with
    | Next s' r' =>
        P (consumed ++ sourceText stream) s' r'
        /\ (forAwait C stream s r).2 = []
    | stop =>
        exists pre post,
          sourceText stream = pre ++ post /\ R (consumed ++ pre) stop
    end.
Proof.
  intros Hstep Hwait.
  induction stream as [|arrival rest IH]; intros consumed s r HP.
  - cbn. rewrite app_nil_r. split; [exact HP | reflexivity].
  - cbn [forAwait]. rewrite forChars_codePoints.
    pose proof (forUnits_scan P R Hstep (chunk arrival) consumed _ _
                  (Hwait consumed arrival s r HP)) as Hchunk.
    unfold sourceText. cbn [fmap list_fmap concat].
    fold (sourceText rest).
    destruct (forUnits C (chunk arrival) (await C arrival s)
                (consume (pulled arrival) r))
      as [s1 r1 | s1 r1 | s1 r1 e1]; cbn [fst snd].
    + specialize (IH _ _ _ Hchunk).
      destruct (forAwait C rest s1 r1) as [[s2 r2 | s2 r2 | s2 r2 e2] unread];
        cbn [fst snd] in *.
      * rewrite app_assoc. exact IH.
      * destruct IH as (pre & post & -> & HR).
        exists (chunk arrival ++ pre), post.
        rewrite <- !app_assoc in *. auto.
      * destruct IH as (pre & post & -> & HR).
        exists (chunk arrival ++ pre), post.
        rewrite <- !app_assoc in *. auto.
    + destruct Hchunk as (pre & post & -> & HR).
      exists pre, (post ++ sourceText rest).
      rewrite <- app_assoc. auto.
    + destruct Hchunk as (pre & post & -> & HR).
      exists pre, (post ++ sourceText rest).
      rewrite <- app_assoc. auto.
Qed.

(** The invariants, for the loop over the stream. *)
Lemma forAwait_invariant (self : StreamingExecutor)
  (stream : list Arrival) :
  match (forAwait C stream (set_running true self) newRun).1 with
  | Next s r => ScanInv C self (sourceText stream) s r
  | stop => exists pre post,
      sourceText stream = pre ++ post /\ ExitInv C self pre stop
  end.
Proof.
  pose proof (forAwait_scan (ScanInv C self) (ExitInv C self)
                (fun consumed u s r => scan_step self s consumed u r)
                (fun consumed arrival s r H =>
                   ScanInv_await self s consumed r arrival H)
                stream [] _ _ (newRun_invariant self)) as H.
  destruct (forAwait C stream (set_running true self) newRun).1;
    [apply H | exact H | exact H].
Qed.

End RunFacts.

(** ** The end of the run *)

Section EndFacts.

Variable C : Collaborators.

(** The flush does nothing, or emits one event (the event of the
    residual text as a statement, or the incomplete-statement event), or
    throws out of the pipeline of the residual text, recording nothing. *)
Lemma flush_cases (self : StreamingExecutor) (r : Run) :
  (flush C self r = (self, r, None)
   /\ (trim (buffer r) = []
       \/ (continueOnError self = false /\ is_Some (finalError r))))
  \/ (nonEmpty (trim (buffer r)) = true
      /\ (continueOnError self = true \/ finalError r = None)
      /\ ((exists sf s' ev,
              parseStatement (createSourceFile C) (trim (buffer r))
                             (jsx self) = Complete sf
              /\ statementEvent C self (trim (buffer r)) sf
                                (statementStartLine r) = (s', Returned ev)
              /\ flush C self r = (s', emit ev r, None))
          \/ (exists sf s' e,
                 parseStatement (createSourceFile C) (trim (buffer r))
                                (jsx self) = Complete sf
                 /\ statementEvent C self (trim (buffer r)) sf
                                   (statementStartLine r) = (s', Thrown e)
                 /\ flush C self r = (s', r, Some e))
          \/ (parseStatement (createSourceFile C) (trim (buffer r))
                             (jsx self) = Incomplete
              /\ flush C self r
                 = (self,
                    emit (incompleteEvent (trim (buffer r))
                                          (statementStartLine r)) r,
                    None)))).
Proof.
  unfold flush.
  destruct (nonEmpty (trim (buffer r))) eqn:Hne; cbn [andb].
  2:{ left. split; [reflexivity |]. left. apply nonEmpty_false, Hne. }
  assert (Hguard :
            continueOnError self
            || negb (bool_decide (is_Some (finalError r))) = true ->
            continueOnError self = true \/ finalError r = None).
  { rewrite orb_true_iff, negb_true_iff, bool_decide_eq_false.
    intros [H | H]; [left; exact H | right].
    destruct (finalError r); [exfalso; apply H; eauto | reflexivity]. }
  destruct (continueOnError self
            || negb (bool_decide (is_Some (finalError r)))) eqn:Hg.
  2:{ left. split; [reflexivity |]. right.
      apply orb_false_iff in Hg as [Hc Hf]. split; [exact Hc |].
      apply negb_false_iff, bool_decide_eq_true in Hf. exact Hf. }
  specialize (Hguard eq_refl). right.
  split; [reflexivity |]. split; [exact Hguard |].
  destruct (parseStatement _ _ _) as [| sf] eqn:Hparse.
  - right. right. split; [reflexivity |].
    rewrite recordError_statementStartLine. unfold incompleteEvent.
    match goal with
    | |- (_, pushEvent (QEvent ?ev) _, _) = _ =>
        rewrite (pushEvent_recordError ev _ r eq_refl eq_refl)
    end.
    reflexivity.
  - destruct (transpile C self (trim (buffer r))) as [[code | msg] | e]
      eqn:Htr.
    + destruct (executeStatement C self code (extractBindingsFromAST sf)
                  (statementStartLine r)) as [s' [[lg err] | e]] eqn:Hexec.
      * left. exists sf, s', {| statement := trim (buffer r);
                                ev_line := statementStartLine r;
                                logs := lg; error := err |}.
        split; [reflexivity |].
        split; [unfold statementEvent; rewrite Htr, Hexec; reflexivity |].
        destruct err; reflexivity.
      * right. left. exists sf, s', e. split; [reflexivity |].
        split; [unfold statementEvent; rewrite Htr, Hexec; reflexivity |].
        reflexivity.
    + left.
      exists sf, self,
        {| statement := trim (buffer r); ev_line := statementStartLine r;
           logs := [];
           error := Some {| type := parse; thrown := newError msg;
                            message := msg;
                            line := statementStartLine r |} |}.
      split; [reflexivity |].
      split; [unfold statementEvent; rewrite Htr; reflexivity |].
      rewrite recordError_statementStartLine.
      match goal with
      | |- (_, pushEvent (QEvent ?ev) _, _) = _ =>
          rewrite (pushEvent_recordError ev _ r eq_refl eq_refl)
      end.
      reflexivity.
    + right. left. exists sf, self, e. split; [reflexivity |].
      split; [unfold statementEvent; rewrite Htr; reflexivity |].
      reflexivity.
Qed.

(** The [finally] block: the flag is lowered, the events are those
    recorded, the result is resolved with the accumulators, and the queue
    ends with [done]. *)
Lemma finally_facts (s : StreamingExecutor) (r : Run) :
  Consistent r ->
  resultPromise r = None ->
  (finally s r).1 = set_running false s
  /\ eventsOf (finally s r).2 = eventsOf r
  /\ resultPromise (finally s r).2
     = Some {| res_logs := allLogs r; res_error := finalError r |}
  /\ rejected (finally s r).2 = rejected r
  /\ eventQueue (finally s r).2 = eventQueue r ++ [QDone]
  /\ yielded (finally s r).2 = yielded r
  /\ generatorDone (finally s r).2 = false.
Proof.
  intros (Hd & Hq & _) Hres.
  unfold finally, resolveResult, pushEvent, set_eventQueue, eventsOf.
  cbn. rewrite Hres, Hd.
  destruct (eventGenerator_all (eventQueue r)
              {| statement := []; ev_line := 0; logs := [];
                 error := None |} Hq) as [_ Hdone].
  rewrite Hdone. repeat split.
Qed.

(** The same when an exception left the [try] block, and the promise of
    the task is rejected with it. *)
Lemma finallyRejected_facts (s : StreamingExecutor) (r : Run) (e : JsValue) :
  Consistent r ->
  resultPromise r = None ->
  (finallyRejected s r e).1 = set_running false s
  /\ eventsOf (finallyRejected s r e).2 = eventsOf r
  /\ resultPromise (finallyRejected s r e).2
     = Some {| res_logs := allLogs r; res_error := finalError r |}
  /\ rejected (finallyRejected s r e).2 = Some e
  /\ eventQueue (finallyRejected s r e).2 = eventQueue r ++ [QDone]
  /\ yielded (finallyRejected s r e).2 = yielded r
  /\ generatorDone (finallyRejected s r e).2 = false.
Proof.
  intros Hcons Hres.
  destruct (finally_facts s r Hcons Hres)
    as (H1 & H2 & H3 & _ & H5 & H6 & H7).
  unfold finallyRejected. destruct (finally s r) as [s' r'].
  cbn [fst snd] in *. unfold eventsOf in *. cbn.
  rewrite H7 in *. auto 10.
Qed.

(** The flush of a scan that reached the end of the source: it throws
    and records nothing, or it leaves the events in the order of the
    source. *)
Lemma flush_invariant (self0 s : StreamingExecutor) (source : jsstring)
  (r : Run) :
  ScanInv C self0 source s r ->
  match (flush C s r).2 with
  | None => EndInv C self0 source (flush C s r).1.1 (flush C s r).1.2
  | Some _ =>
      ThrowInv C self0 source (flush C s r).1.1 (flush C s r).1.2
      /\ (flush C s r).1.2 = r
  end.
Proof.
  intros Hinv. pose proof Hinv as (Hwork & Hpol & text & Hwoven & Htext).
  pose proof Hwork as (Hsame & Hrun & Hcons & Hres & Hrej & Hown).
  assert (Hstop : continueOnError self0 = false ->
                  errorsOf (eventsOf r) = []).
  { intros Hcoe. apply head_errors_nil.
    destruct Hcons as (_ & _ & _ & <-). destruct Hpol; congruence. }
  destruct (flush_cases s r) as
    [[Hflush Hwhy]
    | (Hne & Hguard &
       [ (sf & s' & ev & Hparse & Hev & Hflush)
       | [ (sf & s' & e & Hparse & Hev & Hflush) | (Hparse & Hflush) ]])];
    rewrite Hflush; cbn [fst snd].
  - assert (Hblank : trim (buffer r) = []).
    { destruct Hwhy as [H | [Hc [e He]]]; [exact H | exfalso].
      destruct Hsame as (_ & _ & _ & Hc0).
      destruct Hpol; congruence. }
    split; [exact Hwork |]. split.
    + intros Hcoe. exists (eventsOf r), [].
      rewrite app_nil_r. split; [reflexivity |].
      split; [auto | simpl; lia].
    + exists text, (buffer r). split; [exact Hwoven |].
      split; [apply trim_nil_blank, Hblank | exact Htext].
  - destruct (statementEvent_fields C _ _ _ _ _ _ Hev)
      as (Hst & _ & _ & Hs' & Hr').
    assert (Hown' : OwnError C self0 ev)
      by (eapply statementEvent_own; eassumption).
    destruct (Working_emit C self0 s s' r ev Hs' Hr' Hown' Hwork)
      as [Hwork' Hevents].
    split; [exact Hwork' |]. rewrite Hevents. split.
    + intros Hcoe. exists (eventsOf r), [ev].
      split; [reflexivity |]. split; [auto | simpl; lia].
    + destruct (trim_decompose (buffer r)) as (l & rr & Hl1 & Hr1 & Hdec).
      exists (text ++ l ++ trim (buffer r) ++ rr), []. split.
      * rewrite fmap_app. simpl. rewrite Hst. constructor; assumption.
      * split; [apply blank_nil |].
        rewrite app_nil_r, <- Hdec. exact Htext.
  - pose proof (statementEvent_settings C s (trim (buffer r)) sf
                  (statementStartLine r)) as [Hs' Hr'].
    rewrite Hev in Hs', Hr'. cbn [fst] in Hs', Hr'.
    split; [| reflexivity]. split.
    + split; [| split; [exact Hpol | exists text; auto]].
      revert Hwork. apply Working_same; auto.
    + exists sf. destruct Hs' as (_ & _ & <- & _). exact Hparse.
  - assert (Hown' : OwnError C self0
                      (incompleteEvent (trim (buffer r))
                                       (statementStartLine r)))
      by apply incompleteEvent_own.
    destruct (Working_emit C self0 s s r _ (sameSettings_refl s) eq_refl
                Hown' Hwork) as [Hwork' Hevents].
    split; [exact Hwork' |]. rewrite Hevents. split.
    + intros Hcoe. eexists (eventsOf r), [_].
      split; [reflexivity |]. split; [auto | simpl; lia].
    + destruct (trim_decompose (buffer r)) as (l & rr & Hl1 & Hr1 & Hdec).
      exists (text ++ l ++ trim (buffer r) ++ rr), []. split.
      * rewrite fmap_app. simpl. constructor; assumption.
      * split; [apply blank_nil |].
        rewrite app_nil_r, <- Hdec. exact Htext.
Qed.

(** Every run ends in the [finally] block, entered from a state in which
    the task was at work, with or without an exception on its way out; the
    exception is there exactly when the promise of the task is rejected. *)
Lemma runToEnd_finally (self : StreamingExecutor) (stream : list Arrival) :
  exists s r,
    Working C self s r
    /\ (((runToEnd C stream self).1 = finally s r
         /\ rejected (runToEnd C stream self).1.2 = None)
        \/ exists e,
             (runToEnd C stream self).1 = finallyRejected s r e
             /\ rejected (runToEnd C stream self).1.2 = Some e).
Proof.
  unfold runToEnd. rewrite background_outcome.
  pose proof (forAwait_invariant C self stream) as Hinv.
  assert (Hfin : forall s r,
             Working C self s r ->
             rejected (finally s r).2 = None).
  { intros s r (_ & _ & Hcons & Hres & Hrej & _).
    destruct (finally_facts s r Hcons Hres) as (_ & _ & _ & -> & _).
    exact Hrej. }
  assert (Hrej : forall s r e,
             Working C self s r ->
             rejected (finallyRejected s r e).2 = Some e).
  { intros s r e (_ & _ & Hcons & Hres & _).
    apply (finallyRejected_facts s r e Hcons Hres). }
  destruct (forAwait C stream (set_running true self) newRun).1
    as [s1 r1 | s1 r1 | s1 r1 e1]; cbn [outcomeOfFlow].
  - apply flush_invariant in Hinv.
    destruct (flush C s1 r1) as [[s2 r2] [e|]]; cbn [fst snd] in Hinv.
    + destruct Hinv as [((Hwork & _) & _) _]. exists s2, r2.
      split; [exact Hwork |]. right. exists e. auto.
    + destruct Hinv as (Hwork & _). exists s2, r2.
      split; [exact Hwork |]. left. auto.
  - destruct Hinv as (pre & post & _ & Hwork & _). exists s1, r1.
    split; [exact Hwork |]. left. auto.
  - destruct Hinv as (pre & post & _ & ((Hwork & _) & _)). exists s1, r1.
    split; [exact Hwork |]. right. exists e1. auto.
Qed.

(** What every run ends with. *)
Lemma run_summary (self : StreamingExecutor) (stream : list Arrival) :
  let s' := (runToEnd C stream self).1.1 in
  let r' := (runToEnd C stream self).1.2 in
  let events := eventsOf r' in
  resultPromise r'
  = Some {| res_logs := concat (logs <$> events);
            res_error := head (errorsOf events) |}
  /\ Forall (OwnError C self) events
  /\ _running s' = false
  /\ sameSettings self s'.
Proof.
  cbv zeta.
  destruct (runToEnd_finally self stream)
    as (s & r & Hwork & [[-> _] | (e & -> & _)]);
    destruct Hwork as (Hsame & Hrun & Hcons & Hres & _ & Hown);
    [destruct (finally_facts s r Hcons Hres) as (-> & -> & -> & _)
    | destruct (finallyRejected_facts s r e Hcons Hres)
        as (-> & -> & -> & _)];
    destruct Hcons as (_ & _ & <- & <-); auto.
Qed.

(** The policy of a run, and the order of its events. Under the
    stop-on-error policy at most the last event carries an error. When the
    promise of the task is not rejected, and the run continues on errors or
    no event carries an error, the task has read the whole stream and the
    source is the statements of the events in the order of the events, with
    white space only around them. *)
Lemma run_policy (self : StreamingExecutor) (stream : list Arrival) :
  let r' := (runToEnd C stream self).1.2 in
  let events := eventsOf r' in
  (continueOnError self = false ->
   exists init tail,
     events = init ++ tail /\ errorsOf init = []
     /\ (length tail <= 1)%nat)
  /\ (rejected r' = None ->
      continueOnError self = true \/ errorsOf events = [] ->
      InSourceOrder (statement <$> events) (sourceText stream)
      /\ (runToEnd C stream self).2 = []).
Proof.
  cbv zeta. unfold runToEnd.
  rewrite background_outcome, background_unread.
  pose proof (forAwait_invariant C self stream) as Hinv.
  pose proof (forAwait_scan C (fun _ _ _ => True) (fun _ _ => True)
                ltac:(intros; destruct (processChar _ _ _ _); exact I)
                ltac:(intros; exact I) stream [] (set_running true self)
                newRun I) as Hunread.
  destruct (forAwait C stream (set_running true self) newRun)
    as [[s1 r1 | s1 r1 | s1 r1 e1] unread]; cbn [fst snd outcomeOfFlow] in *.
  - destruct Hunread as [_ ->].
    pose proof (flush_invariant self s1 (sourceText stream) r1 Hinv) as Hend.
    destruct (flush C s1 r1) as [[s2 r2] [e|]]; cbn [fst snd] in Hend.
    + destruct Hend as [(Hscan & _) ->].
      destruct Hscan as ((_ & _ & Hcons & Hres & _) & Hpol & _).
      destruct (finallyRejected_facts s2 r1 e Hcons Hres)
        as (_ & -> & _ & -> & _).
      split; [| discriminate].
      intros Hcoe. exists (eventsOf r1), []. rewrite app_nil_r.
      split; [reflexivity |]. split; [| simpl; lia].
      apply head_errors_nil. destruct Hcons as (_ & _ & _ & <-).
      destruct Hinv as (((_ & _ & _ & Hc) & _) & _).
      destruct Hpol; congruence.
    + destruct Hend as ((_ & _ & Hcons & Hres & _) & Hstop & Horder).
      destruct (finally_facts s2 r2 Hcons Hres) as (_ & -> & _).
      split; [exact Hstop |]. auto.
  - destruct Hinv as (pre & post & _ & (_ & _ & Hcons & Hres & _) & Hcoe
                      & (init & last_ & Hevents & Hinit & Hlast) & _).
    destruct (finally_facts s1 r1 Hcons Hres) as (_ & -> & _).
    split.
    + intros _. exists init, [last_]. repeat split; try assumption.
      simpl. lia.
    + intros _ [Hc | Hnone]; [congruence | exfalso].
      rewrite Hevents, errorsOf_app, Hinit, errorsOf_single in Hnone.
      destruct Hlast as [e Hlast]. rewrite Hlast in Hnone. discriminate.
  - destruct Hinv as (pre & post & _ & (Hscan & _)).
    destruct Hscan as ((Hsame & _ & Hcons & Hres & _) & Hpol & _).
    destruct (finallyRejected_facts s1 r1 e1 Hcons Hres)
      as (_ & -> & _ & -> & _).
    split; [| discriminate].
    intros Hcoe. exists (eventsOf r1), []. rewrite app_nil_r.
    split; [reflexivity |]. split; [| simpl; lia].
    apply head_errors_nil. destruct Hcons as (_ & _ & _ & <-).
    destruct Hpol; congruence.
Qed.

End EndFacts.

(** ** The error policy *)

Section PolicyFacts.

Variable C : Collaborators.



End PolicyFacts.



(** C7: when the task is through with the stream and is left with a
    buffer whose trimmed text is not empty and which the parser judges
    incomplete, it emits exactly one more event: that text, the start line
    of the statement, no logs, and a parse error with the message
    "Incomplete statement" on that line. The result's error is that error
    unless an earlier error was recorded, and the flush leaves the context
    as it was. (A task that left its loop on an error holds a complete
    statement in its buffer, so it is never in this case.) *)
Theorem C7_incomplete_residual (C : Collaborators)
  (self : StreamingExecutor) (stream unread : list Arrival) (flow : Flow) :
  forAwait C stream (set_running true self) newRun = (flow, unread) ->
  let s := (flowState flow).1 in
  let r := (flowState flow).2 in
  nonEmpty (trim (buffer r)) = true ->
  parseStatement (createSourceFile C) (trim (buffer r)) (jsx s) = Incomplete ->
  let err := {| type := parse;
                thrown := newError (js "Incomplete statement");
                message := js "Incomplete statement";
                line := statementStartLine r |} in
  let ev := {| statement := trim (buffer r);
               ev_line := statementStartLine r;
               logs := []; error := Some err |} in
  let out := (runToEnd C stream self).1 in
  eventsOf out.2 = eventsOf r ++ [ev]
  /\ res_error <$> resultPromise out.2
     = Some (match finalError r with
             | Some earlier => Some earlier
             | None => Some err
             end)
  /\ (errorsOf (eventsOf r) = [] -> finalError r = None)
  /\ out.1 = set_running false s.
Proof.
  intros Hscan. cbv zeta.
  pose proof (forAwait_invariant C self stream) as Hinv.
  rewrite Hscan in Hinv. cbn [fst] in Hinv.
  destruct flow as [s r | s r | s r e]; cbn [flowState fst snd];
    intros Hne Hparse.
  2:{ destruct Hinv as (_ & _ & _ & _ & _ & _ & sf & Hsf). congruence. }
  2:{ destruct Hinv as (_ & _ & _ & _ & sf & Hsf). congruence. }
  destruct Hinv as ((Hsame & _ & Hcons & Hres & _) & Hpol & _).
  unfold runToEnd, background. rewrite Hscan.
  destruct (flush_cases C s r) as
    [[_ Hwhy]
    | (_ & _ &
       [ (sf & _ & _ & Hsf & _)
       | [ (sf & _ & _ & Hsf & _) | (_ & Hflush) ]])];
    try congruence.
  { exfalso. destruct Hwhy as [Hnil | [Hc [e He]]].
    - rewrite Hnil in Hne. discriminate.
    - destruct Hsame as (_ & _ & _ & Hc0). destruct Hpol; congruence. }
  rewrite Hflush. cbn [fst snd].
  destruct (Consistent_emit r (incompleteEvent (trim (buffer r))
                                 (statementStartLine r)) Hcons)
    as [Hcons' Hevents].
  destruct (finally_facts s _ Hcons') as (Hexec & Hgen' & Hprom' & _);
    [run_fields; exact Hres |].
  rewrite Hgen', Hprom', Hexec. split; [exact Hevents |].
  split; [| split; [| reflexivity]].
  - cbn. run_fields. reflexivity.
  - intros Hnone. destruct Hcons as (_ & _ & _ & ->). rewrite Hnone.
    reflexivity.
Qed.

Lemma C7_incomplete_residual_witness :
  let self := constructor (Some (Sample.options false)) in
  let stream := Sample.every 5 [js "log(1);"; [10; 32] ++ js "var x = "] in
  let out := (runToEnd Sample.collaborators stream self).1 in
  exists (s : StreamingExecutor) (r : Run),
    trim (buffer r) = js "var x =" /\ statementStartLine r = 2
    /\ eventsOf out.2
       = eventsOf r
         ++ [{| statement := trim (buffer r);
                ev_line := statementStartLine r; logs := [];
                error := Some {| type := parse;
                                 thrown := newError (js "Incomplete statement");
                                 message := js "Incomplete statement";
                                 line := statementStartLine r |} |}]
    /\ out.1 = set_running false s.
Proof.
  cbv zeta.
  destruct (forAwait Sample.collaborators
              (Sample.every 5 [js "log(1);"; [10; 32] ++ js "var x = "])
              (set_running true (constructor (Some (Sample.options false))))
              newRun) as [[s r | s r | s r e] unread] eqn:Hscan.
  - assert (Hbuf : trim (buffer r) = js "var x =").
    { change ((fun p => match p.1 with
                        | Next _ r => trim (buffer r)
                        | _ => []
                        end) (Next s r, unread) = js "var x =").
      rewrite <- Hscan. vm_compute. reflexivity. }
    assert (Hline : statementStartLine r = 2).
    { change ((fun p => match p.1 with
                        | Next _ r => statementStartLine r
                        | _ => 0
                        end) (Next s r, unread) = 2).
      rewrite <- Hscan. vm_compute. reflexivity. }
    assert (Hjsx : jsx s = false).
    { change ((fun p => match p.1 with
                        | Next s _ => jsx s
                        | _ => true
                        end) (Next s r, unread) = false).
      rewrite <- Hscan. vm_compute. reflexivity. }
    exists s, r. split; [exact Hbuf |]. split; [exact Hline |].
    destruct (C7_incomplete_residual Sample.collaborators _ _ _ _ Hscan)
      as (Hev & _ & _ & Hexec); cbn [flowState fst snd].
    + rewrite Hbuf. reflexivity.
    + rewrite Hbuf, Hjsx. vm_compute. reflexivity.
    + split; [exact Hev | exact Hexec].
  - exfalso.
    pose proof (f_equal (fun p => match p.1 with
                                  | Next _ _ => true
                                  | _ => false
                                  end) Hscan) as Hd.
    vm_compute in Hd. discriminate.
  - exfalso.
    pose proof (f_equal (fun p => match p.1 with
                                  | Next _ _ => true
                                  | _ => false
                                  end) Hscan) as Hd.
    vm_compute in Hd. discriminate.
Defined.

(** ** The statements of a source *)

Section CutFacts.

Variable C : Collaborators.

Lemma Unfinished_nil (jsx_ : bool) : Unfinished C jsx_ [].
Proof. intros before after_ H. destruct before; discriminate. Qed.

(** A buffer stays without a complete statement when the code unit
    appended is not a semicolon, or is one at which the buffer is judged
    incomplete. *)
Lemma Unfinished_snoc (jsx_ : bool) (b : jsstring) (u : Z) :
  Unfinished C jsx_ b ->
  (u = 59 ->
   parseStatement (createSourceFile C) (trim (b ++ [u])) jsx_ = Incomplete) ->
  Unfinished C jsx_ (b ++ [u]).
Proof.
  intros Hb Hu before after_ Heq.
  destruct after_ as [|x after_ _] using rev_ind.
  - apply app_inj_tail in Heq as [-> ->]. apply Hu. reflexivity.
  - change (before ++ 59 :: after_ ++ [x])
      with (before ++ (59 :: after_) ++ [x]) in Heq.
    rewrite app_assoc in Heq. apply app_inj_tail in Heq as [-> _].
    eapply Hb. reflexivity.
Qed.

(** One step keeps the statements cut so far in step with the events. *)
Lemma cut_step (self0 s : StreamingExecutor) (consumed : jsstring)
  (u : Z) (r : Run) :
  ScanInv C self0 consumed s r /\ CutInv C (jsx self0) consumed r ->
  match processChar C [u] s r with
  | Next s' r' =>
      ScanInv C self0 (consumed ++ [u]) s' r'
      /\ CutInv C (jsx self0) (consumed ++ [u]) r'
  | stop => ExitInv C self0 (consumed ++ [u]) stop
  end.
Proof.
  intros [Hscan (text & Htext & Hseg & Hunf)].
  pose proof (scan_step C _ _ _ u _ Hscan) as Hinv.
  pose proof (processChar_step C u s r) as Hstep.
  assert (Hjsx : jsx s = jsx self0).
  { destruct Hscan as (((_ & _ & Hj & _) & _) & _). symmetry. exact Hj. }
  pose proof Hscan as ((_ & _ & Hcons & _) & _).
  destruct (processChar C [u] s r) as [s1 r1 | s1 r1 | s1 r1 e1];
    try exact Hinv.
  split; [exact Hinv |].
  inversion Hstep as
    [ Hquiet | sf s' ev Hu Hparse Hev Herr | | ]; subst.
  - exists text. rewrite eventsOf_countLine, eventsOf_buffered.
    run_fields. split; [rewrite <- app_assoc; reflexivity |].
    split; [exact Hseg |]. apply Unfinished_snoc; [exact Hunf |].
    rewrite <- Hjsx. exact Hquiet.
  - destruct (statementEvent_fields C _ _ _ _ _ _ Hev) as (Hst & _).
    destruct (Consistent_emit (buffered 59 r) ev) as [_ Hevents];
      [apply Consistent_buffered; exact Hcons |].
    exists (text ++ buffer r ++ [59]).
    rewrite eventsOf_nextStatement, Hevents, eventsOf_buffered.
    run_fields. split; [rewrite <- app_assoc; reflexivity |].
    split; [| apply Unfinished_nil].
    rewrite fmap_app. cbn [fmap list_fmap]. rewrite Hst.
    apply (SegmentedSnoc C (jsx self0) _ text (buffer r) sf Hseg Hunf).
    rewrite <- Hjsx. exact Hparse.
Qed.

Lemma CutInv_await (jsx_ : bool) (consumed : jsstring) (r : Run) (n : nat) :
  Consistent r ->
  CutInv C jsx_ consumed r -> CutInv C jsx_ consumed (consume n r).
Proof.
  intros (Hd & Hq & _) (text & Htext & Hseg & Hunf).
  destruct (consume_facts n r Hd Hq) as (_ & _ & Hev & Hb & _).
  exists text. rewrite Hev, Hb. auto.
Qed.

(** When the promise of the task is not rejected, and the run continues
    on errors or no event carries an error, the statements of the events
    are the statements of the source, in order: each ends at the first
    semicolon at which the text since the previous statement is judged
    complete, and the last is what is left at the end of the stream, if it
    is not blank. *)
Lemma run_statements (self : StreamingExecutor) (stream : list Arrival) :
  let r' := (runToEnd C stream self).1.2 in
  rejected r' = None ->
  continueOnError self = true \/ errorsOf (eventsOf r') = [] ->
  StatementsOf C (jsx self) (statement <$> eventsOf r') (sourceText stream).
Proof.
  cbv zeta. unfold runToEnd. rewrite background_outcome.
  pose proof (forAwait_scan C
                (fun consumed s r =>
                   ScanInv C self consumed s r
                   /\ CutInv C (jsx self) consumed r)
                (ExitInv C self)
                (fun consumed u s r => cut_step self s consumed u r)) as Hscan.
  specialize (Hscan ltac:(
    intros consumed arrival s r [Hinv Hcut];
    split; [apply ScanInv_await; exact Hinv |];
    apply CutInv_await; [apply Hinv | exact Hcut])).
  specialize (Hscan stream [] (set_running true self) newRun).
  specialize (Hscan ltac:(
    split; [apply newRun_invariant |];
    exists []; cbn; repeat split;
    [constructor | apply Unfinished_nil])).
  destruct (forAwait C stream (set_running true self) newRun).1
    as [s1 r1 | s1 r1 | s1 r1 e1]; cbn [outcomeOfFlow].
  - destruct Hscan as [[Hinv (text & Htext & Hseg & Hunf)] _].
    cbn [app] in Htext.
    pose proof Hinv as ((Hsame & _ & Hcons & Hres & Hrej & _) & Hpol & _).
    destruct (flush_cases C s1 r1) as
      [[Hflush Hwhy]
      | (Hne & _ &
         [ (sf & s' & ev & Hparse & Hev & Hflush)
         | [ (sf & s' & e & Hparse & Hev & Hflush) | (Hparse & Hflush) ]])];
      rewrite Hflush.
    + destruct (finally_facts s1 r1 Hcons Hres) as (_ & -> & _).
      intros _ _. exists (statement <$> eventsOf r1), text, (buffer r1).
      split; [exact Htext |]. split; [exact Hseg |].
      split; [exact Hunf |].
      assert (Hblank : trim (buffer r1) = []).
      { destruct Hwhy as [H | [Hc [e He]]]; [exact H | exfalso].
        destruct Hsame as (_ & _ & _ & Hc0). destruct Hpol; congruence. }
      rewrite Hblank, app_nil_r. reflexivity.
    + destruct (Consistent_emit r1 ev Hcons) as [Hcons' Hevents].
      destruct (finally_facts s' _ Hcons') as (_ & -> & _);
        [run_fields; exact Hres |].
      destruct (statementEvent_fields C _ _ _ _ _ _ Hev) as (Hst & _).
      intros _ _. exists (statement <$> eventsOf r1), text, (buffer r1).
      split; [exact Htext |]. split; [exact Hseg |].
      split; [exact Hunf |].
      rewrite Hevents, fmap_app, Hne. cbn [fmap list_fmap]. rewrite Hst.
      reflexivity.
    + destruct (finallyRejected_facts s' r1 e Hcons Hres)
        as (_ & _ & _ & -> & _).
      discriminate.
    + destruct (Consistent_emit r1 (incompleteEvent (trim (buffer r1))
                                      (statementStartLine r1)) Hcons)
        as [Hcons' Hevents].
      destruct (finally_facts s1 _ Hcons') as (_ & -> & _);
        [run_fields; exact Hres |].
      intros _ _. exists (statement <$> eventsOf r1), text, (buffer r1).
      split; [exact Htext |]. split; [exact Hseg |].
      split; [exact Hunf |].
      rewrite Hevents, fmap_app, Hne. reflexivity.
  - destruct Hscan as (pre & post & _ & (_ & _ & Hcons & Hres & _) & Hcoe
                       & (init & last_ & Hevents & Hinit & Hlast) & _).
    destruct (finally_facts s1 r1 Hcons Hres) as (_ & -> & _).
    intros _ [Hc | Hnone]; [congruence | exfalso].
    rewrite Hevents, errorsOf_app, Hinit, errorsOf_single in Hnone.
    destruct Hlast as [e Hlast]. rewrite Hlast in Hnone. discriminate.
  - destruct Hscan as (pre & post & _ & (((_ & _ & Hcons & Hres & _) & _) & _)).
    destruct (finallyRejected_facts s1 r1 e1 Hcons Hres)
      as (_ & _ & _ & -> & _).
    discriminate.
Qed.

End CutFacts.

(** ** The statements of a source, computed *)

Section SegmentFacts.

Variable C : Collaborators.

(** Text without a complete statement is left as it is. *)
Lemma segments_unfinished (jsx_ : bool) (text : jsstring) :
  forall pending_,
    Unfinished C jsx_ (pending_ ++ text) ->
    segments C jsx_ text pending_ = ([], pending_ ++ text).
Proof.
  induction text as [|u text IH]; intros pending_ Hunf.
  - cbn. rewrite app_nil_r. reflexivity.
  - cbn [segments].
    assert (Hnext : segments C jsx_ text (pending_ ++ [u])
                    = ([], pending_ ++ u :: text)).
    { rewrite IH; rewrite <- app_assoc; [reflexivity | exact Hunf]. }
    destruct (bool_decide (u = 59)) eqn:Hu; [| exact Hnext].
    apply bool_decide_eq_true in Hu. subst u.
    rewrite (Hunf pending_ text eq_refl). exact Hnext.
Qed.

(** The first statement of a text is cut at the first semicolon that
    completes one. *)
Lemma segments_first (jsx_ : bool) (before rest : jsstring)
  (sourceFile : SourceFile) :
  forall pending_,
    Unfinished C jsx_ (pending_ ++ before) ->
    parseStatement (createSourceFile C) (trim (pending_ ++ before ++ [59]))
                   jsx_ = Complete sourceFile ->
    segments C jsx_ (before ++ 59 :: rest) pending_
    = (trim (pending_ ++ before ++ [59]) :: (segments C jsx_ rest []).1,
       (segments C jsx_ rest []).2).
Proof.
  induction before as [|u before IH]; intros pending_ Hunf Hparse.
  - cbn [app segments]. rewrite bool_decide_eq_true_2 by reflexivity.
    cbn [app] in Hparse. rewrite Hparse. reflexivity.
  - cbn [app segments].
    assert (Hnext : segments C jsx_ (before ++ 59 :: rest) (pending_ ++ [u])
                    = (trim (pending_ ++ (u :: before) ++ [59])
                         :: (segments C jsx_ rest []).1,
                       (segments C jsx_ rest []).2)).
    { rewrite IH with (pending_ := pending_ ++ [u]).
      - rewrite <- !app_assoc. reflexivity.
      - rewrite <- app_assoc. exact Hunf.
      - rewrite <- app_assoc. exact Hparse. }
    destruct (bool_decide (u = 59)) eqn:Hu; [| exact Hnext].
    apply bool_decide_eq_true in Hu. subst u.
    rewrite (Hunf pending_ before eq_refl). exact Hnext.
Qed.

Lemma segments_segmented (jsx_ : bool) (stmts : list jsstring)
  (text : jsstring) :
  Segmented C jsx_ stmts text ->
  forall rest,
    segments C jsx_ (text ++ rest) []
    = (stmts ++ (segments C jsx_ rest []).1, (segments C jsx_ rest []).2).
Proof.
  induction 1 as [| stmts text before sf Hseg IH Hunf Hparse]; intros rest.
  - cbn [app]. destruct (segments C jsx_ rest []). reflexivity.
  - rewrite <- !app_assoc, IH. cbn [app].
    rewrite (segments_first jsx_ before rest sf [] Hunf Hparse).
    reflexivity.
Qed.

(** The statements of a source are determined by the source. *)
Lemma StatementsOf_computed (jsx_ : bool) (stmts : list jsstring)
  (source : jsstring) :
  StatementsOf C jsx_ stmts source -> stmts = statementsOf C jsx_ source.
Proof.
  intros (cut & text & tail & -> & Hseg & Hunf & ->).
  unfold statementsOf.
  rewrite (segments_segmented jsx_ cut text Hseg tail).
  rewrite (segments_unfinished jsx_ tail [] Hunf).
  cbn [fst snd app]. rewrite app_nil_r. reflexivity.
Qed.

End SegmentFacts.

(** C8: a run in which no statement fails (no event carries an error and
    the promise of the task is not rejected) has one event for each
    statement of its source, in source order: the source is cut at the
    first semicolon at which the text since the previous statement is
    judged complete, then at the next such semicolon, and so on; what is
    left at the end of the stream is the last statement if it is not blank;
    and the statements of the events are these texts, trimmed, in this
    order, which is the list [statementsOf] computes from the source.  So
    the source is the statements of the events with white space only around
    them, and the result's logs are the events' logs, concatenated in that
    order. *)
Theorem C8_order_preserved (C : Collaborators) (self : StreamingExecutor)
  (stream : list Arrival) :
  let r' := (runToEnd C stream self).1.2 in
  let events := eventsOf r' in
  errorsOf events = [] ->
  rejected r' = None ->
  StatementsOf C (jsx self) (statement <$> events) (sourceText stream)
  /\ statement <$> events = statementsOf C (jsx self) (sourceText stream)
  /\ InSourceOrder (statement <$> events) (sourceText stream)
  /\ resultPromise r'
     = Some {| res_logs := concat (logs <$> events); res_error := None |}.
Proof.
  cbv zeta. intros Hnone Hrej.
  split; [apply run_statements; auto |].
  split; [apply StatementsOf_computed, run_statements; auto |].
  destruct (run_policy C self stream) as (_ & Horder).
  destruct (Horder Hrej (or_intror Hnone)) as [Hsrc _].
  split; [exact Hsrc |].
  destruct (run_summary C self stream) as (Hres & _).
  rewrite Hres, Hnone. reflexivity.
Qed.

Lemma C8_order_preserved_witness :
  let self := constructor (Some (Sample.options false)) in
  let stream := Sample.every 5 [js "var x = 1; lo";
                                js "g(x);" ++ [10] ++ js "log(";
                                [];
                                [34] ++ js ";" ++ [34] ++ js "); await pause();"] in
  let r' := (runToEnd Sample.collaborators stream self).1.2 in
  let events := eventsOf r' in
  statement <$> events
  = [js "var x = 1;"; js "log(x);"; js "log(" ++ [34] ++ js ";" ++ [34]
                                     ++ js ");"; js "await pause();"]
  /\ StatementsOf Sample.collaborators (jsx self) (statement <$> events)
                  (sourceText stream)
  /\ statement <$> events
     = statementsOf Sample.collaborators (jsx self) (sourceText stream)
  /\ InSourceOrder (statement <$> events) (sourceText stream)
  /\ resultPromise r'
     = Some {| res_logs := concat (logs <$> events); res_error := None |}.
Proof.
  cbv zeta. split; [vm_compute; reflexivity |].
  apply C8_order_preserved; vm_compute; reflexivity.
Defined.

(** ** Chunking *)

Section ChunkFacts.

Variable C : Collaborators.














End ChunkFacts.




(** ** Failures that cannot be reported *)

(** C5: the code departs from the claim at a statement that fails with a
    value the host cannot convert to a string.  The run continues on
    errors, and its source has four statements, one on each line, that all
    fail; the third throws an object whose [toString] is not callable.  The
    first two have their events, each with its own error, and the result's
    error is the first of them.  For the third, [String(error)] throws
    inside the [catch] block of [executeStatement]: the promise of the
    background task is rejected with the host's [TypeError], the third
    statement has no event, and the fourth is never attempted. *)
Theorem C5_unprintable_failure_ends_the_run :
  let self := constructor (Some (Sample.options true)) in
  let failing := js "throw new Error('e');" in
  let unprintable := js "throw { toString: null };" in
  let source := failing ++ [10] ++ failing ++ [10] ++ unprintable ++ [10]
                ++ failing in
  let out := (runToEnd Sample.collaborators (Sample.promptly [source]) self).1
  in
  let none := {| variables := []; functions := []; classes := [] |} in
  continueOnError self = true
  /\ StatementsOf Sample.collaborators (jsx self)
                  [failing; failing; unprintable; failing] source
  /\ completion (scriptOf Sample.collaborators self unprintable none)
     = Raced (Rejects Sample.unprintable)
  /\ (executeStatement Sample.collaborators self unprintable none 3).2
     = Thrown Sample.conversionError
  /\ Sample.summary <$> eventsOf out.2
     = [(failing, 1, [], Some (runtime, js "e"));
        (failing, 2, [], Some (runtime, js "e"))]
  /\ rejected out.2 = Some Sample.conversionError
  /\ (fun res => (fun e => (type e, message e, line e)) <$> res_error res)
       <$> resultPromise out.2
     = Some (Some (runtime, js "e", 1))
  /\ _running out.1 = false.
Proof.
  cbv zeta. split; [reflexivity |]. split.
  { exists [js "throw new Error('e');"; js "throw new Error('e');";
            js "throw { toString: null };"; js "throw new Error('e');"],
      (js "throw new Error('e');" ++ [10] ++ js "throw new Error('e');"
       ++ [10] ++ js "throw { toString: null };" ++ [10]
       ++ js "throw new Error('e');"), [].
    split; [vm_compute; reflexivity |].
    split; [| split; [apply Unfinished_nil | reflexivity]].
    assert (Hunf : forall b : jsstring,
               Sample.countUnit 59 b = 0%nat ->
               Unfinished Sample.collaborators false b).
    { intros b Hb before after_ ->. exfalso.
      induction before as [|x before IH]; cbn in Hb.
      - discriminate.
      - destruct (bool_decide (59 = x)); [discriminate | auto]. }
    assert (Hnext : forall stmts text before stmt,
               Segmented Sample.collaborators false stmts text ->
               Sample.countUnit 59 before = 0%nat ->
               trim (before ++ [59]) = stmt ->
               parseStatement Sample.sampleCreateSourceFile stmt false
               = Complete (Sample.sampleCreateSourceFile stmt false) ->
               Segmented Sample.collaborators false (stmts ++ [stmt])
                         (text ++ before ++ [59])).
    { intros stmts text before stmt Hseg Hsemi <- Hparse.
      exact (SegmentedSnoc Sample.collaborators false stmts text before _
               Hseg (Hunf before Hsemi) Hparse). }
    pose proof (SegmentedNil Sample.collaborators false) as H0.
    pose proof (Hnext _ _ (js "throw new Error('e')")
                  (js "throw new Error('e');") H0 eq_refl eq_refl eq_refl)
      as H1.
    pose proof (Hnext _ _ ([10] ++ js "throw new Error('e')")
                  (js "throw new Error('e');") H1 eq_refl eq_refl eq_refl)
      as H2.
    pose proof (Hnext _ _ ([10] ++ js "throw { toString: null }")
                  (js "throw { toString: null };") H2 eq_refl eq_refl
                  eq_refl) as H3.
    pose proof (Hnext _ _ ([10] ++ js "throw new Error('e')")
                  (js "throw new Error('e');") H3 eq_refl eq_refl eq_refl)
      as H4.
    exact H4. }
  repeat split; vm_compute; reflexivity.
Qed.

(** ** Line numbers *)

Section LineFacts.

Variable C : Collaborators.

Lemma leadingBlank_snoc (b : jsstring) (u : Z) :
  isWhiteSpace u = false -> leadingBlank (b ++ [u]) = leadingBlank b.
Proof.
  intros Hu. rewrite leadingBlank_app. cbn [leadingBlank]. rewrite Hu.
  destruct (bool_decide (trimStart b = [])) eqn:Hb; [| reflexivity].
  apply bool_decide_eq_true in Hb. rewrite app_nil_r.
  symmetry. apply leadingBlank_of_blank, trimStart_nil_blank, Hb.
Qed.

(** The statement of a buffer, put after the statements located so
    far. *)
Lemma Located_buffer (items : list (jsstring * Z)) (text b : jsstring)
  (ln : Z) :
  Located items text ->
  nonEmpty (trim b) = true ->
  ln = 1 + countNewlines (text ++ leadingBlank b) ->
  Located (items ++ [(trim b, ln)]) (text ++ b).
Proof.
  intros Hloc Hne ->.
  destruct (trim_decompose_leading b) as (rr & Hrr & Hdec).
  rewrite Hdec at 3. constructor.
  - exact Hloc.
  - apply leadingBlank_blank.
  - exact Hrr.
  - intros Hnil. rewrite Hnil in Hne. discriminate.
  - apply trimStart_trim.
Qed.

Lemma located_snoc (events : list ExecutionEvent) (ev : ExecutionEvent) :
  located (events ++ [ev]) = located events ++ [(statement ev, ev_line ev)].
Proof. unfold located. rewrite fmap_app. reflexivity. Qed.

(** The line counters after a code unit that completes no statement. *)
Lemma LineInv_quiet (consumed : jsstring) (u : Z) (r : Run) :
  LineInv consumed r ->
  LineInv (consumed ++ [u]) (countLine u (buffered u r)).
Proof.
  intros (text & Htext & Hln & Hssl & Hloc).
  exists text. rewrite eventsOf_countLine, eventsOf_buffered.
  run_fields. rewrite Hln.
  split; [rewrite Htext, <- app_assoc; reflexivity |]. split.
  { rewrite !countNewlines_app. cbn [countNewlines]. lia. }
  split; [| exact Hloc].
  destruct (bool_decide (u = 10)) eqn:Hu10; cbn [andb].
  - apply bool_decide_eq_true in Hu10. subst u.
    destruct (bool_decide (trim (buffer r ++ [10]) = [])) eqn:Hblank.
    + apply bool_decide_eq_true, trim_nil_blank in Hblank.
      rewrite (leadingBlank_of_blank _ Hblank), Htext.
      rewrite !countNewlines_app. cbn [countNewlines].
      rewrite bool_decide_eq_true_2 by reflexivity. lia.
    + apply bool_decide_eq_false in Hblank.
      rewrite Hssl, leadingBlank_app.
      destruct (bool_decide (trimStart (buffer r) = [])) eqn:Hb0;
        [| reflexivity].
      exfalso. apply bool_decide_eq_true in Hb0.
      apply Hblank, blank_trim_nil, blank_app.
      * apply trimStart_nil_blank, Hb0.
      * reflexivity.
  - apply bool_decide_eq_false in Hu10.
    rewrite Hssl, leadingBlank_app.
    destruct (bool_decide (trimStart (buffer r) = [])) eqn:Hb0;
      [| reflexivity].
    apply bool_decide_eq_true, trimStart_nil_blank in Hb0.
    rewrite (leadingBlank_of_blank _ Hb0). cbn [leadingBlank].
    destruct (isWhiteSpace u); [| rewrite app_nil_r; reflexivity].
    rewrite !countNewlines_app. cbn [countNewlines].
    rewrite bool_decide_eq_false_2 by exact Hu10. lia.
Qed.

(** The events located after the event of the buffer's statement. *)
Lemma Located_emit (consumed b : jsstring) (r : Run) (ev : ExecutionEvent) :
  Consistent r ->
  LineInv consumed r ->
  nonEmpty (trim b) = true ->
  leadingBlank b = leadingBlank (buffer r) ->
  statement ev = trim b -> ev_line ev = statementStartLine r ->
  exists text,
    consumed = text ++ buffer r
    /\ lineNumber r = 1 + countNewlines consumed
    /\ Located (located (eventsOf r ++ [ev])) (text ++ b).
Proof.
  intros Hcons (text & Htext & Hln & Hssl & Hloc) Hne Hlead Hst Hevl.
  exists text. split; [exact Htext |]. split; [exact Hln |].
  rewrite located_snoc, Hst, Hevl.
  apply Located_buffer; [exact Hloc | exact Hne |].
  rewrite Hssl, Hlead. reflexivity.
Qed.

Lemma line_step (self0 s : StreamingExecutor) (consumed : jsstring)
  (u : Z) (r : Run) :
  ScanInv C self0 consumed s r /\ LineInv consumed r ->
  match processChar C [u] s r with
  | Next s' r' =>
      ScanInv C self0 (consumed ++ [u]) s' r' /\ LineInv (consumed ++ [u]) r'
  | Return s' r' =>
      HaltInv C self0 s' r'
      /\ Located (located (eventsOf r')) (consumed ++ [u])
  | Throw s' r' e =>
      ThrowInv C self0 (consumed ++ [u]) s' r'
      /\ exists text rest,
           consumed ++ [u] = text ++ rest
           /\ Located (located (eventsOf r')) text
  end.
Proof.
  intros [Hscan Hline].
  pose proof (scan_step C _ _ _ u _ Hscan) as Hinv.
  pose proof (processChar_step C u s r) as Hstep.
  pose proof Hscan as ((_ & _ & Hcons & _) & _).
  destruct (processChar C [u] s r) as [s1 r1 | s1 r1 | s1 r1 e1];
    (split; [exact Hinv |]).
  - inversion Hstep as
      [ Hquiet | sf s' ev Hu Hparse Hev Herr | | ]; subst.
    + apply LineInv_quiet, Hline.
    + destruct (statementEvent_fields C _ _ _ _ _ _ Hev) as (Hst & Hevl & _).
      destruct (Consistent_emit (buffered 59 r) ev) as [_ Hevents];
        [apply Consistent_buffered; exact Hcons |].
      destruct (Located_emit consumed (buffer r ++ [59]) r ev Hcons Hline)
        as (text & Htext & Hln & Hloc); auto.
      { apply trim_semicolon_nonEmpty. }
      { apply leadingBlank_snoc, semicolon_not_blank. }
      exists (text ++ buffer r ++ [59]).
      rewrite eventsOf_nextStatement, Hevents, eventsOf_buffered.
      run_fields. rewrite Hln.
      split; [rewrite Htext, <- app_assoc; reflexivity |]. split.
      { rewrite !countNewlines_app. cbn [countNewlines].
        rewrite bool_decide_eq_false_2 by lia. lia. }
      split; [| exact Hloc].
      rewrite Htext, !countNewlines_app. cbn [leadingBlank countNewlines].
      rewrite bool_decide_eq_false_2 by lia. lia.
  - inversion Hstep as [ | | sf s' ev Hu Hparse Hev Herr Hcoe | ]; subst.
    destruct (statementEvent_fields C _ _ _ _ _ _ Hev) as (Hst & Hevl & _).
    destruct (Consistent_emit (buffered 59 r) ev) as [_ Hevents];
      [apply Consistent_buffered; exact Hcons |].
    destruct (Located_emit consumed (buffer r ++ [59]) r ev Hcons Hline)
      as (text & Htext & Hln & Hloc); auto.
    { apply trim_semicolon_nonEmpty. }
    { apply leadingBlank_snoc, semicolon_not_blank. }
    rewrite Hevents, eventsOf_buffered, Htext, <- app_assoc. exact Hloc.
  - inversion Hstep as [ | | | sf s' e Hu Hparse Hev ]; subst.
    destruct Hline as (text & Htext & _ & _ & Hloc).
    exists text, (buffer r ++ [59]).
    rewrite eventsOf_buffered, Htext, <- app_assoc. auto.
Qed.

Lemma LineInv_await (consumed : jsstring) (r : Run) (n : nat) :
  Consistent r -> LineInv consumed r -> LineInv consumed (consume n r).
Proof.
  intros (Hd & Hq & _) (text & Htext & Hln & Hssl & Hloc).
  destruct (consume_facts n r Hd Hq) as (_ & _ & Hev & Hb & Hl & Hs & _).
  exists text. rewrite Hev, Hb, Hl, Hs. auto.
Qed.

Lemma newRun_lines : LineInv [] newRun.
Proof.
  exists []. cbn. repeat split. constructor.
Qed.

(** The events of a run are located in a prefix of its source: the whole
    of it, when the task fell out of its loop and its flush did not
    throw. *)
Lemma runToEnd_located (self : StreamingExecutor) (stream : list Arrival) :
  exists woven rest,
    sourceText stream = woven ++ rest
    /\ Located (located (eventsOf (runToEnd C stream self).1.2)) woven.
Proof.
  unfold runToEnd. rewrite background_outcome.
  pose proof (forAwait_scan C
                (fun consumed s r =>
                   ScanInv C self consumed s r /\ LineInv consumed r)
                (fun consumed f =>
                   ExitInv C self consumed f
                   /\ exists text rest,
                        consumed = text ++ rest
                        /\ Located (located (eventsOf (flowState f).2))
                                   text)) as Hscan.
  specialize (Hscan ltac:(
    intros consumed u s r Hinv;
    pose proof (line_step self s consumed u r Hinv) as Hstep;
    destruct (processChar C [u] s r) as [s1 r1 | s1 r1 | s1 r1 e1];
    [ exact Hstep
    | destruct Hstep as [Hhalt Hloc]; split; [exact Hhalt |];
      exists (consumed ++ [u]), []; rewrite app_nil_r; auto
    | exact Hstep ])).
  specialize (Hscan ltac:(
    intros consumed arrival s r [Hinv Hline];
    split; [apply ScanInv_await; exact Hinv |];
    apply LineInv_await; [apply Hinv | exact Hline])).
  specialize (Hscan stream [] (set_running true self) newRun
                    (conj (newRun_invariant C self) newRun_lines)).
  destruct (forAwait C stream (set_running true self) newRun).1
    as [s1 r1 | s1 r1 | s1 r1 e1]; cbn [outcomeOfFlow].
  - destruct Hscan as [[Hinv Hline] _]. cbn [app] in Hline.
    pose proof Hinv as ((_ & _ & Hcons & Hres & _) & _).
    pose proof Hline as (text & Htext & _ & _ & Hloc).
    destruct (flush_cases C s1 r1) as
      [[Hflush _]
      | (Hne & _ &
         [ (sf & s' & ev & Hparse & Hev & Hflush)
         | [ (sf & s' & e & Hparse & Hev & Hflush) | (Hparse & Hflush) ]])];
      rewrite Hflush.
    + destruct (finally_facts s1 r1 Hcons Hres) as (_ & -> & _).
      exists text, (buffer r1). auto.
    + destruct (Consistent_emit r1 ev Hcons) as [Hcons' Hevents].
      destruct (finally_facts s' _ Hcons') as (_ & -> & _);
        [run_fields; exact Hres |].
      destruct (statementEvent_fields C _ _ _ _ _ _ Hev) as (Hst & Hevl & _).
      destruct (Located_emit _ (buffer r1) r1 ev Hcons Hline)
        as (text' & Htext' & _ & Hloc'); auto.
      exists (text' ++ buffer r1), []. rewrite app_nil_r, Hevents. auto.
    + destruct (finallyRejected_facts s' r1 e Hcons Hres) as (_ & -> & _).
      exists text, (buffer r1). auto.
    + destruct (Consistent_emit r1 (incompleteEvent (trim (buffer r1))
                                      (statementStartLine r1)) Hcons)
        as [Hcons' Hevents].
      destruct (finally_facts s1 _ Hcons') as (_ & -> & _);
        [run_fields; exact Hres |].
      destruct (Located_emit _ (buffer r1) r1
                  (incompleteEvent (trim (buffer r1))
                                   (statementStartLine r1)) Hcons Hline)
        as (text' & Htext' & _ & Hloc'); auto.
      exists (text' ++ buffer r1), []. rewrite app_nil_r, Hevents. auto.
  - destruct Hscan as (pre & post & Hsrc & Hhalt & text & rest & Hpre & Hloc).
    cbn [app flowState snd] in *.
    destruct Hhalt as ((_ & _ & Hcons & Hres & _) & _).
    destruct (finally_facts s1 r1 Hcons Hres) as (_ & -> & _).
    exists text, (rest ++ post). rewrite app_assoc, <- Hpre. auto.
  - destruct Hscan as (pre & post & Hsrc & Hthrow & text & rest & Hpre & Hloc).
    cbn [app flowState snd] in *.
    destruct Hthrow as (((_ & _ & Hcons & Hres & _) & _) & _).
    destruct (finallyRejected_facts s1 r1 e1 Hcons Hres) as (_ & -> & _).
    exists text, (rest ++ post). rewrite app_assoc, <- Hpre. auto.
Qed.

End LineFacts.

Lemma Located_lines_positive (items : list (jsstring * Z)) (text : jsstring) :
  Located items text -> Forall (fun item => 1 <= item.2) items.
Proof.
  induction 1 as [| items text l s r Hloc IH Hl Hr Hs Ht]; [constructor |].
  apply Forall_app. split; [exact IH |]. constructor; [| constructor].
  cbn. pose proof (countNewlines_nonneg (text ++ l)). lia.
Qed.

(** X1: the line of an event is the line its statement starts on. The
    statements of the events occur in the source in the order of the
    events, with white space only around them, up to the point the run got
    to; each begins with a code unit that is not white space, and the line
    of its event is one more than the number of newlines of the source
    before that code unit (so it is at least 1). *)
Theorem X1_event_line_is_start_line (C : Collaborators)
  (self : StreamingExecutor) (stream : list Arrival) :
  let events := eventsOf (runToEnd C stream self).1.2 in
  (exists woven rest,
      sourceText stream = woven ++ rest /\ Located (located events) woven)
  /\ Forall (fun ev => 1 <= ev_line ev) events.
Proof.
  cbv zeta.
  destruct (runToEnd_located C self stream) as (woven & rest & Hsrc & Hloc).
  split; [exists woven, rest; split; assumption |].
  apply Located_lines_positive in Hloc. unfold located in Hloc.
  rewrite Forall_fmap in Hloc. exact Hloc.
Qed.

(** ** The run as a whole *)

Section WholeRunFacts.

Variable C : Collaborators.

Lemma queue_of_events (q : list QueuedEvent) :
  Forall (fun item => item <> QDone) q -> q = QEvent <$> eventGenerator q.
Proof.
  induction q as [|[ev|] q IH]; intros Hq; [reflexivity | |].
  - inversion Hq; subst. cbn. f_equal. apply IH. assumption.
  - inversion Hq; subst. congruence.
Qed.

(** A generator that has returned does nothing more. *)
Lemma consume_done (n : nat) (r : Run) :
  generatorDone r = true -> consume n r = r.
Proof.
  induction n as [|n IH]; intros Hd; [reflexivity |].
  cbn [consume]. unfold generatorNext. rewrite Hd. apply IH, Hd.
Qed.

(** A consumer that calls [next()] often enough gets every queued event,
    in order, and then the end of the generator. *)
Lemma consume_drain (unread : list ExecutionEvent) :
  forall (r : Run) (n : nat),
    generatorDone r = false ->
    eventQueue r = (QEvent <$> unread) ++ [QDone] ->
    (length unread < n)%nat ->
    yielded (consume n r) = yielded r ++ unread
    /\ eventQueue (consume n r) = []
    /\ generatorDone (consume n r) = true
    /\ resultPromise (consume n r) = resultPromise r
    /\ rejected (consume n r) = rejected r.
Proof.
  induction unread as [|ev unread IH]; intros r n Hd Hq Hn.
  - destruct n as [|n]; [cbn in Hn; lia |].
    cbn [consume]. unfold generatorNext. rewrite Hd, Hq. cbn [fmap list_fmap app].
    rewrite consume_done by reflexivity. cbn. rewrite app_nil_r. auto.
  - destruct n as [|n]; [cbn in Hn; lia |].
    cbn [consume]. unfold generatorNext. rewrite Hd, Hq.
    cbn [fmap list_fmap app].
    destruct (IH (set_yielded (yielded r ++ [ev])
                    (set_eventQueue ((QEvent <$> unread) ++ [QDone]) r)) n)
      as (Hy & Hrest); [exact Hd | reflexivity | cbn in Hn; lia |].
    rewrite Hy. cbn. rewrite <- app_assoc. exact (conj eq_refl Hrest).
Qed.

(** A property of events that holds of the event of every statement the
    parser judged complete, and of the event of every incomplete residual
    text, holds of every event of every run. *)
Lemma run_events_forall (self : StreamingExecutor)
  (P : ExecutionEvent -> Prop) :
  (forall s b sf ln s' ev,
      sameSettings self s ->
      nonEmpty (trim b) = true ->
      parseStatement (createSourceFile C) (trim b) (jsx s) = Complete sf ->
      statementEvent C s (trim b) sf ln = (s', Returned ev) ->
      P ev) ->
  (forall s b ln,
      sameSettings self s ->
      nonEmpty (trim b) = true ->
      parseStatement (createSourceFile C) (trim b) (jsx s) = Incomplete ->
      P (incompleteEvent (trim b) ln)) ->
  forall stream, Forall P (eventsOf (runToEnd C stream self).1.2).
Proof.
  intros Hcomplete Hincomplete stream.
  unfold runToEnd. rewrite background_outcome.
  pose proof (forAwait_scan C
                (fun consumed s r =>
                   ScanInv C self consumed s r /\ Forall P (eventsOf r))
                (fun consumed f =>
                   ExitInv C self consumed f
                   /\ Forall P (eventsOf (flowState f).2))) as Hscan.
  specialize (Hscan ltac:(
    intros consumed u s r [Hinv HP];
    pose proof (scan_step C _ _ _ u _ Hinv) as Hinv';
    pose proof (processChar_step C u s r) as Hstep;
    pose proof Hinv as ((Hsame & _ & Hcons & _) & _);
    destruct (processChar C [u] s r) as [s1 r1 | s1 r1 | s1 r1 e1];
      (split; [exact Hinv' |]);
      inversion Hstep; subst; cbn [flowState snd];
      rewrite ?eventsOf_countLine, ?eventsOf_nextStatement;
      first [ exact HP
            | match goal with
              | |- context [emit ?ev (buffered 59 r)] =>
                  destruct (Consistent_emit (buffered 59 r) ev
                              (Consistent_buffered 59 r Hcons))
                    as [_ Hevents];
                  rewrite Hevents, eventsOf_buffered;
                  assert (HPev : P ev)
                    by (eapply Hcomplete;
                        [exact Hsame | apply trim_semicolon_nonEmpty
                        | eassumption | eassumption]);
                  apply Forall_app; split; [exact HP |];
                  constructor; [exact HPev | constructor]
              end ])).
  specialize (Hscan ltac:(
    intros consumed arrival s r [Hinv HP];
    split; [apply ScanInv_await; exact Hinv |];
    destruct Hinv as ((_ & _ & (Hd & Hq & _) & _) & _);
    destruct (consume_facts (pulled arrival) r Hd Hq) as (_ & _ & -> & _);
    exact HP)).
  specialize (Hscan stream [] (set_running true self) newRun
                    (conj (newRun_invariant C self) (Forall_nil_2 _))).
  destruct (forAwait C stream (set_running true self) newRun).1
    as [s1 r1 | s1 r1 | s1 r1 e1]; cbn [outcomeOfFlow].
  - destruct Hscan as [[Hinv HP] _].
    pose proof Hinv as ((Hsame & _ & Hcons & Hres & _) & _).
    destruct (flush_cases C s1 r1) as
      [[Hflush _]
      | (Hne & _ &
         [ (sf & s' & ev & Hparse & Hev & Hflush)
         | [ (sf & s' & e & Hparse & Hev & Hflush) | (Hparse & Hflush) ]])];
      rewrite Hflush.
    + destruct (finally_facts s1 r1 Hcons Hres) as (_ & -> & _). exact HP.
    + destruct (Consistent_emit r1 ev Hcons) as [Hcons' Hevents].
      destruct (finally_facts s' _ Hcons') as (_ & -> & _);
        [run_fields; exact Hres |].
      rewrite Hevents. apply Forall_app. split; [exact HP |].
      constructor; [| constructor]. eapply Hcomplete; eassumption.
    + destruct (finallyRejected_facts s' r1 e Hcons Hres) as (_ & -> & _).
      exact HP.
    + destruct (Consistent_emit r1 (incompleteEvent (trim (buffer r1))
                                      (statementStartLine r1)) Hcons)
        as [Hcons' Hevents].
      destruct (finally_facts s1 _ Hcons') as (_ & -> & _);
        [run_fields; exact Hres |].
      rewrite Hevents. apply Forall_app. split; [exact HP |].
      constructor; [| constructor]. eapply Hincomplete; eassumption.
  - destruct Hscan as (pre & post & _ & Hhalt & HP).
    cbn [flowState snd] in HP.
    destruct Hhalt as ((_ & _ & Hcons & Hres & _) & _).
    destruct (finally_facts s1 r1 Hcons Hres) as (_ & -> & _). exact HP.
  - destruct Hscan as (pre & post & _ & Hthrow & HP).
    cbn [flowState snd] in HP.
    destruct Hthrow as (((_ & _ & Hcons & Hres & _) & _) & _).
    destruct (finallyRejected_facts s1 r1 e1 Hcons Hres) as (_ & -> & _).
    exact HP.
Qed.

End WholeRunFacts.

(** X2: under either error policy and whatever the statements do, the
    result of a run holds the logs of all its events, concatenated in the
    order of the events (those of failing statements included), and its
    error is the first error carried by an event, if any. *)
Theorem X2_result_aggregates_events (C : Collaborators)
  (self : StreamingExecutor) (stream : list Arrival) :
  let r' := (runToEnd C stream self).1.2 in
  let events := eventsOf r' in
  resultPromise r'
  = Some {| res_logs := concat (logs <$> events);
            res_error := head (errorsOf events) |}.
Proof. cbv zeta. apply (run_summary C self stream). Qed.

(** X3: when a run is over, whatever its consumer has read meanwhile, the
    events it has been given followed by the queue are the events of the
    run, in order, followed by exactly one [done] item; the generator has
    not returned yet and the result is resolved.  A consumer that goes on
    reading gets the rest of the events, in order, then the end of the
    generator, and nothing after it. *)
Theorem X3_queue_ends_with_done (C : Collaborators)
  (self : StreamingExecutor) (stream : list Arrival) :
  let r' := (runToEnd C stream self).1.2 in
  let events := eventsOf r' in
  (QEvent <$> yielded r') ++ eventQueue r' = (QEvent <$> events) ++ [QDone]
  /\ generatorDone r' = false
  /\ is_Some (resultPromise r')
  /\ forall n,
       (length (eventQueue r') <= n)%nat ->
       let read := consume n r' in
       yielded read = events /\ eventQueue read = []
       /\ generatorDone read = true
       /\ resultPromise read = resultPromise r'.
Proof.
  cbv zeta.
  assert (Hend : forall (r : Run) (out : StreamingExecutor * Run),
             Consistent r ->
             eventsOf out.2 = eventsOf r ->
             eventQueue out.2 = eventQueue r ++ [QDone] ->
             yielded out.2 = yielded r ->
             generatorDone out.2 = false ->
             is_Some (resultPromise out.2) ->
             (QEvent <$> yielded out.2) ++ eventQueue out.2
             = (QEvent <$> eventsOf out.2) ++ [QDone]
             /\ generatorDone out.2 = false
             /\ is_Some (resultPromise out.2)
             /\ forall n,
                  (length (eventQueue out.2) <= n)%nat ->
                  yielded (consume n out.2) = eventsOf out.2
                  /\ eventQueue (consume n out.2) = []
                  /\ generatorDone (consume n out.2) = true
                  /\ resultPromise (consume n out.2) = resultPromise out.2).
  { intros r out (Hd & Hq & _) Hev Hqueue Hy Hdone Hres.
    assert (Hall : eventsOf r = yielded r ++ eventGenerator (eventQueue r)).
    { unfold eventsOf. rewrite Hd. reflexivity. }
    split.
    { rewrite Hev, Hqueue, Hy, Hall, fmap_app, <- (queue_of_events _ Hq).
      rewrite <- app_assoc. reflexivity. }
    split; [exact Hdone |]. split; [exact Hres |].
    intros n Hn.
    destruct (consume_drain (eventGenerator (eventQueue r)) out.2 n Hdone)
      as (Hy' & Hq' & Hd' & Hr' & _).
    { rewrite Hqueue, <- (queue_of_events _ Hq). reflexivity. }
    { rewrite Hqueue, length_app in Hn. cbn in Hn.
      rewrite (queue_of_events _ Hq), length_fmap in Hn. lia. }
    rewrite Hy', Hy, Hev, Hall. auto. }
  destruct (runToEnd_finally C self stream)
    as (s & r & (_ & _ & Hcons & Hres & _) & [[-> _] | (e & -> & _)]).
  - destruct (finally_facts s r Hcons Hres)
      as (_ & Hev & Hprom & _ & Hq & Hy & Hd).
    apply (Hend r); auto; rewrite Hprom; eauto.
  - destruct (finallyRejected_facts s r e Hcons Hres)
      as (_ & Hev & Hprom & _ & Hq & Hy & Hd).
    apply (Hend r); auto; rewrite Hprom; eauto.
Qed.

(** X4: when a run is over, with or without an error, the running flag
    is down and the settings are those the executor was built with, so the
    next call of [run] is accepted; it starts from line 1 with an empty
    buffer and works on the context the run left. *)
Theorem X4_executor_idle_after_run (C : Collaborators)
  (self : StreamingExecutor) (stream : list Arrival) :
  let after := (runToEnd C stream self).1.1 in
  _running after = false
  /\ sameSettings self after
  /\ run after = RunStarted (set_running true after) newRun.
Proof.
  cbv zeta.
  destruct (run_summary C self stream) as (_ & _ & Hrun & Hsame).
  split; [exact Hrun |]. split; [exact Hsame |].
  unfold run. rewrite Hrun. reflexivity.
Qed.

(** X5: every error carried by an event has the line of its event; an
    error of type [parse] comes with empty logs and with a [thrown] value
    that is an [Error] created by the executor from the error's message. *)
Theorem X5_parse_errors_are_executor_made (C : Collaborators)
  (self : StreamingExecutor) (stream : list Arrival) :
  Forall (fun ev =>
            forall e, error ev = Some e ->
                      line e = ev_line ev
                      /\ (type e = parse ->
                          logs ev = [] /\ thrown e = newError (message e)))
         (eventsOf (runToEnd C stream self).1.2).
Proof.
  apply run_events_forall.
  - intros s b sf ln s' ev _ _ _ Hev e Herr.
    destruct (statementEvent_fields C _ _ _ _ _ _ Hev) as (_ & Hln & Hline & _).
    split; [rewrite Hln; apply Hline, Herr |].
    unfold statementEvent in Hev.
    destruct (transpile C s (trim b)) as [[code | msg] | e'];
      [| | discriminate].
    + destruct (executeStatement C s code (extractBindingsFromAST sf) ln)
        as [s1 [[lg err] | e']] eqn:Hexec; [| discriminate].
      injection Hev as _ <-. cbn in Herr. subst err.
      destruct (executeStatement_failure C _ _ _ _ _ _ _ Hexec)
        as (_ & _ & Hshape).
      destruct (looksLikeTimeout (thrown e)); destruct Hshape as [-> _];
        discriminate.
    + injection Hev as _ <-. cbn in Herr. injection Herr as <-.
      intros _. split; reflexivity.
  - intros s b ln _ _ _ e [= <-]. cbn. repeat split.
Qed.

(** X6: an error of type [timeout] always has the message "Execution
    timeout", and its [thrown] value is an instance of the host's [Error]
    whose [message] is that string (whoever created it). *)
Theorem X6_timeout_errors_shape (C : Collaborators)
  (self : StreamingExecutor) (stream : list Arrival) :
  Forall (fun ev =>
            forall e, error ev = Some e -> type e = timeout ->
                      message e = js "Execution timeout"
                      /\ instanceofError (thrown e) = true
                      /\ getProp (thrown e) (js "message")
                         = VString (js "Execution timeout"))
         (eventsOf (runToEnd C stream self).1.2).
Proof.
  apply run_events_forall.
  - intros s b sf ln s' ev _ _ _ Hev e Herr Hty.
    unfold statementEvent in Hev.
    destruct (transpile C s (trim b)) as [[code | msg] | e'];
      [| | discriminate].
    + destruct (executeStatement C s code (extractBindingsFromAST sf) ln)
        as [s1 [[lg err] | e']] eqn:Hexec; [| discriminate].
      injection Hev as _ <-. cbn in Herr. subst err.
      pose proof (proj1 (executeStatement_timeout_iff C _ _ _ _ _ _ _ Hexec)
                    Hty) as Hlooks.
      destruct (executeStatement_failure C _ _ _ _ _ _ _ Hexec)
        as (_ & _ & Hshape).
      rewrite Hlooks in Hshape. destruct Hshape as [_ Hm].
      split; [exact Hm |].
      unfold looksLikeTimeout in Hlooks.
      apply andb_true_iff in Hlooks as [Hinst Heq].
      split; [exact Hinst |].
      unfold strictEqualsString in Heq.
      destruct (getProp (thrown e) (js "message")); try discriminate.
      apply bool_decide_eq_true in Heq. rewrite Heq. reflexivity.
    + injection Hev as _ <-. cbn in Herr. injection Herr as <-.
      discriminate.
  - intros s b ln _ _ _ e [= <-]. discriminate.
Qed.


(** X8: the statement of an event is never empty and carries no white
    space at either end: it is its own trimmed text. *)
Theorem X8_statements_are_trimmed (C : Collaborators)
  (self : StreamingExecutor) (stream : list Arrival) :
  Forall (fun ev => statement ev <> []
                    /\ trim (statement ev) = statement ev)
         (eventsOf (runToEnd C stream self).1.2).
Proof.
  apply run_events_forall.
  - intros s b sf ln s' ev _ Hne _ Hev.
    destruct (statementEvent_fields C _ _ _ _ _ _ Hev) as (-> & _).
    split; [| apply trim_idempotent].
    intros Hnil. rewrite Hnil in Hne. discriminate.
  - intros s b ln _ Hne _. cbn.
    split; [| apply trim_idempotent].
    intros Hnil. rewrite Hnil in Hne. discriminate.
Qed.

(** ** Counting events, and sources without semicolons *)

Section CountFacts.

Variable C : Collaborators.

Lemma count_step (self0 s : StreamingExecutor) (consumed : jsstring)
  (u : Z) (r : Run) :
  ScanInv C self0 consumed s r
  /\ (length (eventsOf r) <= countSemicolons consumed)%nat ->
  match processChar C [u] s r with
  | Next s' r' =>
      ScanInv C self0 (consumed ++ [u]) s' r'
      /\ (length (eventsOf r') <= countSemicolons (consumed ++ [u]))%nat
  | stop =>
      ExitInv C self0 (consumed ++ [u]) stop
      /\ (length (eventsOf (flowState stop).2)
          <= countSemicolons (consumed ++ [u]))%nat
  end.
Proof.
  intros [Hinv Hlen].
  pose proof (scan_step C _ _ _ u _ Hinv) as Hinv'.
  pose proof (processChar_step C u s r) as Hstep.
  pose proof Hinv as ((_ & _ & Hcons & _) & _).
  rewrite countSemicolons_app. cbn [countSemicolons].
  destruct (processChar C [u] s r) as [s1 r1 | s1 r1 | s1 r1 e1];
    (split; [exact Hinv' |]); inversion Hstep; subst;
    cbn [flowState snd];
    rewrite ?eventsOf_countLine, ?eventsOf_nextStatement;
    try (destruct (Consistent_emit (buffered 59 r) ev
                     (Consistent_buffered 59 r Hcons)) as [_ ->];
         rewrite length_app, bool_decide_eq_true_2 by reflexivity);
    rewrite eventsOf_buffered; simpl; lia.
Qed.

(** A code unit other than the semicolon is buffered, and counted if it
    is a newline. *)
Lemma processChar_other (u : Z) (self : StreamingExecutor) (r : Run) :
  u <> 59 ->
  processChar C [u] self r = Next self (countLine u (buffered u r)).
Proof.
  intros Hu. pose proof (processChar_step C u self r) as Hstep.
  destruct (processChar C [u] self r) as [s1 r1 | s1 r1 | s1 r1 e1];
    inversion Hstep; subst; congruence.
Qed.

Lemma forUnits_no_semicolon (text : jsstring) (self : StreamingExecutor)
  (r : Run) :
  countSemicolons text = 0%nat ->
  exists r',
    forUnits C text self r = Next self r'
    /\ buffer r' = buffer r ++ text
    /\ allLogs r' = allLogs r /\ finalError r' = finalError r
    /\ eventQueue r' = eventQueue r /\ resultPromise r' = resultPromise r
    /\ yielded r' = yielded r /\ generatorDone r' = generatorDone r
    /\ rejected r' = rejected r.
Proof.
  revert r. induction text as [|u text IH]; intros r Hcount.
  - exists r. rewrite app_nil_r. auto 10.
  - cbn [countSemicolons] in Hcount.
    destruct (bool_decide (u = 59)) eqn:Hu; [lia |].
    apply bool_decide_eq_false in Hu.
    destruct (IH (countLine u (buffered u r)) ltac:(lia))
      as (r2 & Hscan & Hb2 & Hl2 & He2 & Hq2 & Hp2 & Hy2 & Hd2 & Hj2).
    exists r2. cbn [forUnits]. rewrite (processChar_other u self r Hu).
    split; [exact Hscan |].
    rewrite Hb2, Hl2, He2, Hq2, Hp2, Hy2, Hd2, Hj2. run_fields.
    rewrite <- app_assoc. auto 10.
Qed.

(** A consumer that finds the queue empty gets nothing. *)
Lemma consume_idle (n : nat) (r : Run) : eventQueue r = [] -> consume n r = r.
Proof.
  induction n as [|n IH]; intros Hq; [reflexivity |].
  cbn [consume]. unfold generatorNext. rewrite Hq.
  destruct (generatorDone r); apply IH, Hq.
Qed.

Lemma awaitAll_running (stream : list Arrival) (b : bool)
  (self : StreamingExecutor) :
  awaitAll C stream (set_running b self)
  = set_running b (awaitAll C stream self).
Proof.
  unfold awaitAll. revert self.
  induction stream as [|arrival rest IH]; intros self; [reflexivity |].
  cbn [fold_left]. rewrite <- IH. f_equal. unfold await. cbn [_context _pending set_running].
  destruct (elapse C _ _ _). reflexivity.
Qed.

Lemma awaitAll_quiescent (stream : list Arrival) (self : StreamingExecutor) :
  Quiescent C -> awaitAll C stream self = self.
Proof.
  intros Hq. unfold awaitAll.
  induction stream as [|arrival rest IH]; [reflexivity |].
  cbn [fold_left]. rewrite (await_quiescent C arrival self Hq).
  exact IH.
Qed.

(** On a source without semicolons the loop only buffers: nothing is
    queued, and the executor changes by what happens in the sandbox while
    the task waits. *)
Lemma forAwait_no_semicolon (stream : list Arrival)
  (self : StreamingExecutor) (r : Run) :
  countSemicolons (sourceText stream) = 0%nat ->
  eventQueue r = [] ->
  exists r',
    (forAwait C stream self r).1 = Next (awaitAll C stream self) r'
    /\ buffer r' = buffer r ++ sourceText stream
    /\ allLogs r' = allLogs r /\ finalError r' = finalError r
    /\ eventQueue r' = [] /\ resultPromise r' = resultPromise r
    /\ yielded r' = yielded r /\ generatorDone r' = generatorDone r
    /\ rejected r' = rejected r.
Proof.
  revert self r. induction stream as [|arrival rest IH];
    intros self r Hcount Hq.
  - exists r. cbn. rewrite app_nil_r. auto 10.
  - unfold sourceText in Hcount. cbn [fmap list_fmap concat] in Hcount.
    fold (sourceText rest) in Hcount.
    rewrite countSemicolons_app in Hcount.
    cbn [forAwait]. rewrite (consume_idle _ r Hq), forChars_codePoints.
    destruct (forUnits_no_semicolon (chunk arrival) (await C arrival self) r
                ltac:(lia))
      as (r1 & -> & Hb1 & Hl1 & He1 & Hq1 & Hp1 & Hy1 & Hd1 & Hj1).
    destruct (IH (await C arrival self) r1 ltac:(lia) ltac:(congruence))
      as (r2 & Hscan & Hb2 & Hl2 & He2 & Hq2 & Hp2 & Hy2 & Hd2 & Hj2).
    exists r2. split; [exact Hscan |].
    unfold sourceText. cbn [fmap list_fmap concat]. fold (sourceText rest).
    rewrite Hb2, Hb1, <- app_assoc, Hl2, He2, Hp2, Hy2, Hd2, Hj2.
    auto 10.
Qed.

Lemma blank_no_semicolon (text : jsstring) :
  blank text -> countSemicolons text = 0%nat.
Proof.
  induction text as [|u text IH]; [reflexivity |].
  intros [Hu Hs]%blank_cons. cbn [countSemicolons]. rewrite IH by exact Hs.
  destruct (bool_decide (u = 59)) eqn:H59; [| reflexivity].
  apply bool_decide_eq_true in H59. subst u. discriminate.
Qed.

(** The run of a source without semicolons, up to its flush: the
    executor waited, and the closure holds the source in its buffer and
    nothing else. *)
Lemma runToEnd_no_semicolon (self : StreamingExecutor)
  (stream : list Arrival) :
  countSemicolons (sourceText stream) = 0%nat ->
  exists r,
    (runToEnd C stream self).1
    = outcomeOfFlow C (Next (set_running true (awaitAll C stream self)) r)
    /\ ScanInv C self (sourceText stream)
               (set_running true (awaitAll C stream self)) r
    /\ LineInv (sourceText stream) r
    /\ buffer r = sourceText stream /\ eventsOf r = []
    /\ allLogs r = [] /\ finalError r = None.
Proof.
  intros Hcount. unfold runToEnd. rewrite background_outcome.
  pose proof (forAwait_scan C
                (fun consumed s r =>
                   ScanInv C self consumed s r /\ LineInv consumed r)
                (fun _ _ => True)) as Hscan.
  specialize (Hscan ltac:(
    intros consumed u s r Hinv;
    pose proof (line_step C self s consumed u r Hinv) as Hstep;
    destruct (processChar C [u] s r); [exact Hstep | exact I | exact I])).
  specialize (Hscan ltac:(
    intros consumed arrival s r [Hinv Hline];
    split; [apply ScanInv_await; exact Hinv |];
    apply LineInv_await; [apply Hinv | exact Hline])).
  specialize (Hscan stream [] (set_running true self) newRun
                    (conj (newRun_invariant C self) newRun_lines)).
  destruct (forAwait_no_semicolon stream (set_running true self) newRun
              Hcount eq_refl)
    as (r1 & Hflow & Hb & Hl & He & Hq & Hp & Hy & Hd & Hj).
  rewrite Hflow in *. rewrite awaitAll_running in *.
  destruct Hscan as [[Hinv Hline] _]. cbn [app] in *.
  exists r1. split; [reflexivity |]. split; [exact Hinv |].
  split; [exact Hline |]. split; [exact Hb |].
  unfold eventsOf. rewrite Hy, Hd, Hq. cbn. auto.
Qed.

End CountFacts.

(** X9: a run emits at most one event per semicolon of its source, and
    at most one more for what is left when the stream ends. *)
Theorem X9_events_bounded_by_semicolons (C : Collaborators)
  (self : StreamingExecutor) (stream : list Arrival) :
  (length (eventsOf (runToEnd C stream self).1.2)
   <= countSemicolons (sourceText stream) + 1)%nat.
Proof.
  unfold runToEnd. rewrite background_outcome.
  pose proof (forAwait_scan C
                (fun consumed s r =>
                   ScanInv C self consumed s r
                   /\ (length (eventsOf r) <= countSemicolons consumed)%nat)
                (fun consumed f =>
                   ExitInv C self consumed f
                   /\ (length (eventsOf (flowState f).2)
                       <= countSemicolons consumed)%nat)
                (fun consumed u s r => count_step C self s consumed u r))
    as Hscan.
  specialize (Hscan ltac:(
    intros consumed arrival s r [Hinv Hlen];
    split; [apply ScanInv_await; exact Hinv |];
    destruct Hinv as ((_ & _ & (Hd & Hq & _) & _) & _);
    destruct (consume_facts (pulled arrival) r Hd Hq) as (_ & _ & -> & _);
    exact Hlen)).
  specialize (Hscan stream [] (set_running true self) newRun
                    (conj (newRun_invariant C self) (Nat.le_refl 0))).
  destruct (forAwait C stream (set_running true self) newRun).1
    as [s1 r1 | s1 r1 | s1 r1 e1]; cbn [outcomeOfFlow].
  - destruct Hscan as [[Hinv Hlen] _]. cbn [app] in Hlen.
    pose proof Hinv as ((_ & _ & Hcons & Hres & _) & _).
    destruct (flush_cases C s1 r1) as
      [[Hflush _]
      | (Hne & _ &
         [ (sf & s' & ev & Hparse & Hev & Hflush)
         | [ (sf & s' & e & Hparse & Hev & Hflush) | (Hparse & Hflush) ]])];
      rewrite Hflush.
    + destruct (finally_facts s1 r1 Hcons Hres) as (_ & -> & _). lia.
    + destruct (Consistent_emit r1 ev Hcons) as [Hcons' Hevents].
      destruct (finally_facts s' _ Hcons') as (_ & -> & _);
        [run_fields; exact Hres |].
      rewrite Hevents, length_app. simpl. lia.
    + destruct (finallyRejected_facts s' r1 e Hcons Hres) as (_ & -> & _).
      lia.
    + destruct (Consistent_emit r1 (incompleteEvent (trim (buffer r1))
                                      (statementStartLine r1)) Hcons)
        as [Hcons' Hevents].
      destruct (finally_facts s1 _ Hcons') as (_ & -> & _);
        [run_fields; exact Hres |].
      rewrite Hevents, length_app. simpl. lia.
  - destruct Hscan as (pre & post & Htext & Hhalt & Hlen).
    cbn [app flowState snd] in Hlen.
    destruct Hhalt as ((_ & _ & Hcons & Hres & _) & _).
    destruct (finally_facts s1 r1 Hcons Hres) as (_ & -> & _).
    rewrite Htext, countSemicolons_app. lia.
  - destruct Hscan as (pre & post & Htext & Hthrow & Hlen).
    cbn [app flowState snd] in Hlen.
    destruct Hthrow as (((_ & _ & Hcons & Hres & _) & _) & _).
    destruct (finallyRejected_facts s1 r1 e1 Hcons Hres) as (_ & -> & _).
    rewrite Htext, countSemicolons_app. lia.
Qed.

(** X10: an empty stream, or one of white space only, gives no event and
    a result with empty logs and no error; the promise of the task is not
    rejected.  The run itself does nothing to the executor, which is idle
    afterwards: its context is as before, but for what callbacks left
    pending by earlier runs did to it while the task waited for the stream,
    and it is untouched when nothing happens in the sandbox meanwhile. *)
Theorem X10_blank_stream_does_nothing (C : Collaborators)
  (self : StreamingExecutor) (stream : list Arrival) :
  blank (sourceText stream) ->
  let out := (runToEnd C stream self).1 in
  eventsOf out.2 = []
  /\ resultPromise out.2 = Some {| res_logs := []; res_error := None |}
  /\ rejected out.2 = None
  /\ out.1 = set_running false (awaitAll C stream self)
  /\ (Quiescent C -> out.1 = set_running false self).
Proof.
  intros Hblank. cbv zeta.
  destruct (runToEnd_no_semicolon C self stream
              (blank_no_semicolon _ Hblank))
    as (r & -> & Hinv & _ & Hb & Hev & Hl & He).
  pose proof Hinv as ((_ & _ & Hcons & Hres & Hrej & _) & _).
  cbn [outcomeOfFlow].
  destruct (flush_cases C (set_running true (awaitAll C stream self)) r) as
    [[-> _] | (Hne & _)].
  2:{ rewrite Hb, (blank_trim_nil _ Hblank) in Hne. discriminate. }
  destruct (finally_facts (set_running true (awaitAll C stream self)) r
              Hcons Hres) as (-> & -> & -> & -> & _).
  rewrite Hl, He.
  assert (Hidle : forall s, set_running false (set_running true s)
                            = set_running false s) by (intros []; reflexivity).
  rewrite Hidle. repeat split; auto.
  intros Hq. rewrite (awaitAll_quiescent C stream self Hq). reflexivity.
Qed.

Lemma X10_blank_stream_does_nothing_witness :
  let self := constructor (Some (Sample.options false)) in
  let stream := Sample.every 5 [[32; 10]; []; [9; 13; 10]] in
  let out := (runToEnd Sample.collaborators stream self).1 in
  eventsOf out.2 = []
  /\ resultPromise out.2 = Some {| res_logs := []; res_error := None |}
  /\ rejected out.2 = None
  /\ out.1 = set_running false (awaitAll Sample.collaborators stream self)
  /\ (Quiescent Sample.collaborators -> out.1 = set_running false self).
Proof.
  cbv zeta. apply X10_blank_stream_does_nothing. reflexivity.
Defined.

(** X11: a source without a semicolon is attempted once, when the stream
    ends (a last statement needs no semicolon).  If its trimmed text is not
    empty, the run has exactly one event, whose statement is that text and
    whose line is that of its first code unit that is not white space, and
    the result holds that event's logs and error; unless the pipeline of
    the statement throws: then the run has no event, its result is empty,
    and the promise of the task is rejected with what was thrown. *)
Theorem X11_unterminated_source_runs_at_end (C : Collaborators)
  (self : StreamingExecutor) (stream : list Arrival) :
  countSemicolons (sourceText stream) = 0%nat ->
  nonEmpty (trim (sourceText stream)) = true ->
  let source := sourceText stream in
  let line_ := 1 + countNewlines (leadingBlank source) in
  let r' := (runToEnd C stream self).1.2 in
  (exists ev,
      eventsOf r' = [ev]
      /\ statement ev = trim source /\ ev_line ev = line_
      /\ resultPromise r'
         = Some {| res_logs := logs ev; res_error := error ev |}
      /\ rejected r' = None)
  \/ (exists sourceFile s' e,
         parseStatement (createSourceFile C) (trim source) (jsx self)
         = Complete sourceFile
         /\ statementEvent C (set_running true (awaitAll C stream self))
                           (trim source) sourceFile line_
            = (s', Thrown e)
         /\ eventsOf r' = []
         /\ resultPromise r'
            = Some {| res_logs := []; res_error := None |}
         /\ rejected r' = Some e).
Proof.
  intros Hcount Hne. cbv zeta.
  destruct (runToEnd_no_semicolon C self stream Hcount)
    as (r & -> & Hinv & Hline & Hb & Hev & Hl & He).
  pose proof Hinv as ((Hsame & _ & Hcons & Hres & Hrej & _) & _).
  destruct Hline as (text & Htext & _ & Hssl & _).
  assert (text = []) as ->.
  { rewrite Hb in Htext. apply (f_equal length) in Htext.
    rewrite length_app in Htext. destruct text; [reflexivity |].
    simpl in Htext. lia. }
  cbn [app] in Hssl. rewrite Hb in Hssl.
  cbn [outcomeOfFlow].
  set (s0 := set_running true (awaitAll C stream self)) in *.
  assert (Hjsx : jsx s0 = jsx self).
  { destruct Hsame as (_ & _ & Hj & _). symmetry. exact Hj. }
  destruct (flush_cases C s0 r) as
    [[_ Hwhy]
    | (_ & _ &
       [ (sf & s' & ev & Hparse & Hstmt & Hflush)
       | [ (sf & s' & e & Hparse & Hstmt & Hflush) | (Hparse & Hflush) ]])].
  { exfalso. destruct Hwhy as [Hnil | [_ [e Herr]]].
    - rewrite Hb in Hnil. rewrite Hnil in Hne. discriminate.
    - rewrite He in Herr. discriminate. }
  - left. rewrite Hflush.
    destruct (Consistent_emit r ev Hcons) as [Hcons' Hevents].
    destruct (finally_facts s' _ Hcons') as (_ & -> & -> & -> & _);
      [run_fields; exact Hres |].
    destruct (statementEvent_fields C _ _ _ _ _ _ Hstmt) as (Hst & Hevl & _).
    exists ev. rewrite Hevents, Hev, Hst, Hevl, Hb, Hssl. run_fields.
    rewrite Hl, He, Hrej. auto.
  - right. rewrite Hflush.
    destruct (finallyRejected_facts s' r e Hcons Hres)
      as (_ & -> & -> & -> & _).
    exists sf, s', e. rewrite Hb, Hssl, Hjsx in *. rewrite Hev, Hl, He. auto.
  - left. rewrite Hflush.
    destruct (Consistent_emit r (incompleteEvent (trim (buffer r))
                                   (statementStartLine r)) Hcons)
      as [Hcons' Hevents].
    destruct (finally_facts s0 _ Hcons') as (_ & -> & -> & -> & _);
      [run_fields; exact Hres |].
    exists (incompleteEvent (trim (buffer r)) (statementStartLine r)).
    rewrite Hevents, Hev, Hb, Hssl. run_fields. rewrite Hl, He, Hrej. auto.
Qed.

Lemma X11_unterminated_source_runs_at_end_witness :
  let self := constructor (Some (Sample.options false)) in
  let stream := Sample.every 5 [[10; 32] ++ js "var x "; js "= "] in
  let source := sourceText stream in
  let line_ := 1 + countNewlines (leadingBlank source) in
  let r' := (runToEnd Sample.collaborators stream self).1.2 in
  (exists ev,
      eventsOf r' = [ev]
      /\ statement ev = trim source /\ ev_line ev = line_
      /\ resultPromise r'
         = Some {| res_logs := logs ev; res_error := error ev |}
      /\ rejected r' = None)
  \/ (exists sourceFile s' e,
         parseStatement (createSourceFile Sample.collaborators)
                        (trim source) (jsx self)
         = Complete sourceFile
         /\ statementEvent Sample.collaborators
                           (set_running true
                              (awaitAll Sample.collaborators stream self))
                           (trim source) sourceFile line_
            = (s', Thrown e)
         /\ eventsOf r' = []
         /\ resultPromise r'
            = Some {| res_logs := []; res_error := None |}
         /\ rejected r' = Some e).
Proof.
  cbv zeta. apply X11_unterminated_source_runs_at_end; reflexivity.
Defined.

(** X12: when the promise of the task is not rejected, and the run
    continues on errors or no event carries an error, the task pulls every
    chunk of the stream, so that nothing is left unread, and every
    statement of the source has its event: the statements of the events
    are the statements of the source, in order. *)
Theorem X12_whole_stream_is_read (C : Collaborators)
  (self : StreamingExecutor) (stream : list Arrival) :
  let r' := (runToEnd C stream self).1.2 in
  rejected r' = None ->
  continueOnError self = true \/ errorsOf (eventsOf r') = [] ->
  (runToEnd C stream self).2 = []
  /\ StatementsOf C (jsx self) (statement <$> eventsOf r') (sourceText stream).
Proof.
  cbv zeta. intros Hrej Hpol.
  destruct (run_policy C self stream) as (_ & Hread).
  destruct (Hread Hrej Hpol) as [_ Hunread].
  split; [exact Hunread | apply run_statements; assumption].
Qed.

Lemma X12_whole_stream_is_read_witness :
  let self := constructor (Some (Sample.options true)) in
  let stream := Sample.every 5 [js "throw 1; var x"; js " = 2;";
                                js "log(x);"] in
  let r' := (runToEnd Sample.collaborators stream self).1.2 in
  (runToEnd Sample.collaborators stream self).2 = []
  /\ StatementsOf Sample.collaborators (jsx self) (statement <$> eventsOf r')
                  (sourceText stream).
Proof.
  cbv zeta. apply X12_whole_stream_is_read.
  - vm_compute. reflexivity.
  - left. reflexivity.
Defined.

(** ** The names of a new context *)

Section ContextFacts.

Lemma initializeBuiltins_names (key : jsstring) :
  is_Some (initializeBuiltins ∅ !! key) <-> In key builtinNames.
Proof.
  assert (Hmap : initializeBuiltins ∅
                 = list_to_map
                     [(js "globalThis", VContext);
                      (js "setTimeout", VFunction (js "setTimeout"));
                      (js "clearTimeout", VFunction (js "clearTimeout"));
                      (js "setInterval", VFunction (js "setInterval"));
                      (js "clearInterval", VFunction (js "clearInterval"));
                      (js "queueMicrotask", VFunction (js "queueMicrotask"));
                      (js "console", VConsole)])
    by (vm_compute; reflexivity).
  rewrite Hmap, <- elem_of_dom, dom_list_to_map_L, elem_of_list_to_set.
  rewrite list_elem_of_In. reflexivity.
Qed.

End ContextFacts.

(** X15: the own properties of the context of a new executor are the
    built-in globals and the keys of [options.context] other than
    [__proto__] (an assignment to that key goes to the setter the context
    inherits, and creates no property), and no other name. *)
Theorem X15_constructor_context_names
  (options : option StreamingExecutorOptions) (key : jsstring) :
  is_Some (_context (constructor options) !! key)
  <-> In key builtinNames
      \/ (key <> js "__proto__"
          /\ exists record,
               options ≫= opt_context = Some record
               /\ is_Some (record !! key)).
Proof.
  unfold constructor. cbn [_context].
  destruct (options ≫= opt_context) as [record|].
  - rewrite applyUserContext_lookup.
    destruct (bool_decide (key = js "__proto__")) eqn:Hp.
    + apply bool_decide_eq_true in Hp. rewrite initializeBuiltins_names.
      split; [auto |]. intros [H | [Hne _]]; [exact H | contradiction].
    + apply bool_decide_eq_false in Hp.
      destruct (record !! key) as [v|] eqn:Hk.
      * split; [| eauto]. intros _. right. split; [exact Hp |].
        exists record. rewrite Hk. eauto.
      * rewrite initializeBuiltins_names. split; [auto |].
        intros [H | (_ & record' & [= <-] & Hsome)]; [exact H |].
        rewrite Hk in Hsome. destruct Hsome as [? [=]].
  - rewrite initializeBuiltins_names. split; [auto |].
    intros [H | (_ & record' & [=] & _)]. exact H.
Qed.

(** ** Lines never go back *)

Section LineOrderFacts.

Lemma Located_sorted (items : list (jsstring * Z)) (text : jsstring) :
  Located items text ->
  Forall (fun a => a.2 <= 1 + countNewlines text) items
  /\ StronglySorted Z.le (items.*2).
Proof.
  induction 1 as [| items text l s r Hloc [IHb IHs] Hl Hr Hs Ht].
  - split; constructor.
  - pose proof (countNewlines_nonneg l).
    pose proof (countNewlines_nonneg s).
    pose proof (countNewlines_nonneg r).
    split.
    + apply Forall_app. split.
      * eapply Forall_impl; [exact IHb |]. intros a Ha. cbn beta in *.
        rewrite !countNewlines_app. clear - H H0 H1 Ha. lia.
      * constructor; [| constructor]. cbn [snd].
        rewrite !countNewlines_app. clear - H H0 H1. lia.
    + rewrite fmap_app. apply StronglySorted_app_2.
      * intros x1 x2 Hx1 Hx2. apply list_elem_of_singleton in Hx2. subst x2.
        apply list_elem_of_fmap in Hx1 as (a & -> & Ha).
        rewrite Forall_forall in IHb. specialize (IHb _ Ha). cbn beta in IHb.
        cbn [snd]. rewrite countNewlines_app. clear - H IHb. lia.
      * exact IHs.
      * repeat constructor.
Qed.

End LineOrderFacts.

(** X17: the lines of the events of a run never decrease: the list of
    the events' lines is sorted. *)
Theorem X17_event_lines_never_decrease (C : Collaborators)
  (self : StreamingExecutor) (stream : list Arrival) :
  StronglySorted Z.le (ev_line <$> eventsOf (runToEnd C stream self).1.2).
Proof.
  destruct (runToEnd_located C self stream) as (woven & rest & _ & Hloc).
  destruct (Located_sorted _ _ Hloc) as [_ Hsorted].
  unfold located in Hsorted. rewrite <- list_fmap_compose in Hsorted.
  exact Hsorted.
Qed.

(** X19: the statements of the events of a run are computed from its
    source alone.  When the promise of the task is not rejected, and the
    run continues on errors or no event carries an error, the statements of
    the events are those found by reading the source from left to right and
    ending a statement at each semicolon at which the text since the
    previous statement is judged complete, with the text left at the end as
    the last statement if it is not blank. *)
Theorem X19_event_statements_are_computed (C : Collaborators)
  (self : StreamingExecutor) (stream : list Arrival) :
  let r' := (runToEnd C stream self).1.2 in
  rejected r' = None ->
  continueOnError self = true \/ errorsOf (eventsOf r') = [] ->
  statement <$> eventsOf r'
  = statementsOf C (jsx self) (sourceText stream).
Proof.
  cbv zeta. intros Hrej Hpol.
  apply StatementsOf_computed, run_statements; assumption.
Qed.

Lemma X19_event_statements_are_computed_witness :
  let self := constructor (Some (Sample.options true)) in
  let stream := Sample.every 5 [js "var x = 1; thr"; js "ow 2;" ++ [10];
                                js "log(" ++ [34];
                                js ";" ++ [34] ++ js "); var y"] in
  let r' := (runToEnd Sample.collaborators stream self).1.2 in
  statementsOf Sample.collaborators (jsx self) (sourceText stream)
  = [js "var x = 1;"; js "throw 2;";
     js "log(" ++ [34] ++ js ";" ++ [34] ++ js ");"; js "var y"]
  /\ statement <$> eventsOf r'
     = statementsOf Sample.collaborators (jsx self) (sourceText stream).
Proof.
  cbv zeta. split; [vm_compute; reflexivity |].
  apply X19_event_statements_are_computed.
  - vm_compute. reflexivity.
  - left. reflexivity.
Defined.
